(** * Traffic signal controller: a shallow embedding of [traffic_controller.py]

    The development follows the source file top-down: the numbers the program
    computes with, the exceptions it can raise, the emergency priority queue,
    the shared [Intersection] object and its methods, the [TrafficSignal]
    thread as a small-step machine, and the [TrafficController] that owns
    them. *)

From Stdlib Require Import ZArith Floats.
From stdpp Require Import gmap strings list pretty.

Local Open Scope Z_scope.

(** ** Python floats

    The program does a handful of float operations (timestamps, waiting
    times, the adaptive green time).  They are kept behind a small
    interface, instantiated with IEEE-754 binary64, which is what CPython
    runs; what is proved for every instance holds of the floats whatever
    their bits. *)

Class PyFloat (F : Type) := {
  fadd : F → F → F;
  fsub : F → F → F;
  fmul : F → F → F;
  fdiv : F → F → F;
  fneg : F → F;
  flt : F → F → bool;
  feq : F → F → bool;
  float_of_int : Z → F;
}.

(** A short decimal literal [n/d] such as [0.5] or [100.0]: the correctly
    rounded quotient, which is also what the Python parser produces. *)
Definition fdec `{PyFloat F} (n d : Z) : F := fdiv (float_of_int n) (float_of_int d).

Definition fgt `{PyFloat F} (x y : F) : bool := flt y x.

#[export] Instance binary64 : PyFloat float := {
  fadd := PrimFloat.add;
  fsub := PrimFloat.sub;
  fmul := PrimFloat.mul;
  fdiv := PrimFloat.div;
  fneg := PrimFloat.opp;
  flt := PrimFloat.ltb;
  feq := PrimFloat.eqb;
  float_of_int z := SF2Prim (binary_normalize prec emax z 0 false);
}.

(** ** Exceptions and the state-and-exception monad

    A method either returns a value or raises; in both cases the object it
    ran on is left in some state, which the caller keeps using. *)

Inductive exn := Empty | TypeError | KeyError | ValueError | OverflowError | IndexError.

#[global] Instance exn_eq_dec : EqDecision exn.
Proof. solve_decision. Defined.

Inductive result (S A : Type) :=
| Returned (a : A) (s : S)
| Raised (e : exn) (s : S).
Arguments Returned {S A} a s.
Arguments Raised {S A} e s.

Definition M (S A : Type) : Type := S → result S A.

Definition ret {S A} (a : A) : M S A := λ s, Returned a s.
Definition raise {S A} (e : exn) : M S A := λ s, Raised e s.
Definition bind {S A B} (m : M S A) (k : A → M S B) : M S B :=
  λ s, match m s with
       | Returned a s' => k a s'
       | Raised e s' => Raised e s'
       end.
Definition get_state {S} : M S S := λ s, Returned s s.
Definition modify {S} (f : S → S) : M S unit := λ s, Returned () (f s).

(** [try: m except e: h] *)
Definition try_except {S A} (m : M S A) (e : exn) (h : M S A) : M S A :=
  λ s, match m s with
       | Raised e' s' => if decide (e' = e) then h s' else Raised e' s'
       | r => r
       end.

(** Run a computation on a component of the state. *)
Definition zoom {S T A} (proj : S → T) (upd : T → S → S) (m : M T A) : M S A :=
  λ s, match m (proj s) with
       | Returned a t => Returned a (upd t s)
       | Raised e t => Raised e (upd t s)
       end.

(** The state a computation ends in, changed by [f]. *)
Definition result_map {S A} (f : S → S) (r : result S A) : result S A :=
  match r with
  | Returned a s => Returned a (f s)
  | Raised e s => Raised e (f s)
  end.

#[global] Instance M_ret {S} : MRet (M S) := λ A, ret.
#[global] Instance M_bind {S} : MBind (M S) := λ A B k m, bind m k.

(** ** Data model *)

Inductive SignalState := RED | YELLOW | GREEN | EMERGENCY.

(** [SignalState.value] *)
Definition SignalState_value (st : SignalState) : string :=
  match st with
  | RED => "🔴 RED"
  | YELLOW => "🟡 YELLOW"
  | GREEN => "🟢 GREEN"
  | EMERGENCY => "🚨 EMERGENCY"
  end.

Section Model.
Context {F : Type} `{PyFloat F}.

Record TrafficStats := mkTrafficStats {
  total_cycles : Z;
  total_wait_time : F;
  emergency_responses : Z;
  deadlock_preventions : Z;
  average_green_time : F;
  vehicles_passed : Z;
}.

(** [ev_obj] is the identity of the Python object: two requests are the same
    object exactly when it agrees.  The queue tuple and the signal thread
    servicing the request both refer to that one object. *)
Record EmergencyVehicle := mkEmergencyVehicle {
  ev_obj : nat;
  ev_direction : string;
  vehicle_id : Z;
  timestamp : F;
  handled : bool;
}.

Definition entry : Type := F * EmergencyVehicle.

(** ** The emergency queue: [queue.PriorityQueue] over [heapq]

    Entries are tuples [(priority, emergency)].  Python compares tuples item
    by item: the first pair of items that are not [==] decides.  Two
    [EmergencyVehicle] objects are [==] only when they are the same object,
    and they have no order, so comparing two entries of equal priority
    raises [TypeError].

    The queue keeps its entries in a list ordered as a binary heap and works
    on it with [heappush] and [heappop].  As in CPython, an item moves by
    exchanging places with its parent or child, so the list holds the same
    entries at every moment, also when a comparison raises. *)

Definition entry_lt (a b : entry) : option bool :=
  if feq a.1 b.1
  then if decide (ev_obj a.2 = ev_obj b.2) then Some false else None
  else Some (flt a.1 b.1).

Definition swap (i j : nat) (heap : list entry) : list entry :=
  match heap !! i, heap !! j with
  | Some a, Some b => <[i:=b]> (<[j:=a]> heap)
  | _, _ => heap
  end.

(** [_siftdown(heap, startpos, pos)]: follow the path to the root, moving
    the item at [pos] up past every parent it is smaller than.  [pos] is
    halved at every turn, so [pos] turns of the loop are always enough: at
    fuel [0] the loop condition [pos > startpos] is false. *)
Fixpoint siftdown_loop (fuel startpos pos : nat) : M (list entry) unit :=
  λ heap,
  match fuel with
  | S fuel' =>
      if decide (startpos < pos)%nat then
        let parentpos := ((pos - 1) / 2)%nat in
        match heap !! pos, heap !! parentpos with
        | Some newitem, Some parent =>
            match entry_lt newitem parent with
            | Some true => siftdown_loop fuel' startpos parentpos (swap pos parentpos heap)
            | Some false => Returned () heap
            | None => Raised TypeError heap
            end
        | _, _ => Raised IndexError heap
        end
      else Returned () heap
  | O => Returned () heap
  end.

Definition _siftdown (startpos pos : nat) : M (list entry) unit :=
  λ heap, if decide (pos < length heap)%nat
          then siftdown_loop pos startpos pos heap
          else Raised IndexError heap.

(** [_siftup(heap, pos)]: bubble the smaller child up until a leaf is hit,
    then sift the item down from there.  [pos] grows at every turn and the
    loop stops at [endpos], so [endpos] turns are enough. *)
Fixpoint siftup_loop (fuel endpos pos : nat) : M (list entry) nat :=
  λ heap,
  match fuel with
  | S fuel' =>
      let childpos := (2 * pos + 1)%nat in
      if decide (childpos < endpos)%nat then
        let rightpos := (childpos + 1)%nat in
        let pick (childpos : nat) := siftup_loop fuel' endpos childpos (swap pos childpos heap) in
        if decide (rightpos < endpos)%nat then
          match heap !! childpos, heap !! rightpos with
          | Some l, Some r =>
              match entry_lt l r with
              | Some true => pick childpos
              | Some false => pick rightpos
              | None => Raised TypeError heap
              end
          | _, _ => Raised IndexError heap
          end
        else pick childpos
      else Returned pos heap
  | O => Returned pos heap
  end.

Definition _siftup (pos : nat) : M (list entry) unit :=
  heap ← get_state;
  leaf ← siftup_loop (length heap) (length heap) pos;
  _siftdown pos leaf.

Definition heappush (item : entry) : M (list entry) unit :=
  λ heap, _siftdown 0 (length heap) (heap ++ [item]).

Definition heappop : M (list entry) entry :=
  λ heap,
  match last heap with
  | None => Raised IndexError heap
  | Some lastelt =>
      let heap := removelast heap in
      match heap with
      | [] => Returned lastelt heap
      | returnitem :: _ =>
          (_siftup 0;; ret returnitem) (<[0%nat:=lastelt]> heap)
      end
  end.

(** [PriorityQueue.put] (the queue is unbounded) and [get_nowait]. *)
Definition put (item : entry) : M (list entry) unit := heappush item.

Definition get_nowait : M (list entry) entry :=
  λ queue, match queue with
           | [] => Raised Empty queue
           | _ => heappop queue
           end.

(** ** The shared intersection

    [lock], [state_changed] and the semaphore object carry no data of their
    own: the semaphore is its counter, and the lock shows in the model as the
    atomicity of the methods that take it.  Nothing ever waits on
    [state_changed], so [notify_all] has no effect.  [direction_priority] is
    a constant that no method reads.  A line of [event_log] is kept without
    its wall-clock prefix. *)

Record Intersection := mkIntersection {
  intersection_id : string;
  active_directions : list string;
  green_semaphore : nat;
  emergency_queue : list entry;
  next_obj : nat;
  traffic_density : gmap string Z;
  stats : TrafficStats;
  pedestrian_waiting : gmap string bool;
  event_log : list string;
}.

Definition set_active_directions (v : list string) (self : Intersection) : Intersection :=
  mkIntersection (intersection_id self) v (green_semaphore self) (emergency_queue self)
    (next_obj self) (traffic_density self) (stats self) (pedestrian_waiting self) (event_log self).
Definition set_green_semaphore (v : nat) (self : Intersection) : Intersection :=
  mkIntersection (intersection_id self) (active_directions self) v (emergency_queue self)
    (next_obj self) (traffic_density self) (stats self) (pedestrian_waiting self) (event_log self).
Definition set_emergency_queue (v : list entry) (self : Intersection) : Intersection :=
  mkIntersection (intersection_id self) (active_directions self) (green_semaphore self) v
    (next_obj self) (traffic_density self) (stats self) (pedestrian_waiting self) (event_log self).
Definition set_next_obj (v : nat) (self : Intersection) : Intersection :=
  mkIntersection (intersection_id self) (active_directions self) (green_semaphore self)
    (emergency_queue self) v (traffic_density self) (stats self) (pedestrian_waiting self)
    (event_log self).
Definition set_traffic_density (v : gmap string Z) (self : Intersection) : Intersection :=
  mkIntersection (intersection_id self) (active_directions self) (green_semaphore self)
    (emergency_queue self) (next_obj self) v (stats self) (pedestrian_waiting self)
    (event_log self).
Definition set_stats (v : TrafficStats) (self : Intersection) : Intersection :=
  mkIntersection (intersection_id self) (active_directions self) (green_semaphore self)
    (emergency_queue self) (next_obj self) (traffic_density self) v (pedestrian_waiting self)
    (event_log self).
Definition set_pedestrian_waiting_map (v : gmap string bool) (self : Intersection) : Intersection :=
  mkIntersection (intersection_id self) (active_directions self) (green_semaphore self)
    (emergency_queue self) (next_obj self) (traffic_density self) (stats self) v (event_log self).
Definition set_event_log (v : list string) (self : Intersection) : Intersection :=
  mkIntersection (intersection_id self) (active_directions self) (green_semaphore self)
    (emergency_queue self) (next_obj self) (traffic_density self) (stats self)
    (pedestrian_waiting self) v.

Definition add_total_cycles (n : Z) (st : TrafficStats) : TrafficStats :=
  mkTrafficStats (total_cycles st + n) (total_wait_time st) (emergency_responses st)
    (deadlock_preventions st) (average_green_time st) (vehicles_passed st).
Definition add_total_wait_time (w : F) (st : TrafficStats) : TrafficStats :=
  mkTrafficStats (total_cycles st) (fadd (total_wait_time st) w) (emergency_responses st)
    (deadlock_preventions st) (average_green_time st) (vehicles_passed st).
Definition add_emergency_responses (n : Z) (st : TrafficStats) : TrafficStats :=
  mkTrafficStats (total_cycles st) (total_wait_time st) (emergency_responses st + n)
    (deadlock_preventions st) (average_green_time st) (vehicles_passed st).
Definition add_deadlock_preventions (n : Z) (st : TrafficStats) : TrafficStats :=
  mkTrafficStats (total_cycles st) (total_wait_time st) (emergency_responses st)
    (deadlock_preventions st + n) (average_green_time st) (vehicles_passed st).
Definition add_vehicles_passed (n : Z) (st : TrafficStats) : TrafficStats :=
  mkTrafficStats (total_cycles st) (total_wait_time st) (emergency_responses st)
    (deadlock_preventions st) (average_green_time st) (vehicles_passed st + n).
Definition set_average_green_time (a : F) (st : TrafficStats) : TrafficStats :=
  mkTrafficStats (total_cycles st) (total_wait_time st) (emergency_responses st)
    (deadlock_preventions st) a (vehicles_passed st).

(** [TrafficStats()] *)
Definition TrafficStats_default : TrafficStats :=
  mkTrafficStats 0 (float_of_int 0) 0 0 (float_of_int 0) 0.

Definition four_directions : list string := ["NORTH"; "SOUTH"; "EAST"; "WEST"].

(** [Intersection.__init__] *)
Definition Intersection_init (intersection_id : string) : Intersection :=
  mkIntersection intersection_id [] 2 [] 0
    (list_to_map ((λ d, (d, 0)) <$> four_directions))
    TrafficStats_default
    (list_to_map ((λ d, (d, false)) <$> four_directions))
    [].

Definition on_queue {A} (m : M (list entry) A) : M Intersection A :=
  zoom emergency_queue set_emergency_queue m.

(** [log_event]: the log holds at most 100 lines; when it is full the oldest
    line makes room. *)
Definition log_event (event : string) : M Intersection unit :=
  modify (λ self,
    set_event_log
      (if decide (length (event_log self) < 100)%nat
       then event_log self ++ [event]
       else drop 1 (event_log self) ++ [event]) self).

Definition get_opposing_direction (direction : string) : string :=
  if decide (direction = "NORTH") then "SOUTH"
  else if decide (direction = "SOUTH") then "NORTH"
  else if decide (direction = "EAST") then "WEST"
  else if decide (direction = "WEST") then "EAST"
  else "".

Definition get_conflicting_directions (direction : string) : list string :=
  if decide (direction = "NORTH") then ["EAST"; "WEST"]
  else if decide (direction = "SOUTH") then ["EAST"; "WEST"]
  else if decide (direction = "EAST") then ["NORTH"; "SOUTH"]
  else if decide (direction = "WEST") then ["NORTH"; "SOUTH"]
  else [].

(** [has_emergency_vehicle]: take the head of the priority queue, put it
    back, and return it unless it is already handled. *)
Definition has_emergency_vehicle : M Intersection (option EmergencyVehicle) :=
  try_except
    (item ← on_queue get_nowait;
     on_queue (put (item.1, item.2));;
     mret (if handled item.2 then None else Some item.2))
    Empty
    (mret None).

(** [add_emergency_vehicle].  [t_created] is the clock reading taken by
    [EmergencyVehicle.__init__], [t_queued] the one negated into the
    priority. *)
Definition add_emergency_vehicle (direction : string) (t_created t_queued : F)
  : M Intersection unit :=
  self ← get_state;
  let vehicle_id := emergency_responses (stats self) + 1 in
  let emergency := mkEmergencyVehicle (next_obj self) direction vehicle_id t_created false in
  modify (set_next_obj (S (next_obj self)));;
  on_queue (put (fneg t_queued, emergency));;
  log_event ("🚨 EMERGENCY vehicle " +:+ pretty vehicle_id +:+ " approaching from " +:+ direction).

(** [emergency.handled = True], on the object [obj] wherever it is referred
    to. *)
Definition mark_handled (obj : nat) (self : Intersection) : Intersection :=
  set_emergency_queue
    ((λ item : entry,
        if decide (ev_obj item.2 = obj)
        then (item.1, mkEmergencyVehicle (ev_obj item.2) (ev_direction item.2)
                        (vehicle_id item.2) (timestamp item.2) true)
        else item) <$> emergency_queue self) self.

(** [can_proceed] *)
Definition can_proceed (direction : string) (check_emergency : bool) : M Intersection bool :=
  wait_for_emergency ←
    (if check_emergency then
       emergency ← has_emergency_vehicle;
       mret (match emergency with
             | Some emergency => bool_decide (ev_direction emergency ≠ direction)
             | None => false
             end)
     else mret false);
  if wait_for_emergency : bool then mret false
  else
    self ← get_state;
    let conflicts := get_conflicting_directions direction in
    if existsb (λ conflict, bool_decide (conflict ∈ active_directions self)) conflicts
    then modify (λ self, set_stats (add_deadlock_preventions 1 (stats self)) self);; mret false
    else
      let opposite := get_opposing_direction direction in
      if bool_decide (opposite ∈ active_directions self) then mret true
      else if bool_decide (length (active_directions self) = 0%nat) then mret true
      else if bool_decide (length (active_directions self) < 2)%nat then mret true
      else mret false.

(** [Semaphore.acquire]: [None] while the counter is zero (the caller
    blocks). *)
Definition acquire (self : Intersection) : option Intersection :=
  match green_semaphore self with
  | O => None
  | S n => Some (set_green_semaphore n self)
  end.

Definition release (self : Intersection) : Intersection :=
  set_green_semaphore (S (green_semaphore self)) self.

(** [enter_intersection], the part under [self.lock]. *)
Definition enter_locked (direction : string) (is_emergency : bool) : M Intersection unit :=
  modify (λ self, set_active_directions (active_directions self ++ [direction]) self);;
  let state := if is_emergency then "EMERGENCY" else "GREEN" in
  log_event ("✓ " +:+ direction +:+ " is now " +:+ state);;
  modify (λ self, set_stats (add_total_cycles 1 (stats self)) self);;
  if is_emergency
  then modify (λ self, set_stats (add_emergency_responses 1 (stats self)) self)
  else mret ().

(** [enter_intersection]: [None] while the semaphore blocks. *)
Definition enter_intersection (direction : string) (is_emergency : bool) (self : Intersection)
  : option (result Intersection unit) :=
  enter_locked direction is_emergency <$> acquire self.

(** [list.remove]: drop the first occurrence. *)
Fixpoint remove_first (x : string) (l : list string) : list string :=
  match l with
  | [] => []
  | y :: l' => if decide (y = x) then l' else y :: remove_first x l'
  end.

(** [exit_intersection], the part under [self.lock]. *)
Definition exit_locked (direction : string) : M Intersection unit :=
  self ← get_state;
  if bool_decide (direction ∈ active_directions self)
  then modify (set_active_directions (remove_first direction (active_directions self)));;
       log_event ("✗ " +:+ direction +:+ " is now RED")
  else mret ().

Definition exit_intersection (direction : string) : M Intersection unit :=
  exit_locked direction;; modify release.

(** [update_traffic_density] *)
Definition update_traffic_density (direction : string) (density : Z) : M Intersection unit :=
  modify (λ self,
    set_traffic_density (<[direction := Z.max 0 (Z.min 100 density)]> (traffic_density self)) self).

(** [get_adaptive_green_time] *)
Definition get_adaptive_green_time (direction : string) (base_time : F) : M Intersection F :=
  self ← get_state;
  match traffic_density self !! direction with
  | None => raise KeyError
  | Some density =>
      let multiplier := fadd (fdec 1 2) (fdiv (float_of_int density) (float_of_int 100)) in
      mret (fmul base_time multiplier)
  end.

(** [set_pedestrian_waiting] *)
Definition set_pedestrian_waiting (direction : string) (waiting : bool) : M Intersection unit :=
  modify (λ self,
    set_pedestrian_waiting_map (<[direction := waiting]> (pedestrian_waiting self)) self);;
  if waiting then log_event ("🚶 Pedestrian waiting at " +:+ direction) else mret ().

(** ** The signal thread

    [TrafficSignal.run] is cut into atomic steps at the points where other
    threads can observe or change the shared intersection: every call of a
    method that takes [self.lock], every semaphore operation, every sleep.
    A program point names the statement the thread executes next; the locals
    that are live there ([start_wait], [green_time], the emergency object)
    ride along.  [time.sleep d] suspends for at least [d]: the thread is
    [Sleeping] and can go on once the clock has reached [wake]. *)

Inductive pc :=
| Unstarted                       (* the thread object exists, [start()] not called yet *)
| Begin                           (* [time.sleep(random.uniform(0, 2))] *)
| Sleeping (wake : F) (next : pc)
| LoopTest                        (* [while self.running:] of [run] *)
| HandleEmergency                 (* [emergency = has_emergency_vehicle()] and the test *)
| EmergencyAcquire (obj : nat)    (* [enter_intersection(.., True)]: [green_semaphore.acquire()] *)
| EmergencyEnter (obj : nat)      (* the locked part, then [time.sleep(3.0)] *)
| EmergencyHandled (obj : nat)    (* [emergency.handled = True] *)
| EmergencyExit                   (* [exit_intersection]: the locked part *)
| EmergencyRelease                (* [green_semaphore.release()]; [continue] *)
| WaitStart                       (* [start_wait = time.time()] *)
| WaitTest (start_wait : F)       (* [while self.running:] of [wait_for_turn] *)
| WaitPoll (start_wait : F)       (* [if can_proceed(self.direction):] *)
| WaitTimeout (start_wait : F)    (* [if time.time() - start_wait > timeout:] *)
| GreenTime                       (* [green_time = get_adaptive_green_time(..)] *)
| GreenAcquire (green_time : F)   (* [enter_intersection(..)]: [green_semaphore.acquire()] *)
| GreenEnter (green_time : F)     (* the locked part *)
| GreenPassing (green_time : F)   (* [vehicles_passed += ..]; [time.sleep(green_time)] *)
| Yellow                          (* YELLOW phase; [time.sleep(self.yellow_time)] *)
| Red                             (* RED phase; [exit_intersection]: the locked part *)
| RedRelease                      (* [green_semaphore.release()]; [cycle_count += 1]; sleep *)
| Finished                        (* the loop ended on [self.running] being false *)
| Failed (at_pc : pc).            (* the [except] clause ended the loop *)

(** [intersection] is the index in the controller's list of the shared
    [Intersection] object this signal was built with. *)
Record TrafficSignal := mkTrafficSignal {
  direction : string;
  intersection : nat;
  state : SignalState;
  base_green_time : F;
  yellow_time : F;
  running : bool;
  cycle_count : Z;
  last_state_change : F;
  at_pc : pc;
}.

(** [TrafficSignal.__init__] *)
Definition TrafficSignal_init (direction : string) (intersection : nat)
    (base_green_time yellow_time now : F) : TrafficSignal :=
  mkTrafficSignal direction intersection RED base_green_time yellow_time true 0 now Unstarted.

Definition goto (p : pc) (self : TrafficSignal) : TrafficSignal :=
  mkTrafficSignal (direction self) (intersection self) (state self) (base_green_time self)
    (yellow_time self) (running self) (cycle_count self) (last_state_change self) p.
Definition set_state (st : SignalState) (now : F) (self : TrafficSignal) : TrafficSignal :=
  mkTrafficSignal (direction self) (intersection self) st (base_green_time self)
    (yellow_time self) (running self) (cycle_count self) now (at_pc self).
Definition set_running (b : bool) (self : TrafficSignal) : TrafficSignal :=
  mkTrafficSignal (direction self) (intersection self) (state self) (base_green_time self)
    (yellow_time self) b (cycle_count self) (last_state_change self) (at_pc self).
Definition incr_cycle_count (self : TrafficSignal) : TrafficSignal :=
  mkTrafficSignal (direction self) (intersection self) (state self) (base_green_time self)
    (yellow_time self) (running self) (cycle_count self + 1) (last_state_change self)
    (at_pc self).

(** [stop] *)
Definition stop (self : TrafficSignal) : TrafficSignal := set_running false self.

(** [time.sleep(secs)].  CPython turns the duration into a whole number of
    nanoseconds held in a signed 64-bit integer: NaN is rejected with
    [ValueError], a product [secs * 1e9] outside that range (an infinity
    among them) with [OverflowError], and a negative number of nanoseconds
    with [ValueError].  The product is rounded away from zero to a whole
    number before the last two tests, which changes the outcome of neither.
    The three sleeps of a literal duration ([3.0], [0.1], [2.0]) cannot
    raise and go to [asleep] directly. *)
Definition asleep (now secs : F) (next : pc) : pc := Sleeping (fadd now secs) next.

Definition sleep_error (secs : F) : option exn :=
  if negb (feq secs secs) then Some ValueError
  else
    let ns := fmul secs (float_of_int 1000000000) in
    if flt ns (float_of_int (- 2 ^ 63)) || negb (flt ns (float_of_int (2 ^ 63)))
    then Some OverflowError
    else if flt ns (float_of_int 0) then Some ValueError
    else None.

Definition sleep (now secs : F) (next : pc) : exn + pc :=
  match sleep_error secs with
  | Some e => inl e
  | None => inr (asleep now secs next)
  end.

Definition timeout : F := float_of_int 30.

(** The [except Exception] clause of [run]: log and leave the loop.  The
    text of the exception is left out of the log line. *)
Definition fail (e : exn) (self : TrafficSignal) (isec : Intersection)
  : TrafficSignal * Intersection :=
  match log_event ("❌ Error in " +:+ direction self) isec with
  | Returned _ isec' | Raised _ isec' => (goto (Failed (at_pc self)) self, isec')
  end.

(** One atomic step of the thread at clock reading [now].  [u] and [k] are
    the values drawn by [random.uniform(0, 2)] and [random.randint(3, 8)] at
    the two points that draw one.  [None]: the thread cannot move (it is
    blocked on the semaphore, still asleep, not started or terminated, or
    the draw is out of range). *)
Definition signal_step (now u : F) (k : Z) (self : TrafficSignal) (isec : Intersection)
  : option (TrafficSignal * Intersection) :=
  match at_pc self with
  | Unstarted | Finished | Failed _ => None
  | Begin =>
      if flt u (float_of_int 0) || flt (float_of_int 2) u then None
      else Some (goto (asleep now u LoopTest) self, isec)
  | Sleeping wake next =>
      if flt now wake then None else Some (goto next self, isec)
  | LoopTest =>
      Some (goto (if running self then HandleEmergency else Finished) self, isec)
  | HandleEmergency =>
      match has_emergency_vehicle isec with
      | Returned (Some emergency) isec' =>
          if bool_decide (ev_direction emergency = direction self) && negb (handled emergency)
          then Some (goto (EmergencyAcquire (ev_obj emergency)) (set_state EMERGENCY (last_state_change self) self), isec')
          else Some (goto WaitStart self, isec')
      | Returned None isec' => Some (goto WaitStart self, isec')
      | Raised e isec' => Some (fail e self isec')
      end
  | EmergencyAcquire obj =>
      isec' ← acquire isec; Some (goto (EmergencyEnter obj) self, isec')
  | EmergencyEnter obj =>
      match enter_locked (direction self) true isec with
      | Returned _ isec' =>
          Some (goto (asleep now (float_of_int 3) (EmergencyHandled obj)) self, isec')
      | Raised e isec' => Some (fail e self isec')
      end
  | EmergencyHandled obj => Some (goto EmergencyExit self, mark_handled obj isec)
  | EmergencyExit =>
      match exit_locked (direction self) isec with
      | Returned _ isec' => Some (goto EmergencyRelease self, isec')
      | Raised e isec' => Some (fail e self isec')
      end
  | EmergencyRelease => Some (goto LoopTest self, release isec)
  | WaitStart => Some (goto (WaitTest now) self, isec)
  | WaitTest start_wait =>
      Some (goto (if running self then WaitPoll start_wait else Finished) self, isec)
  | WaitPoll start_wait =>
      match can_proceed (direction self) true isec with
      | Returned true isec' =>
          let wait_time := fsub now start_wait in
          Some (goto GreenTime self, set_stats (add_total_wait_time wait_time (stats isec')) isec')
      | Returned false isec' => Some (goto (WaitTimeout start_wait) self, isec')
      | Raised e isec' => Some (fail e self isec')
      end
  | WaitTimeout start_wait =>
      if fgt (fsub now start_wait) timeout then
        match log_event ("⚠ " +:+ direction self +:+ " timeout - forcing access") isec with
        | Returned _ isec' | Raised _ isec' => Some (goto GreenTime self, isec')
        end
      else Some (goto (asleep now (fdec 1 10) (WaitTest start_wait)) self, isec)
  | GreenTime =>
      match get_adaptive_green_time (direction self) (base_green_time self) isec with
      | Returned green_time isec' =>
          Some (goto (GreenAcquire green_time) (set_state GREEN now self), isec')
      | Raised e isec' => Some (fail e self isec')
      end
  | GreenAcquire green_time =>
      isec' ← acquire isec; Some (goto (GreenEnter green_time) self, isec')
  | GreenEnter green_time =>
      match enter_locked (direction self) false isec with
      | Returned _ isec' => Some (goto (GreenPassing green_time) self, isec')
      | Raised e isec' => Some (fail e self isec')
      end
  | GreenPassing green_time =>
      if bool_decide (3 ≤ k ≤ 8) then
        let isec' := set_stats (add_vehicles_passed k (stats isec)) isec in
        match sleep now green_time Yellow with
        | inr p => Some (goto p self, isec')
        | inl e => Some (fail e self isec')
        end
      else None
  | Yellow =>
      let self' := set_state YELLOW now self in
      match log_event ("⚠ " +:+ direction self +:+ " is now YELLOW") isec with
      | Returned _ isec' | Raised _ isec' =>
          match sleep now (yellow_time self) Red with
          | inr p => Some (goto p self', isec')
          | inl e => Some (fail e self' isec')
          end
      end
  | Red =>
      let self' := set_state RED now self in
      match exit_locked (direction self) isec with
      | Returned _ isec' => Some (goto RedRelease self', isec')
      | Raised e isec' => Some (fail e self' isec')
      end
  | RedRelease =>
      Some (goto (asleep now (float_of_int 2) LoopTest) (incr_cycle_count self), release isec)
  end.

(** A thread holds a capacity token from [acquire] to [release], and its
    direction is in [active_directions] from the append to the removal.  A
    thread that the [except] clause stopped keeps whatever it had. *)
Fixpoint holding (p : pc) : bool :=
  match p with
  | Sleeping _ next => holding next
  | Failed p => holding p
  | EmergencyEnter _ | EmergencyHandled _ | EmergencyExit | EmergencyRelease
  | GreenEnter _ | GreenPassing _ | Yellow | Red | RedRelease => true
  | _ => false
  end.

Fixpoint listed (p : pc) : bool :=
  match p with
  | Sleeping _ next => listed next
  | Failed p => listed p
  | EmergencyHandled _ | EmergencyExit | GreenPassing _ | Yellow | Red => true
  | _ => false
  end.

Definition unstarted (p : pc) : bool :=
  match p with
  | Unstarted => true
  | _ => false
  end.

Definition terminated (p : pc) : bool :=
  match p with
  | Finished | Failed _ => true
  | _ => false
  end.

(** ** The controller *)

Record TrafficController := mkTrafficController {
  intersections : list Intersection;
  signals : list TrafficSignal;
  controller_running : bool;
}.

Definition set_intersections (v : list Intersection) (self : TrafficController) : TrafficController :=
  mkTrafficController v (signals self) (controller_running self).
Definition set_signals (v : list TrafficSignal) (self : TrafficController) : TrafficController :=
  mkTrafficController (intersections self) v (controller_running self).

(** [TrafficController.__init__]; [now] is the clock reading the signals
    record as [last_state_change]. *)
Definition TrafficController_init (num_intersections : nat) (now : F) : TrafficController :=
  mkTrafficController
    ((λ i : nat, Intersection_init ("Intersection-" +:+ pretty (i + 1)%nat)) <$> seq 0 num_intersections)
    (i ← seq 0 num_intersections;
     (λ direction, TrafficSignal_init direction i (float_of_int 5) (float_of_int 2) now)
       <$> four_directions)
    false.

Definition log_all (event : string) (l : list Intersection) : list Intersection :=
  (λ isec, match log_event event isec with Returned _ isec' | Raised _ isec' => isec' end) <$> l.

(** [start].  [Thread.start] on a thread that was started before raises
    [RuntimeError]; that second life of a stopped controller is left out:
    [None]. *)
Definition start (self : TrafficController) : option TrafficController :=
  if controller_running self then Some self
  else if forallb (λ signal, unstarted (at_pc signal)) (signals self)
  then Some (mkTrafficController
               (log_all "🚦 Traffic Control System STARTED" (intersections self))
               (goto Begin <$> signals self)
               true)
  else None.

(** [stop]; the bounded [join] that ends it changes nothing. *)
Definition TrafficController_stop (self : TrafficController) : TrafficController :=
  if negb (controller_running self) then self
  else mkTrafficController
         (log_all "🛑 Traffic Control System STOPPING" (intersections self))
         (stop <$> signals self)
         false.

(** The dictionary [get_system_stats] returns, one field per key. *)
Record SystemStats := mkSystemStats {
  report_total_cycles : Z;
  report_average_wait_time : string;
  report_emergency_responses : Z;
  report_deadlock_preventions : Z;
  report_vehicles_passed : Z;
}.

(** The body of the [for] loop of [get_system_stats]. *)
Definition accumulate (total_stats : TrafficStats) (isec : Intersection) : TrafficStats :=
  let stats := stats isec in
  mkTrafficStats
    (total_cycles total_stats + total_cycles stats)
    (fadd (total_wait_time total_stats) (total_wait_time stats))
    (emergency_responses total_stats + emergency_responses stats)
    (deadlock_preventions total_stats + deadlock_preventions stats)
    (average_green_time total_stats)
    (vehicles_passed total_stats + vehicles_passed stats).

(** [get_system_stats]; [format_2f x] stands for the string [f"{x:.2f}s"]. *)
Definition get_system_stats (format_2f : F → string) (self : TrafficController) : SystemStats :=
  let total_stats := foldl accumulate TrafficStats_default (intersections self) in
  let total_stats :=
    if bool_decide (0 < total_cycles total_stats)
    then set_average_green_time
           (fdiv (total_wait_time total_stats) (float_of_int (total_cycles total_stats)))
           total_stats
    else total_stats in
  mkSystemStats (total_cycles total_stats) (format_2f (average_green_time total_stats))
    (emergency_responses total_stats) (deadlock_preventions total_stats)
    (vehicles_passed total_stats).

(** [self.intersections[i].m(..)] *)
Definition on_intersection {A} (i : nat) (m : M Intersection A) : M TrafficController A :=
  λ self,
  match intersections self !! i with
  | None => Raised IndexError self
  | Some isec =>
      match m isec with
      | Returned a isec' => Returned a (set_intersections (<[i:=isec']> (intersections self)) self)
      | Raised e isec' => Raised e (set_intersections (<[i:=isec']> (intersections self)) self)
      end
  end.

(** [trigger_emergency] *)
Definition trigger_emergency (intersection_idx : Z) (direction : string) (t_created t_queued : F)
  : M TrafficController unit :=
  λ self,
  if bool_decide (0 ≤ intersection_idx < Z.of_nat (length (intersections self)))
  then on_intersection (Z.to_nat intersection_idx)
         (add_emergency_vehicle direction t_created t_queued) self
  else Returned () self.

(** [TrafficController.update_traffic_density] *)
Definition TrafficController_update_traffic_density
    (intersection_idx : Z) (direction : string) (density : Z) : M TrafficController unit :=
  λ self,
  if bool_decide (0 ≤ intersection_idx < Z.of_nat (length (intersections self)))
  then on_intersection (Z.to_nat intersection_idx) (update_traffic_density direction density) self
  else Returned () self.

(** ** The running system

    The clock, the controller, and what can happen next: the clock advances,
    one signal thread takes a step, or the environment calls one of the
    controller's public methods.  Steps interleave freely; a sleeping thread
    may stay asleep longer than it asked for, never shorter.

    Granularity.  What runs under [self.lock] is one step, and so is each
    semaphore operation.  Two things that Python does not make atomic are
    taken as one step as well: the [get_nowait]/[put] pair of
    [has_emergency_vehicle], and the [+=] on a statistics counter outside the
    lock.  Neither touches [active_directions] or the semaphore, and every
    run of this coarser system is a run of the program. *)

Record World := mkWorld {
  clock : F;
  controller : TrafficController;
}.

Inductive action :=
| Tick (t : F)
| Run (i : nat) (u : F) (k : Z)
| Start
| Stop
| TriggerEmergency (intersection_idx : Z) (direction : string)
| UpdateDensity (intersection_idx : Z) (direction : string) (density : Z).

Definition outcome {S A} (r : result S A) : S :=
  match r with Returned _ s | Raised _ s => s end.

Definition exec (a : action) (w : World) : option World :=
  let ctl := controller w in
  match a with
  | Tick t => if flt t (clock w) then None else Some (mkWorld t ctl)
  | Run i u k =>
      signal ← signals ctl !! i;
      isec ← intersections ctl !! intersection signal;
      '(signal', isec') ← signal_step (clock w) u k signal isec;
      Some (mkWorld (clock w)
              (mkTrafficController
                 (<[intersection signal := isec']> (intersections ctl))
                 (<[i := signal']> (signals ctl))
                 (controller_running ctl)))
  | Start => mkWorld (clock w) <$> start ctl
  | Stop => Some (mkWorld (clock w) (TrafficController_stop ctl))
  | TriggerEmergency idx direction =>
      Some (mkWorld (clock w) (outcome (trigger_emergency idx direction (clock w) (clock w) ctl)))
  | UpdateDensity idx direction density =>
      Some (mkWorld (clock w)
              (outcome (TrafficController_update_traffic_density idx direction density ctl)))
  end.

Fixpoint run_trace (trace : list action) (w : World) : option World :=
  match trace with
  | [] => Some w
  | a :: trace' => w' ← exec a w; run_trace trace' w'
  end.

(** A system starts from freshly constructed objects: intersections from
    [Intersection.__init__], signal threads from [TrafficSignal.__init__]
    with whatever timing parameters, none of them started. *)
Definition initial (w : World) : Prop :=
  Forall (λ isec, ∃ id, isec = Intersection_init id) (intersections (controller w)) ∧
  Forall (λ signal, ∃ d i g y t, signal = TrafficSignal_init d i g y t) (signals (controller w)).

Inductive reachable : World → Prop :=
| reachable_initial w : initial w → reachable w
| reachable_step w a w' : reachable w → exec a w = Some w' → reachable w'.

(** ** A schedule in which nobody is late

    Every thread moves as soon as it can, in the order of [order] when
    several can; when none can, the clock advances to the next wake-up.
    [order] pairs each thread with the initial sleep it draws.  The schedule
    ends at the first world that satisfies [stop]. *)

Fixpoint first_step (order : list (nat * F)) (w : World) : option action :=
  match order with
  | [] => None
  | (i, u) :: order' =>
      match exec (Run i u 5) w with
      | Some _ => Some (Run i u 5)
      | None => first_step order' w
      end
  end.

Definition wake_time (signal : TrafficSignal) : option F :=
  match at_pc signal with
  | Sleeping wake _ => Some wake
  | _ => None
  end.

Definition earliest (a : option F) (b : F) : option F :=
  match a with
  | Some a => Some (if flt b a then b else a)
  | None => Some b
  end.

Definition next_wake (w : World) : option F :=
  foldl earliest None (omap wake_time (signals (controller w))).

Fixpoint schedule (fuel : nat) (order : list (nat * F)) (stop : World → bool) (w : World)
  : list action :=
  match fuel with
  | O => []
  | S fuel' =>
      if stop w then []
      else
        match first_step order w with
        | Some a =>
            match exec a w with
            | Some w' => a :: schedule fuel' order stop w'
            | None => []
            end
        | None =>
            match next_wake w with
            | Some t =>
                match exec (Tick t) w with
                | Some w' => Tick t :: schedule fuel' order stop w'
                | None => []
                end
            | None => []
            end
        end
  end.

(** ** Vocabulary of the properties *)

(** Two directions conflict when one is in the other's conflict table. *)
Definition conflicting (d1 d2 : string) : Prop :=
  d2 ∈ get_conflicting_directions d1 ∨ d1 ∈ get_conflicting_directions d2.

Definition conflict_free (active : list string) : Prop :=
  ∀ d1 d2, d1 ∈ active → d2 ∈ active → ¬ conflicting d1 d2.

(** The request a thread would have to service: in the queue and not yet
    handled. *)
Definition pending (isec : Intersection) (emergency : EmergencyVehicle) : Prop :=
  emergency ∈ (emergency_queue isec).*2 ∧ handled emergency = false.

(** Entries of equal priority are the same object: no two requests were
    queued at the same clock reading. *)
Definition distinct_priorities (queue : list entry) : Prop :=
  ∀ a b, a ∈ queue → b ∈ queue → feq a.1 b.1 = true → ev_obj a.2 = ev_obj b.2.

(** Every comparison between two entries of [U] has an answer. *)
Definition comparable (U : list entry) : Prop :=
  ∀ a b, a ∈ U → b ∈ U → is_Some (entry_lt a b).

(** What a method leaves alone: the two fields that say who occupies the
    intersection. *)
Definition same_occupancy (s s' : Intersection) : Prop :=
  active_directions s' = active_directions s ∧ green_semaphore s' = green_semaphore s.

Definition frames {A} (m : M Intersection A) : Prop :=
  ∀ s, same_occupancy s (outcome (m s)).

(** The share of one thread in the occupancy of its intersection. *)
Definition token (p : pc) : nat := if holding p then 1%nat else 0%nat.

Definition listing (signal : TrafficSignal) : list string :=
  if listed (at_pc signal) then [direction signal] else [].

(** Capacity tokens held by the threads of intersection [k], and the
    directions those threads have appended and not yet removed. *)
Definition holders (k : nat) (sigs : list TrafficSignal) : nat :=
  length (filter (λ s, intersection s = k ∧ holding (at_pc s)) sigs).

Definition listed_directions (k : nat) (sigs : list TrafficSignal) : list string :=
  direction <$> filter (λ s, intersection s = k ∧ listed (at_pc s)) sigs.

(** The bookkeeping that ties the shared state to the threads' program
    points: the semaphore counts the tokens not handed out, and
    [active_directions] holds exactly the directions of the threads between
    their append and their removal. *)
Definition occupancy_invariant (w : World) : Prop :=
  ∀ k isec, intersections (controller w) !! k = Some isec →
    (green_semaphore isec + holders k (signals (controller w)) = 2)%nat ∧
    active_directions isec ≡ₚ listed_directions k (signals (controller w)).

(** Environment calls leave every intersection's occupancy and every
    thread's program point as they are. *)
Definition occupancy_preserved (ctl ctl' : TrafficController) : Prop :=
  (∀ k isec', intersections ctl' !! k = Some isec' →
     ∃ isec, intersections ctl !! k = Some isec ∧ same_occupancy isec isec') ∧
  (∀ k, holders k (signals ctl') = holders k (signals ctl) ∧
        listed_directions k (signals ctl') = listed_directions k (signals ctl)).

End Model.

Arguments TrafficStats : clear implicits.
Arguments EmergencyVehicle : clear implicits.
Arguments entry : clear implicits.
Arguments Intersection : clear implicits.
Arguments pc : clear implicits.
Arguments TrafficSignal : clear implicits.
Arguments TrafficController : clear implicits.
Arguments World : clear implicits.
Arguments action : clear implicits.

(** ** More of the program, and the vocabulary of its properties *)

Section Vocabulary.
Context {F : Type} `{PyFloat F}.

(** The object [add_emergency_vehicle] creates and the tuple it queues. *)
Definition new_request (self : Intersection F) (direction : string) (t_created t_queued : F)
  : entry F :=
  (fneg t_queued,
   mkEmergencyVehicle (next_obj self) direction (emergency_responses (stats self) + 1)
     t_created false).

(** What [mark_handled obj] does to one queue entry. *)
Definition mark_item (obj : nat) (item : entry F) : entry F :=
  if decide (ev_obj item.2 = obj)
  then (item.1, mkEmergencyVehicle (ev_obj item.2) (ev_direction item.2)
                  (vehicle_id item.2) (timestamp item.2) true)
  else item.

(** The head of the queue compares below every other entry, the way the
    latest request does when no two were queued at the same clock reading. *)
Definition leads (queue : list (entry F)) : Prop :=
  match queue with
  | [] => True
  | head :: rest => ∀ item, item ∈ rest → entry_lt head item = Some true
  end.

(** A thread on its own: one step at each of the clock readings. *)
Fixpoint run_alone (clocks : list F) (u : F) (k : Z)
    (signal : TrafficSignal F) (isec : Intersection F)
  : option (TrafficSignal F * Intersection F) :=
  match clocks with
  | [] => Some (signal, isec)
  | now :: clocks' =>
      '(signal', isec') ← signal_step now u k signal isec;
      run_alone clocks' u k signal' isec'
  end.

(** The dictionary [get_state_info] returns, one field per key. *)
Record StateInfo := mkStateInfo {
  info_direction : string;
  info_state : string;
  info_cycle_count : Z;
  info_time_in_state : F;
}.

(** [get_state_info]; [now] is the clock reading it takes. *)
Definition get_state_info (now : F) (self : TrafficSignal F) : StateInfo :=
  mkStateInfo (direction self) (SignalState_value (state self)) (cycle_count self)
    (fsub now (last_state_change self)).

(** [Thread.start]: a thread object can be started once; [None] stands for
    the [RuntimeError] that a second call raises. *)
Definition Thread_start (signal : TrafficSignal F) : option (TrafficSignal F) :=
  if unstarted (at_pc signal) then Some (goto Begin signal) else None.

(** The loop [for signal in self.signals: signal.start()]: the signals as
    the loop leaves them, and whether it ran to its end. *)
Fixpoint start_each (sigs : list (TrafficSignal F)) : list (TrafficSignal F) * bool :=
  match sigs with
  | [] => ([], true)
  | signal :: rest =>
      match Thread_start signal with
      | Some signal' => let '(rest', ok) := start_each rest in (signal' :: rest', ok)
      | None => (signal :: rest, false)
      end
  end.

(** [TrafficController.start] with the case that [start] above leaves out:
    [inl] when [signal.start()] raised [RuntimeError]; [self.running] is set
    by then and the log line is not written. *)
Definition start_or_raise (self : TrafficController F)
  : TrafficController F + TrafficController F :=
  if controller_running self then inr self
  else
    let '(sigs, ok) := start_each (signals self) in
    if ok : bool
    then inr (mkTrafficController
                (log_all "🚦 Traffic Control System STARTED" (intersections self)) sigs true)
    else inl (mkTrafficController (intersections self) sigs true).

(** [m] neither reads nor writes the pedestrian flags. *)
Definition ignores_pedestrians {A} (m : M (Intersection F) A) : Prop :=
  ∀ flags self,
    m (set_pedestrian_waiting_map flags self)
    = result_map (set_pedestrian_waiting_map flags) (m self).

(** Every change the program makes to an intersection is one of these. *)
Inductive updates : relation (Intersection F) :=
| updates_queue s queue : updates s (set_emergency_queue queue s)
| updates_next_obj s n : updates s (set_next_obj n s)
| updates_log s event : updates s (outcome (log_event event s))
| updates_semaphore s n : updates s (set_green_semaphore n s)
| updates_active s active : updates s (set_active_directions active s)
| updates_denied s : updates s (set_stats (add_deadlock_preventions 1 (stats s)) s)
| updates_cycle s : updates s (set_stats (add_total_cycles 1 (stats s)) s)
| updates_emergency s :
    updates s (set_stats (add_emergency_responses 1 (add_total_cycles 1 (stats s))) s)
| updates_wait s wait_time : updates s (set_stats (add_total_wait_time wait_time (stats s)) s)
| updates_passed s k : 3 ≤ k ≤ 8 → updates s (set_stats (add_vehicles_passed k (stats s)) s)
| updates_density s direction density :
    updates s (outcome (update_traffic_density direction density s)).

Definition same_stats (s s' : Intersection F) : Prop := stats s' = stats s.

(** No counter of [st'] is below its value in [st]. *)
Definition counters_le (st st' : TrafficStats F) : Prop :=
  total_cycles st ≤ total_cycles st' ∧
  emergency_responses st ≤ emergency_responses st' ∧
  deadlock_preventions st ≤ deadlock_preventions st' ∧
  vehicles_passed st ≤ vehicles_passed st'.

Definition grows (s s' : Intersection F) : Prop := counters_le (stats s) (stats s').

(** A signal is [in_cycle] from the count of its ordinary admission
    ([total_cycles += 1] in [enter_intersection]) to the count of its cycle
    ([cycle_count += 1]), and its vehicles are [counted] from
    [vehicles_passed += ..] on. *)
Fixpoint in_cycle (p : pc F) : bool :=
  match p with
  | Sleeping _ next => in_cycle next
  | Failed p => in_cycle p
  | GreenPassing _ | Yellow | Red | RedRelease => true
  | _ => false
  end.

Fixpoint counted (p : pc F) : bool :=
  match p with
  | Sleeping _ next => counted next
  | Failed (GreenPassing _) => true
  | Failed p => counted p
  | Yellow | Red | RedRelease => true
  | _ => false
  end.

(** The sum of [weight] over the signals of intersection [k]. *)
Definition signals_total (weight : TrafficSignal F → Z) (k : nat)
    (sigs : list (TrafficSignal F)) : Z :=
  foldr Z.add 0 (weight <$> filter (λ s, intersection s = k) sigs).

Definition completed_cycles : nat → list (TrafficSignal F) → Z := signals_total cycle_count.

Definition cycles_in_progress : nat → list (TrafficSignal F) → Z :=
  signals_total (λ s, if in_cycle (at_pc s) then 1 else 0).

Definition cycles_counted : nat → list (TrafficSignal F) → Z :=
  signals_total (λ s, if counted (at_pc s) then 1 else 0).

(** The bookkeeping that ties the counters of an intersection to the
    threads' program points and cycle counts. *)
Definition statistics_invariant (w : World F) : Prop :=
  ∀ k isec, intersections (controller w) !! k = Some isec →
    let sigs := signals (controller w) in
    total_cycles (stats isec)
      = emergency_responses (stats isec) + completed_cycles k sigs + cycles_in_progress k sigs ∧
    vehicles_passed (stats isec) ≤ 8 * (completed_cycles k sigs + cycles_counted k sigs) ∧
    0 ≤ emergency_responses (stats isec) ∧
    0 ≤ deadlock_preventions (stats isec) ∧
    0 ≤ vehicles_passed (stats isec) ∧
    Forall (λ s, 0 ≤ cycle_count s) sigs.

(** [time.sleep] accepts the two durations a signal computes: its yellow
    time, and its adaptive green time at every density in [0, 100]. *)
Definition well_timed (signal : TrafficSignal F) : Prop :=
  sleep_error (yellow_time signal) = None ∧
  ∀ density, 0 ≤ density ≤ 100 →
    sleep_error (fmul (base_green_time signal)
                   (fadd (fdec 1 2) (fdiv (float_of_int density) (float_of_int 100))))
    = None.

(** The green time a thread carries is one [time.sleep] accepts, and a
    thread that the [except] clause stopped was holding nothing. *)
Fixpoint sound_pc (p : pc F) : bool :=
  match p with
  | Sleeping _ next => sound_pc next
  | GreenAcquire green_time | GreenEnter green_time | GreenPassing green_time =>
      bool_decide (sleep_error green_time = None)
  | Failed p => negb (holding p)
  | _ => true
  end.

Definition sound_signal (signal : TrafficSignal F) : Prop :=
  well_timed signal ∧ sound_pc (at_pc signal).

(** The thread is at [green_semaphore.acquire()]. *)
Definition acquiring (p : pc F) : bool :=
  match p with
  | EmergencyAcquire _ | GreenAcquire _ => true
  | _ => false
  end.

Definition sleeping (p : pc F) : bool :=
  match p with
  | Sleeping _ _ => true
  | _ => false
  end.

(** Where a thread can be while its [state] is YELLOW: in the sleep of the
    yellow phase, at the statement after it, or stopped by the [except]
    clause in that sleep. *)
Definition yellow_pc (p : pc F) : bool :=
  match p with
  | Sleeping _ Red | Red | Failed Yellow => true
  | _ => false
  end.

Definition yellow_ok (signal : TrafficSignal F) : bool :=
  match state signal with
  | YELLOW => yellow_pc (at_pc signal)
  | _ => true
  end.

(** [start()] was called on the thread. *)
Fixpoint started (p : pc F) : bool :=
  match p with
  | Unstarted => false
  | Sleeping _ next => started next
  | _ => true
  end.

(** After the first [start()] every thread has been started, and while the
    controller is not running every signal has its [running] flag down. *)
Definition lifecycle (w : World F) : Prop :=
  Forall (λ signal, started (at_pc signal)) (signals (controller w)) ∧
  (controller_running (controller w) = false →
   Forall (λ signal, running signal = false) (signals (controller w))).

End Vocabulary.

Arguments StateInfo : clear implicits.

(** ** Concrete systems used below *)

(** A controller with one intersection, as the dashboard builds it, at clock
    reading [0]. *)
Definition one_intersection : World float :=
  mkWorld 0%float (TrafficController_init 1 0%float).

(** Positions in [signals] of the four threads of intersection [0]. *)
Definition NORTH : nat := 0.
Definition SOUTH : nat := 1.
Definition EAST : nat := 2.
Definition WEST : nat := 3.

(** [n] consecutive steps of signal [i]. *)
Definition runs (i n : nat) : list (action float) := replicate n (Run i 0%float 5).

(** Starvation timeout.  EAST is admitted at clock [0]; NORTH starts to
    wait at [0] and is refused; the clock reaches [31] with EAST still in its
    hold ([time.sleep] bounds a hold from below only); NORTH is refused
    once more, finds its timeout expired and goes on to
    [enter_intersection]. *)
Definition starved_trace : list (action float) :=
  [Start] ++ runs EAST 11 ++ runs NORTH 8 ++ [Tick 31%float] ++ runs NORTH 7.

(** Emergency admission, every thread on time.  NORTH draws an initial sleep
    of [0] and is admitted at clock [0], to hold GREEN until [2.5]; the
    other three draw [2].  An emergency is dispatched for EAST at clock [1].
    At clock [2] the EAST thread wakes up, finds the request at the top of
    its loop and enters. *)
Definition emergency_trace : list (action float) :=
  [Start] ++ runs NORTH 11
  ++ [Run EAST 2%float 5; Run SOUTH 2%float 5; Run WEST 2%float 5]
  ++ [Tick 1%float; TriggerEmergency 0 "EAST"; Tick 2%float] ++ runs EAST 5.

(** One intersection and one signal built with
    [TrafficSignal("NORTH", intersection, yellow_time=-1.0)]. *)
Definition negative_yellow : World float :=
  mkWorld 0%float
    (mkTrafficController
       [Intersection_init "Intersection-1"]
       [TrafficSignal_init "NORTH" 0 5%float (-1)%float 0%float]
       false).

(** The signal is admitted, holds GREEN until clock [2.5], turns YELLOW and
    calls [time.sleep(-1.0)]. *)
Definition failing_trace : list (action float) :=
  [Start] ++ runs 0 11 ++ [Tick 2.5%float] ++ runs 0 2.

(** EAST holds the intersection, the emergency queue is empty. *)
Definition east_active : Intersection float :=
  outcome (enter_locked "EAST" false (Intersection_init "Intersection-1")).

(** A request for EAST queued at clock [100], then one for WEST at [200]. *)
Definition two_requests : Intersection float :=
  outcome (add_emergency_vehicle "WEST" 200%float 200%float
    (outcome (add_emergency_vehicle "EAST" 100%float 100%float
       (Intersection_init "Intersection-1")))).

(** EAST is admitted at clock [0] and nothing else has happened. *)
Definition east_green_trace : list (action float) := [Start] ++ runs EAST 11.

(** A single emergency for EAST is pending.  NORTH starts to wait, is
    refused, and at clock [31] finds its timeout expired. *)
Definition forced_past_emergency_trace : list (action float) :=
  [Start; TriggerEmergency 0 "EAST"] ++ runs NORTH 8 ++ [Tick 31%float] ++ runs NORTH 7.

(** Both properties of a list of directions are decidable, so that they can
    be evaluated on concrete states. *)
#[global] Instance conflicting_dec (d1 d2 : string) : Decision (conflicting d1 d2).
Proof. unfold conflicting. apply _. Defined.

#[global] Instance conflict_free_dec (active : list string) : Decision (conflict_free active).
Proof.
  refine (cast_if (decide (Forall (λ d1, Forall (λ d2, ¬ conflicting d1 d2) active) active)));
    unfold conflict_free.
  - intros d1 d2 H1 H2. rewrite Forall_forall in f. specialize (f d1 H1).
    rewrite Forall_forall in f. by apply f.
  - intros Hall. apply n. apply Forall_forall. intros d1 H1.
    apply Forall_forall. intros d2 H2. by apply Hall.
Defined.

Definition has_conflict (w : World float) : bool :=
  existsb (λ isec : Intersection float,
             negb (bool_decide (conflict_free (active_directions isec))))
          (intersections (controller w)).

(** Starvation timeout, every thread on time.  EAST, NORTH and SOUTH draw an
    initial sleep of [0] and WEST one of [2]; EAST moves first when several
    threads can move.  EAST and WEST then hold the intersection in turns that
    overlap, NORTH and SOUTH are refused at every poll, and after 30 seconds
    their timeouts expire.  The schedule runs until a conflicting pair is
    active. *)
Definition on_time_trace : list (action float) :=
  Start ::
  schedule 3000
    [(EAST, 0%float); (WEST, 2%float); (NORTH, 0%float); (SOUTH, 0%float)]
    has_conflict
    (default one_intersection (exec Start one_intersection)).

Definition north_active (w : World float) : bool :=
  existsb (λ isec : Intersection float, bool_decide ("NORTH" ∈ active_directions isec))
          (intersections (controller w)).

(** Two emergencies, every thread on time.  All four threads draw an initial
    sleep of [2]; an emergency is dispatched for EAST at clock [1] and one
    for WEST at clock [1.5]. *)
Definition two_emergencies : list (action float) :=
  [Start; Run NORTH 2%float 5; Run SOUTH 2%float 5; Run EAST 2%float 5; Run WEST 2%float 5;
   Tick 1%float; TriggerEmergency 0 "EAST"; Tick 1.5%float; TriggerEmergency 0 "WEST"].

(** From there every thread moves as soon as it can, until NORTH is
    active. *)
Definition shadowed_emergency_trace : list (action float) :=
  two_emergencies ++
  schedule 2000
    [(NORTH, 2%float); (WEST, 2%float); (EAST, 2%float); (SOUTH, 2%float)]
    north_active
    (default one_intersection (run_trace two_emergencies one_intersection)).

(** The adaptive green time of the controller's signals ([base_green_time]
    is always [5.0]) at stored density [d], in binary64. *)
Definition green64 (d : Z) : float :=
  fmul (float_of_int 5) (fadd (fdec 1 2) (fdiv (float_of_int d) (float_of_int 100))).

(** A single request, for EAST, queued at clock [100]. *)
Definition one_request : Intersection float :=
  outcome (add_emergency_vehicle "EAST" 100%float 100%float
    (Intersection_init "Intersection-1")).

(** Two emergencies dispatched at the same clock reading, then the NORTH
    thread up to its first look at the queue. *)
Definition same_instant_trace : list (action float) :=
  [Start; TriggerEmergency 0 "EAST"; TriggerEmergency 0 "WEST"] ++ runs NORTH 4.

(** EAST and WEST hold the intersection; NORTH, refused until its timeout
    has expired, goes on to [enter_intersection] and finds the semaphore at
    zero. *)
Definition blocked_trace : list (action float) :=
  [Start] ++ runs EAST 11 ++ runs WEST 11 ++ runs NORTH 8 ++ [Tick 31%float] ++ runs NORTH 5.

(** EAST is admitted at clock [0], holds GREEN until [2.5] and turns
    YELLOW. *)
Definition yellow_trace : list (action float) :=
  [Start] ++ runs EAST 11 ++ [Tick 2.5%float] ++ runs EAST 2.

(** An unhandled request for NORTH at the head of the queue, and the NORTH
    signal at the top of its loop. *)
Definition north_request : Intersection float :=
  outcome (add_emergency_vehicle "NORTH" 100%float 100%float
    (Intersection_init "Intersection-1")).

Definition north_signal : TrafficSignal float :=
  goto HandleEmergency (TrafficSignal_init "NORTH" 0 5%float 2%float 0%float).

(** Check, then act.  At clock [0], with no emergency: NORTH is let through
    by [can_proceed] and has not yet called [enter_intersection]; EAST is
    let through as well and enters; NORTH enters. *)
Definition race_trace : list (action float) :=
  [Start] ++ runs NORTH 7 ++ runs EAST 11 ++ runs NORTH 4.

(** The WEST signal about to ask [can_proceed]. *)
Definition west_waiting : TrafficSignal float :=
  goto (WaitPoll 0%float) (TrafficSignal_init "WEST" 0 5%float 2%float 0%float).

(** An intersection whose density for EAST is [d]. *)
Definition at_density (d : Z) : Intersection float :=
  outcome (update_traffic_density "EAST" d (Intersection_init "Intersection-1")).

(** ** Rounding in binary64

    The multiplier [0.5 + density / 100.0] of [get_adaptive_green_time] in
    binary64, and the vocabulary of the proof that multiplying by it is
    monotone: [SFmul] rounds the exact product of the mantissas with
    [binary_round_aux]. *)
Definition multiplier64 (d : Z) : float :=
  fadd (fdec 1 2) (fdiv (float_of_int d) (float_of_int 100)).

(** The multipliers at [d1] and [d2] are positive normal numbers, the first
    at most the second. *)
Definition multipliers_ordered (d1 d2 : Z) : bool :=
  match Prim2SF (multiplier64 d1), Prim2SF (multiplier64 d2) with
  | S754_finite false m1 e1, S754_finite false m2 e2 =>
      (2 ^ 52 <=? Z.pos m1) && (2 ^ 52 <=? Z.pos m2) && (e1 <=? e2) && (e2 <=? -52)
      && (Z.pos m1 <=? Z.pos m2 * 2 ^ (e2 - e1))
  | _, _ => false
  end.

(** The number of bits [binary_round_aux] shifts the mantissa [x] at
    exponent [E] to the right. *)
Definition shift_of (x E : Z) : Z := fexp prec emax (Zdigits2 x + E) - E.

(** [mrs] is [x] shifted right by [k + 1] bits: the mantissa, the bit that
    was shifted out last, and whether anything below it was not zero. *)
Definition shifted (k x : Z) (mrs : shr_record) : Prop :=
  0 ≤ shr_m mrs ∧
  ∃ T, x = (2 * shr_m mrs + Z.b2z (shr_r mrs)) * 2 ^ k + T ∧
       0 ≤ T < 2 ^ k ∧ (shr_s mrs = true ↔ T ≠ 0).

(** Round to nearest, ties to even: what is added to the shifted mantissa
    [m], given the round bit and the sticky bit. *)
Definition round_up (m : Z) (r s : bool) : Z := if r && (s || Z.odd m) then 1 else 0.

(** What [binary_round_aux] returns for the rounded mantissa [0 <= q <= 2^53]
    of a positive number at exponent [e]. *)
Definition pack (q e : Z) : spec_float :=
  if q =? 0 then S754_zero false
  else if q =? 2 ^ 53
  then if e + 1 <=? 971 then S754_finite false (2 ^ 52)%positive (e + 1)
       else S754_infinity false
  else if e <=? 971 then S754_finite false (Z.to_pos q) e else S754_infinity false.

(** * Properties *)

Section Sequential.
Context {F : Type} `{PyFloat F}.
Implicit Types (self isec : Intersection F) (direction : string).

(** C8.  [update_traffic_density] accepts every integer, always returns, and
    stores the value clamped into [0, 100] for the addressed direction:
    [0] for a value below [0], [100] for a value above [100], the value
    itself otherwise.  Nothing else in the intersection changes. *)
Theorem update_traffic_density_clamps self direction (density : Z) :
  let stored := if density <? 0 then 0 else if 100 <? density then 100 else density in
  let self' := set_traffic_density (<[direction := stored]> (traffic_density self)) self in
  update_traffic_density direction density self = Returned () self' ∧
  traffic_density self' !! direction = Some stored ∧
  0 ≤ stored ≤ 100.
Proof.
  intros stored self'.
  assert (Hclamp : Z.max 0 (Z.min 100 density) = stored).
  { unfold stored. destruct (Z.ltb_spec density 0), (Z.ltb_spec 100 density); lia. }
  split; [|split].
  - unfold update_traffic_density, modify. by rewrite Hclamp.
  - unfold self'; simpl. apply lookup_insert_eq.
  - lia.
Qed.

Lemma get_adaptive_green_time_returns self direction (density : Z) (base_time : F) :
  traffic_density self !! direction = Some density →
  get_adaptive_green_time direction base_time self =
    Returned
      (fmul base_time (fadd (fdec 1 2) (fdiv (float_of_int density) (float_of_int 100))))
      self.
Proof.
  intros Hd. unfold get_adaptive_green_time, mbind, M_bind, bind, get_state.
  by rewrite Hd.
Qed.

(** C6.  For a direction with stored density [density],
    [get_adaptive_green_time direction base_time] returns
    [base_time * (0.5 + density / 100.0)] and leaves the intersection as it
    was; the value is the same whatever else the intersection holds, and a
    density just stored by [update_traffic_density] is the one used. *)
Theorem get_adaptive_green_time_formula self direction (density : Z) (base_time : F) :
  traffic_density self !! direction = Some density →
  let green_time :=
    fmul base_time (fadd (fdec 1 2) (fdiv (float_of_int density) (float_of_int 100))) in
  get_adaptive_green_time direction base_time self = Returned green_time self ∧
  ∀ value : Z,
    let stored := Z.max 0 (Z.min 100 value) in
    let self' := outcome (update_traffic_density direction value self) in
    get_adaptive_green_time direction base_time self' =
      Returned
        (fmul base_time (fadd (fdec 1 2) (fdiv (float_of_int stored) (float_of_int 100))))
        self'.
Proof.
  intros Hd green_time. split; [by apply get_adaptive_green_time_returns|].
  intros value stored self'. apply get_adaptive_green_time_returns.
  unfold self'. simpl. apply lookup_insert_eq.
Qed.

(** The loop of [get_system_stats] from any starting totals. *)
Lemma foldl_accumulate (l : list (Intersection F)) (acc : TrafficStats F) :
  let sts := stats <$> l in
  foldl accumulate acc l =
    mkTrafficStats
      (foldl Z.add (total_cycles acc) (total_cycles <$> sts))
      (foldl fadd (total_wait_time acc) (total_wait_time <$> sts))
      (foldl Z.add (emergency_responses acc) (emergency_responses <$> sts))
      (foldl Z.add (deadlock_preventions acc) (deadlock_preventions <$> sts))
      (average_green_time acc)
      (foldl Z.add (vehicles_passed acc) (vehicles_passed <$> sts)).
Proof.
  revert acc. induction l as [|isec l IH]; intros acc; simpl.
  - by destruct acc.
  - by rewrite IH.
Qed.

Lemma foldl_Zadd (l : list Z) (a : Z) : foldl Z.add a l = a + foldr Z.add 0 l.
Proof.
  revert a. induction l as [|x l IH]; intros a; simpl; [lia|]. rewrite IH. lia.
Qed.

(** C9.  [get_system_stats] reports the sums over the intersections of
    [total_cycles], [emergency_responses], [deadlock_preventions] and
    [vehicles_passed], and as [average_wait_time] the rendering of the summed
    [total_wait_time] divided by the summed [total_cycles], or of [0.0] when
    no cycle was counted. *)
Theorem get_system_stats_sums (format_2f : F → string) (self : TrafficController F) :
  let sts := stats <$> intersections self in
  let cycles := foldr Z.add 0 (total_cycles <$> sts) in
  let wait := foldl fadd (float_of_int 0) (total_wait_time <$> sts) in
  get_system_stats format_2f self =
    mkSystemStats
      cycles
      (format_2f (if bool_decide (0 < cycles)
                  then fdiv wait (float_of_int cycles)
                  else float_of_int 0))
      (foldr Z.add 0 (emergency_responses <$> sts))
      (foldr Z.add 0 (deadlock_preventions <$> sts))
      (foldr Z.add 0 (vehicles_passed <$> sts)).
Proof.
  intros sts cycles wait. unfold get_system_stats.
  rewrite foldl_accumulate. simpl. rewrite !foldl_Zadd, !Z.add_0_l.
  fold sts cycles wait. by destruct (bool_decide (0 < cycles)).
Qed.

(** C10.  With an intersection index outside
    [0 .. len(self.intersections) - 1], [trigger_emergency] and
    [update_traffic_density] return normally and leave the controller, its
    intersections included, exactly as it was. *)
Theorem out_of_range_index_is_noop (self : TrafficController F)
    (intersection_idx : Z) direction (density : Z) (t_created t_queued : F) :
  ¬ (0 ≤ intersection_idx < Z.of_nat (length (intersections self))) →
  trigger_emergency intersection_idx direction t_created t_queued self = Returned () self ∧
  TrafficController_update_traffic_density intersection_idx direction density self
    = Returned () self.
Proof.
  intros Hout. unfold trigger_emergency, TrafficController_update_traffic_density.
  by rewrite bool_decide_eq_false_2.
Qed.

End Sequential.

(** The scenario of C6 in binary64: with the density of NORTH set to [100]
    the green time for base [5.0] is [7.5], with the density set to [0] it
    is [2.5]. *)
Lemma get_adaptive_green_time_scenario :
  let fresh : Intersection float := Intersection_init "Intersection-1" in
  let dense := outcome (update_traffic_density "NORTH" 100 fresh) in
  let empty := outcome (update_traffic_density "NORTH" 0 dense) in
  get_adaptive_green_time "NORTH" 5%float dense = Returned 7.5%float dense ∧
  get_adaptive_green_time "NORTH" 5%float empty = Returned 2.5%float empty.
Proof.
  intros fresh dense empty. split.
  - exact (proj1 (get_adaptive_green_time_formula dense "NORTH" 100 5%float eq_refl)).
  - exact (proj1 (get_adaptive_green_time_formula empty "NORTH" 0 5%float eq_refl)).
Defined.

Lemma out_of_range_index_is_noop_witness :
  let ctl : TrafficController float := TrafficController_init 1 0%float in
  trigger_emergency 1 "NORTH" 7%float 7%float ctl = Returned () ctl ∧
  TrafficController_update_traffic_density (-1) "NORTH" 40 ctl = Returned () ctl.
Proof.
  intros ctl. split.
  - refine (proj1 (out_of_range_index_is_noop ctl 1 "NORTH" 0 7%float 7%float _)).
    simpl. lia.
  - refine (proj2 (out_of_range_index_is_noop ctl (-1) "NORTH" 40 0%float 0%float _)).
    simpl. lia.
Defined.

(** ** The adaptive green time in binary64

    [fmul base m] is the exact product of the two numbers rounded to
    nearest, ties to even.  The rounding is followed through
    [binary_round_aux]: shifting the product of the mantissas to the right
    leaves a mantissa, a round bit and a sticky bit, and rounding on them is
    monotone in the exact value. *)

Section Rounding.

Lemma shr_1_spec m r s :
  0 ≤ m →
  ∃ m' r', shr_1 (Build_shr_record m r s) = Build_shr_record m' r' (r || s) ∧
    m = 2 * m' + Z.b2z r' ∧ 0 ≤ m'.
Proof.
  intros Hm. destruct m as [|[p|p|]|p]; try lia; simpl.
  - by exists 0, false.
  - exists (Z.pos p), true. split; [done|]. simpl. lia.
  - exists (Z.pos p), false. split; [done|]. simpl. lia.
  - by exists 0, true.
Qed.

Lemma iter_pos_nat {A} (f : A → A) p x :
  SpecFloat.iter_pos f p x = Nat.iter (Pos.to_nat p) f x.
Proof.
  revert x. induction p as [p IH|p IH|]; intros x; cbn [SpecFloat.iter_pos].
  - rewrite !IH, Pos2Nat.inj_xI, <- Nat.iter_add, Nat.iter_succ_r. f_equal. lia.
  - rewrite !IH, Pos2Nat.inj_xO, <- Nat.iter_add. f_equal. lia.
  - done.
Qed.

Lemma shifted_first x : 0 ≤ x → shifted 0 x (shr_1 (Build_shr_record x false false)).
Proof.
  intros Hx. destruct (shr_1_spec x false false Hx) as (m & r & -> & Hm & Hpos).
  split; [done|]. exists 0. simpl. split; [lia|]. split; [lia|]. done.
Qed.

Lemma shifted_next k x mrs : 0 ≤ k → shifted k x mrs → shifted (k + 1) x (shr_1 mrs).
Proof.
  intros Hk. destruct mrs as [m r s]. intros (Hm & T & HT & Hrange & Hs).
  cbn [shr_m shr_r shr_s] in *.
  destruct (shr_1_spec m r s Hm) as (m' & r' & -> & Hm' & Hpos).
  split; [done|]. cbn [shr_m shr_r shr_s].
  assert (0 < 2 ^ k) by (apply Z.pow_pos_nonneg; lia).
  rewrite Z.pow_add_r, Z.pow_1_r by lia.
  exists (Z.b2z r * 2 ^ k + T).
  split; [rewrite HT, Hm'; ring|].
  split; [destruct r; simpl; lia|].
  destruct r, s; simpl; split; (done || lia).
Qed.

Lemma shifted_iter (k : nat) x :
  0 ≤ x → shifted (Z.of_nat k) x (Nat.iter (S k) shr_1 (Build_shr_record x false false)).
Proof.
  intros Hx. induction k as [|k IH]; [by apply shifted_first|].
  rewrite Nat2Z.inj_succ, <- Z.add_1_r.
  change (Nat.iter (S (S k)) shr_1 (Build_shr_record x false false))
    with (shr_1 (Nat.iter (S k) shr_1 (Build_shr_record x false false))).
  apply shifted_next; [lia|done].
Qed.

Lemma shr_spec x E n :
  0 ≤ x → 0 < n →
  ∃ mrs, shr (Build_shr_record x false false) E n = (mrs, E + n) ∧ shifted (n - 1) x mrs.
Proof.
  intros Hx Hn. destruct n as [|p|p]; try lia. simpl.
  eexists. split; [reflexivity|]. rewrite iter_pos_nat.
  destruct (Pos2Nat.is_succ p) as [k Hk]. rewrite Hk.
  replace (Z.pos p - 1) with (Z.of_nat k) by lia. by apply shifted_iter.
Qed.

Lemma digits2_pos_spec p :
  2 ^ (Z.pos (digits2_pos p) - 1) ≤ Z.pos p < 2 ^ Z.pos (digits2_pos p).
Proof.
  induction p as [p IH|p IH|]; simpl; [| |done].
  - rewrite Pos2Z.inj_succ.
    replace (Z.succ (Z.pos (digits2_pos p)) - 1) with (Z.succ (Z.pos (digits2_pos p) - 1)) by lia.
    rewrite !Z.pow_succ_r by lia. lia.
  - rewrite Pos2Z.inj_succ.
    replace (Z.succ (Z.pos (digits2_pos p)) - 1) with (Z.succ (Z.pos (digits2_pos p) - 1)) by lia.
    rewrite !Z.pow_succ_r by lia. lia.
Qed.

Lemma Zdigits2_spec x : 0 < x → 2 ^ (Zdigits2 x - 1) ≤ x < 2 ^ Zdigits2 x.
Proof. destruct x as [|p|p]; try lia. intros _. apply digits2_pos_spec. Qed.

Lemma Zdigits2_le x k : 0 < x → x < 2 ^ k → Zdigits2 x ≤ k.
Proof.
  intros Hx Hk. destruct (Zdigits2_spec x Hx) as [Hlo _].
  destruct (decide (Zdigits2 x ≤ k)) as [|Hgt]; [done|].
  assert (2 ^ k ≤ 2 ^ (Zdigits2 x - 1)); [|lia].
  apply Z.pow_le_mono_r; [lia|]. lia.
Qed.

Lemma round_nearest_even_spec m r s :
  round_nearest_even m (loc_of_shr_record (Build_shr_record m r s)) = m + round_up m r s.
Proof.
  unfold round_up. destruct r, s; simpl; try lia.
  rewrite <- Z.negb_odd. destruct (Z.odd m); simpl; lia.
Qed.

(** Rounding to nearest is monotone on a grid. *)
Lemma round_up_mono H m r s T m' r' s' T' :
  0 < H → 0 ≤ T < H → 0 ≤ T' < H →
  (s = true ↔ T ≠ 0) → (s' = true ↔ T' ≠ 0) →
  (2 * m + Z.b2z r) * H + T ≤ (2 * m' + Z.b2z r') * H + T' →
  m + round_up m r s ≤ m' + round_up m' r' s'.
Proof.
  intros HH HT HT' Hs Hs' Hle.
  assert (2 * m + Z.b2z r ≤ 2 * m' + Z.b2z r') as Hu by nia.
  destruct (decide (2 * m + Z.b2z r = 2 * m' + Z.b2z r')) as [Heq|Hne].
  - assert (m = m' ∧ r = r') as [<- <-] by (destruct r, r'; simpl in *; split; (done || lia)).
    assert (T ≤ T') by nia.
    unfold round_up. destruct r; simpl; [|lia].
    destruct s; simpl.
    + assert (s' = true) as -> by (apply Hs'; assert (T ≠ 0) by (by apply Hs); lia). simpl. lia.
    + destruct (Z.odd m), s'; simpl; lia.
  - unfold round_up. destruct r, r'; simpl in *;
      destruct (s || Z.odd m), (s' || Z.odd m'); simpl; lia.
Qed.

(** [binary_round_aux] on a positive mantissa that has to be shifted. *)
Lemma binary_round_aux_shifted x E :
  0 < x → 0 < shift_of x E →
  ∃ m r s T,
    0 ≤ m ∧
    x = (2 * m + Z.b2z r) * 2 ^ (shift_of x E - 1) + T ∧
    0 ≤ T < 2 ^ (shift_of x E - 1) ∧
    (s = true ↔ T ≠ 0) ∧
    m + round_up m r s ≤ 2 ^ 53 ∧
    binary_round_aux prec emax false x E loc_Exact
      = pack (m + round_up m r s) (E + shift_of x E).
Proof.
  intros Hx Hn. unfold binary_round_aux, shr_fexp.
  fold (shift_of x E). cbn [shr_record_of_loc].
  destruct (shr_spec x E (shift_of x E)) as ([m r s] & -> & Hm & T & HT & Hrange & Hs);
    [lia|done|].
  cbn [shr_m shr_r shr_s] in *.
  exists m, r, s, T. rewrite round_nearest_even_spec.
  set (n := shift_of x E) in *. set (q := m + round_up m r s).
  assert (0 < 2 ^ (n - 1)) as Hpow by (apply Z.pow_pos_nonneg; lia).
  assert (-1074 ≤ E + n ∧ Zdigits2 x - 53 ≤ n) as [Hemin Hdig].
  { unfold n, shift_of, fexp, SpecFloat.emin, prec, emax. lia. }
  assert (q ≤ 2 ^ 53 ∧ 0 ≤ q) as [Hq Hq0].
  { destruct (Zdigits2_spec x Hx) as [_ Hhi].
    assert (2 ^ Zdigits2 x ≤ 2 ^ (n + 53)) as Hle by (apply Z.pow_le_mono_r; lia).
    replace (n + 53) with (54 + (n - 1)) in Hle by lia.
    rewrite Z.pow_add_r in Hle by lia.
    assert (2 * m + Z.b2z r < 2 ^ 54) by nia.
    unfold q, round_up. destruct r, (s || Z.odd m); simpl in *; lia. }
  do 5 (split; [done|]).
  unfold pack.
  destruct (Z.eqb_spec q 0) as [->|Hq1].
  { assert (fexp prec emax (Zdigits2 0 + (E + n)) - (E + n) ≤ 0) as Hn2.
    { unfold fexp, SpecFloat.emin, prec, emax. simpl. lia. }
    unfold shr. remember (fexp prec emax (Zdigits2 0 + (E + n)) - (E + n)) as n2.
    destruct n2 as [|p|p]; [reflexivity|lia|reflexivity]. }
  destruct (Z.eqb_spec q (2 ^ 53)) as [->|Hq2].
  { assert (fexp prec emax (Zdigits2 (2 ^ 53) + (E + n)) - (E + n) = 1) as ->.
    { unfold fexp, SpecFloat.emin, prec, emax. simpl. lia. }
    change (shr {| shr_m := 2 ^ 53; shr_r := false; shr_s := false |} (E + n) 1)
      with ({| shr_m := Z.pos (2 ^ 52); shr_r := false; shr_s := false |}, E + n + 1).
    cbn [shr_m]. change (emax - prec) with 971. reflexivity. }
  assert (fexp prec emax (Zdigits2 q + (E + n)) - (E + n) ≤ 0) as Hn2.
  { assert (Zdigits2 q ≤ 53) by (apply Zdigits2_le; lia).
    unfold fexp, SpecFloat.emin, prec, emax. lia. }
  unfold shr. cbn [shr_record_of_loc].
  remember (fexp prec emax (Zdigits2 q + (E + n)) - (E + n)) as n2.
  destruct n2 as [|p|p]; try lia; cbn [shr_m]; destruct q; try lia; reflexivity.
Qed.

Lemma compare_cont_le (a b : positive) :
  (a ≤ b)%positive →
  match PosDef.Pos.compare_cont Eq a b with Gt => false | _ => true end = true.
Proof.
  intros Hle. change (PosDef.Pos.compare_cont Eq a b) with (a ?= b)%positive.
  by destruct (a ?= b)%positive eqn:Hc.
Qed.

Lemma pack_le q q' e :
  0 ≤ q → q ≤ q' → q' ≤ 2 ^ 53 → SFleb (pack q e) (pack q' e) = true.
Proof.
  intros Hq Hle Hq'. unfold pack.
  destruct (Z.eqb_spec q 0), (Z.eqb_spec q' 0), (Z.eqb_spec q (2 ^ 53)),
    (Z.eqb_spec q' (2 ^ 53)), (Z.leb_spec (e + 1) 971), (Z.leb_spec e 971);
    try lia; try done; unfold SFleb, SFcompare.
  all: rewrite ?Z.compare_refl.
  all: try (assert (e ?= e + 1 = Lt) as -> by (apply Z.compare_lt_iff; lia); done).
  all: apply compare_cont_le; lia.
Qed.

Lemma pack_lt_exp q q' e e' :
  0 ≤ q → q ≤ 2 ^ 53 → 2 ^ 52 ≤ q' → q' ≤ 2 ^ 53 → e < e' →
  SFleb (pack q e) (pack q' e') = true.
Proof.
  intros Hq0 Hq H52 Hq' He. unfold pack.
  destruct (Z.eqb_spec q 0), (Z.eqb_spec q' 0), (Z.eqb_spec q (2 ^ 53)),
    (Z.eqb_spec q' (2 ^ 53)), (Z.leb_spec (e + 1) 971), (Z.leb_spec e 971),
    (Z.leb_spec (e' + 1) 971), (Z.leb_spec e' 971);
    try lia; try done; unfold SFleb, SFcompare.
  all: try (assert (e + 1 ?= e' + 1 = Lt) as -> by (apply Z.compare_lt_iff; lia); done).
  all: try (assert (e ?= e' + 1 = Lt) as -> by (apply Z.compare_lt_iff; lia); done).
  all: try (assert (e ?= e' = Lt) as -> by (apply Z.compare_lt_iff; lia); done).
  all: destruct (e + 1 ?= e') eqn:Hc; try done;
    [apply compare_cont_le; lia|apply Z.compare_gt_iff in Hc; lia].
Qed.

(** The correctly rounded value of [x * 2^E] is monotone in it. *)
Lemma binary_round_aux_mono x y E E' :
  0 < x → 0 < y → E ≤ E' → x ≤ y * 2 ^ (E' - E) →
  0 < shift_of x E → 0 < shift_of y E' →
  SFleb (binary_round_aux prec emax false x E loc_Exact)
        (binary_round_aux prec emax false y E' loc_Exact) = true.
Proof.
  intros Hx Hy HE Hle Hn Hn'.
  destruct (binary_round_aux_shifted x E Hx Hn)
    as (m & r & s & T & Hm & HT & Hrange & Hs & Hq & ->).
  destruct (binary_round_aux_shifted y E' Hy Hn')
    as (m' & r' & s' & T' & Hm' & HT' & Hrange' & Hs' & Hq' & ->).
  set (n := shift_of x E) in *. set (n' := shift_of y E') in *.
  set (k := E' - E) in *.
  assert (0 < 2 ^ (n - 1)) as Hpow by (apply Z.pow_pos_nonneg; lia).
  assert (0 < 2 ^ (n' - 1)) as Hpow' by (apply Z.pow_pos_nonneg; lia).
  assert (0 < 2 ^ k) as Hpowk by (apply Z.pow_pos_nonneg; lia).
  assert (0 ≤ m + round_up m r s ∧ 0 ≤ m' + round_up m' r' s') as [Hq0 Hq0'].
  { unfold round_up. destruct (r && _), (r' && _); lia. }
  destruct (Zdigits2_spec x Hx) as [Hxlo Hxhi].
  destruct (Zdigits2_spec y Hy) as [Hylo Hyhi].
  assert (Zdigits2 x ≤ Zdigits2 y + k) as Hdig.
  { assert (x < 2 ^ (Zdigits2 y + k)) as Hlt.
    { rewrite Z.pow_add_r by (destruct y; simpl; lia). nia. }
    destruct (decide (Zdigits2 x ≤ Zdigits2 y + k)) as [|Hgt]; [done|].
    assert (2 ^ (Zdigits2 y + k) ≤ 2 ^ (Zdigits2 x - 1)); [|lia].
    apply Z.pow_le_mono_r; lia. }
  assert (n ≤ n' + k) as Hnn.
  { unfold n, n', k, shift_of, fexp, SpecFloat.emin, prec, emax in *. lia. }
  replace (E' + n') with (E + (n' + k)) by (unfold k; lia).
  destruct (decide (n = n' + k)) as [Heq|Hne].
  - rewrite <- Heq. apply pack_le; [done| |done].
    apply (round_up_mono (2 ^ (n - 1)) m r s T m' r' s' (T' * 2 ^ k)); try done.
    + replace (n - 1) with ((n' - 1) + k) by lia. rewrite Z.pow_add_r by lia. nia.
    + rewrite Hs'. nia.
    + rewrite <- HT. replace (n - 1) with ((n' - 1) + k) by lia.
      rewrite Z.pow_add_r by lia.
      replace ((2 * m' + Z.b2z r') * (2 ^ (n' - 1) * 2 ^ k) + T' * 2 ^ k)
        with (((2 * m' + Z.b2z r') * 2 ^ (n' - 1) + T') * 2 ^ k) by ring.
      by rewrite <- HT'.
  - apply pack_lt_exp; try done; [|lia].
    assert (n' = Zdigits2 y - 53) as Hn'eq.
    { unfold n, n', k, shift_of, fexp, SpecFloat.emin, prec, emax in *. lia. }
    assert (2 ^ (Zdigits2 y - 1) = 2 ^ 53 * 2 ^ (n' - 1)) as Hsplit.
    { rewrite <- Z.pow_add_r by lia. f_equal. lia. }
    assert (2 ^ 53 ≤ 2 * m' + Z.b2z r') by nia.
    unfold round_up. destruct r', (s' || Z.odd m'); simpl in *; lia.
Qed.

End Rounding.

Lemma multipliers_table :
  forallb (λ d1, forallb (multipliers_ordered d1) (seqZ d1 (101 - d1))) (seqZ 0 101) = true.
Proof. vm_compute. reflexivity. Qed.

Lemma Zdigits2_gt x k : 0 < x → 2 ^ k ≤ x → k < Zdigits2 x.
Proof.
  intros Hx Hk. destruct (Zdigits2_spec x Hx) as [_ Hhi].
  destruct (decide (k < Zdigits2 x)) as [|Hle]; [done|].
  assert (2 ^ Zdigits2 x ≤ 2 ^ k); [|lia].
  apply Z.pow_le_mono_r; [lia|]. lia.
Qed.

Lemma mul_multiplier_mono (base : float) (d1 d2 : Z) :
  (0 <=? base)%float = true → 0 ≤ d1 → d1 ≤ d2 → d2 ≤ 100 →
  (base * multiplier64 d1 <=? base * multiplier64 d2)%float = true.
Proof.
  intros Hb H0 Hd H100.
  assert (multipliers_ordered d1 d2 = true) as Hord.
  { pose proof multipliers_table as Ht. rewrite forallb_forall in Ht.
    specialize (Ht d1). rewrite forallb_forall in Ht. apply Ht.
    - apply list_elem_of_In, elem_of_seqZ. lia.
    - apply list_elem_of_In, elem_of_seqZ. lia. }
  rewrite FloatAxioms.leb_spec in *. rewrite !FloatAxioms.mul_spec.
  change (Prim2SF 0) with (S754_zero false) in Hb.
  pose proof (FloatAxioms.Prim2SF_valid base) as Hvalid.
  unfold multipliers_ordered in Hord.
  destruct (Prim2SF (multiplier64 d1)) as [| | |[|] m1 e1]; try done.
  destruct (Prim2SF (multiplier64 d2)) as [| | |[|] m2 e2]; try done.
  apply andb_prop in Hord as [Hord Hle]. apply andb_prop in Hord as [Hord He2].
  apply andb_prop in Hord as [Hord He]. apply andb_prop in Hord as [Hm1 Hm2].
  apply Z.leb_le in Hle, He2, Hm1, Hm2, He.
  destruct (Prim2SF base) as [s|s| |s mb eb]; try done.
  - by destruct s.
  - destruct s; [done|]. cbn [FloatAxioms.SF64mul SFmul xorb].
    unfold FloatAxioms.SF64mul, SFmul. cbn [xorb].
    cbn [valid_binary] in Hvalid. unfold bounded, canonical_mantissa in Hvalid.
    apply andb_prop in Hvalid as [Hcanon _]. apply Z.eqb_eq in Hcanon.
    change (Z.pos (digits2_pos mb)) with (Zdigits2 (Z.pos mb)) in Hcanon.
    assert (0 < 2 ^ (e2 - e1)) as Hpow by (apply Z.pow_pos_nonneg; lia).
    destruct (Zdigits2_spec (Z.pos mb)) as [Hlo _]; [lia|].
    assert (0 < Zdigits2 (Z.pos mb)) as Hdb by (simpl; lia).
    assert (∀ m e, 2 ^ 52 ≤ Z.pos m → e ≤ -52 →
              0 < shift_of (Z.pos (mb * m)) (eb + e)) as Hshift.
    { intros m e Hm He52.
      assert (Zdigits2 (Z.pos mb) + 51 < Zdigits2 (Z.pos (mb * m))) as Hdx.
      { apply Zdigits2_gt; [lia|].
        replace (Zdigits2 (Z.pos mb) + 51) with ((Zdigits2 (Z.pos mb) - 1) + 52) by lia.
        rewrite Z.pow_add_r, Pos2Z.inj_mul by lia. nia. }
      unfold shift_of, fexp, SpecFloat.emin, prec, emax in *. lia. }
    apply binary_round_aux_mono; try lia.
    + replace (eb + e2 - (eb + e1)) with (e2 - e1) by lia.
      rewrite !Pos2Z.inj_mul. nia.
    + apply Hshift; lia.
    + apply Hshift; lia.
Qed.




(** ** The emergency queue never fails on distinct priorities *)

Section Heap.
Context {F : Type} `{PyFloat F}.
Implicit Types (heap U : list (entry F)).

Lemma distinct_priorities_comparable U : distinct_priorities U → comparable U.
Proof.
  intros Hd a b Ha Hb. unfold entry_lt.
  destruct (feq a.1 b.1) eqn:Heq; [|by eexists].
  rewrite decide_True by (by apply Hd). by eexists.
Qed.

Lemma swap_length i j heap : length (swap i j heap) = length heap.
Proof. unfold swap. repeat case_match; by rewrite ?length_insert. Qed.

Lemma elem_of_insert_inv {A} (l : list A) i x y : y ∈ <[i:=x]> l → y = x ∨ y ∈ l.
Proof.
  intros [j Hj]%list_elem_of_lookup.
  destruct (decide (i = j)) as [->|Hne].
  - destruct (decide (j < length l)%nat).
    + rewrite list_lookup_insert_eq in Hj by done. left. congruence.
    + rewrite list_insert_ge in Hj by lia. right. by eapply list_elem_of_lookup_2.
  - rewrite list_lookup_insert_ne in Hj by done. right. by eapply list_elem_of_lookup_2.
Qed.

Lemma swap_subseteq i j heap : swap i j heap ⊆ heap.
Proof.
  unfold swap. destruct (heap !! i) as [a|] eqn:Hi; [|done].
  destruct (heap !! j) as [b|] eqn:Hj; [|done].
  intros x [->|[->|Hx]%elem_of_insert_inv]%elem_of_insert_inv;
    eauto using list_elem_of_lookup_2.
Qed.

Lemma siftdown_loop_ok U fuel startpos pos heap :
  comparable U → heap ⊆ U → (pos < length heap)%nat →
  ∃ heap', siftdown_loop fuel startpos pos heap = Returned () heap' ∧
    heap' ⊆ U ∧ length heap' = length heap.
Proof.
  intros HU. revert pos heap.
  induction fuel as [|fuel IH]; intros pos heap Hsub Hpos; cbn [siftdown_loop]; [by eauto|].
  case_decide; [|by eauto].
  assert (((pos - 1) / 2) < length heap)%nat as Hparent.
  { pose proof (Nat.Div0.div_le_upper_bound (pos - 1) 2 (pos - 1)). lia. }
  destruct (lookup_lt_is_Some_2 heap pos Hpos) as [newitem Hnew].
  destruct (lookup_lt_is_Some_2 heap _ Hparent) as [parent Hpar].
  cbv zeta. rewrite Hnew, Hpar.
  destruct (HU newitem parent) as [[|] ->];
    [by eapply Hsub, list_elem_of_lookup_2..| |by eauto].
  destruct (IH ((pos - 1) / 2)%nat (swap pos ((pos - 1) / 2) heap)) as (heap' & -> & ? & Hlen).
  - etrans; [apply swap_subseteq|done].
  - by rewrite swap_length.
  - exists heap'. rewrite Hlen, swap_length. done.
Qed.

Lemma siftup_loop_ok U fuel pos heap :
  comparable U → heap ⊆ U → (pos < length heap)%nat →
  ∃ leaf heap', siftup_loop fuel (length heap) pos heap = Returned leaf heap' ∧
    heap' ⊆ U ∧ length heap' = length heap ∧ (leaf < length heap)%nat.
Proof.
  intros HU. revert pos heap.
  induction fuel as [|fuel IH]; intros pos heap Hsub Hpos; cbn [siftup_loop]; [by eauto 10|].
  cbv zeta.
  case_decide as Hchild; [|by eauto 10].
  assert (∀ childpos, (childpos < length heap)%nat →
    ∃ leaf heap', siftup_loop fuel (length heap) childpos (swap pos childpos heap)
                    = Returned leaf heap' ∧
      heap' ⊆ U ∧ length heap' = length heap ∧ (leaf < length heap)%nat) as Hpick.
  { intros childpos Hc.
    destruct (IH childpos (swap pos childpos heap)) as (leaf & heap' & Hr & ? & Hlen & Hleaf).
    - etrans; [apply swap_subseteq|done].
    - by rewrite swap_length.
    - rewrite swap_length in Hr, Hlen, Hleaf. by exists leaf, heap'. }
  case_decide as Hright; [|by apply Hpick].
  destruct (lookup_lt_is_Some_2 heap _ Hchild) as [l Hl].
  destruct (lookup_lt_is_Some_2 heap _ Hright) as [r Hr].
  rewrite Hl, Hr.
  destruct (HU l r) as [[|] ->];
    [by eapply Hsub, list_elem_of_lookup_2..| |]; by apply Hpick.
Qed.

(** The fuel of the two loops is never what stops them: any two amounts
    that cover the distance left give the same result. *)
Lemma siftdown_loop_fuel fuel fuel' startpos pos heap :
  (pos ≤ fuel)%nat → (pos ≤ fuel')%nat →
  siftdown_loop fuel startpos pos heap = siftdown_loop fuel' startpos pos heap.
Proof.
  revert fuel' pos heap.
  induction fuel as [|fuel IH]; intros fuel' pos heap Hf Hf'.
  - destruct fuel' as [|fuel']; [done|]. cbn [siftdown_loop].
    by rewrite decide_False by lia.
  - destruct fuel' as [|fuel']; cbn [siftdown_loop].
    { by rewrite decide_False by lia. }
    case_decide; [|done]. cbv zeta.
    assert (((pos - 1) / 2) ≤ pos - 1)%nat
      by (apply Nat.Div0.div_le_upper_bound; lia).
    repeat case_match; try done. apply IH; lia.
Qed.

Lemma siftup_loop_fuel fuel fuel' endpos pos heap :
  (endpos - pos ≤ fuel)%nat → (endpos - pos ≤ fuel')%nat →
  siftup_loop fuel endpos pos heap = siftup_loop fuel' endpos pos heap.
Proof.
  revert fuel' pos heap.
  induction fuel as [|fuel IH]; intros fuel' pos heap Hf Hf'.
  - destruct fuel' as [|fuel']; [done|]. cbn [siftup_loop]. cbv zeta.
    by rewrite decide_False by lia.
  - destruct fuel' as [|fuel']; cbn [siftup_loop]; cbv zeta.
    { by rewrite decide_False by lia. }
    case_decide; [|done].
    repeat case_match; try done; apply IH; lia.
Qed.

Lemma siftdown_ok U startpos pos heap :
  comparable U → heap ⊆ U → (pos < length heap)%nat →
  ∃ heap', _siftdown startpos pos heap = Returned () heap' ∧
    heap' ⊆ U ∧ length heap' = length heap.
Proof.
  intros HU Hsub Hpos. unfold _siftdown. rewrite decide_True by done.
  by apply siftdown_loop_ok.
Qed.

Lemma heappush_ok item heap :
  comparable (item :: heap) →
  ∃ heap', heappush item heap = Returned () heap' ∧ heap' ⊆ item :: heap.
Proof.
  intros HU. unfold heappush.
  destruct (siftdown_ok (item :: heap) 0 (length heap) (heap ++ [item])) as (heap' & -> & ? & _).
  - done.
  - set_solver.
  - rewrite length_app. simpl. lia.
  - by exists heap'.
Qed.

Lemma heappop_ok heap :
  comparable heap → heap ≠ [] →
  ∃ item heap', heappop heap = Returned item heap' ∧ heap !! 0%nat = Some item ∧ heap' ⊆ heap.
Proof.
  intros HU Hne. unfold heappop.
  destruct (exists_last Hne) as (front & lastelt & ->).
  rewrite last_snoc, removelast_last.
  destruct front as [|returnitem front].
  { exists lastelt, []. split; [done|]. split; [done|]. set_solver. }
  set (U := (returnitem :: front) ++ [lastelt]) in *.
  set (heap0 := <[0%nat:=lastelt]> (returnitem :: front)).
  assert (heap0 ⊆ U) as Hsub by (unfold heap0, U; set_solver).
  destruct (siftup_loop_ok U (length heap0) 0 heap0)
    as (leaf & heap1 & Hup & ? & Hlen & ?); [done..|simpl; lia|].
  destruct (siftdown_ok U 0 leaf heap1) as (heap2 & Hdown & ? & _); [done..|lia|].
  exists returnitem, heap2. split; [|split; [done|done]].
  unfold _siftup. unfold mbind, M_bind, bind, get_state, mret, M_ret, ret.
  cbv beta iota. fold heap0. by rewrite Hup, Hdown.
Qed.

Lemma get_nowait_ok heap :
  comparable heap → heap ≠ [] →
  ∃ item heap', get_nowait heap = Returned item heap' ∧ heap !! 0%nat = Some item ∧ heap' ⊆ heap.
Proof. intros HU Hne. unfold get_nowait. destruct heap; [done|]. by apply heappop_ok. Qed.

End Heap.

(** ** Occupancy of the intersection along every run *)

Section Occupancy.
Context {F : Type} `{PyFloat F}.
Implicit Types (direction : string).

Lemma same_occupancy_refl (isec : Intersection F) : same_occupancy isec isec.
Proof. by split. Qed.

Lemma same_occupancy_trans (s1 s2 s3 : Intersection F) :
  same_occupancy s1 s2 → same_occupancy s2 s3 → same_occupancy s1 s3.
Proof. intros [? ?] [? ?]. split; congruence. Qed.

Lemma frames_ret {A} (a : A) : frames (mret a : M (Intersection F) A).
Proof. intros s. apply same_occupancy_refl. Qed.

Lemma frames_raise {A} e : frames (raise e : M (Intersection F) A).
Proof. intros s. apply same_occupancy_refl. Qed.

Lemma frames_get_state : frames (get_state : M (Intersection F) _).
Proof. intros s. apply same_occupancy_refl. Qed.

Lemma frames_modify (f : Intersection F → Intersection F) :
  (∀ s, same_occupancy s (f s)) → frames (modify f).
Proof. intros Hf s. apply Hf. Qed.

Lemma frames_bind {A B} (m : M (Intersection F) A) (k : A → M (Intersection F) B) :
  frames m → (∀ a, frames (k a)) → frames (m ≫= k).
Proof.
  intros Hm Hk s. specialize (Hm s).
  unfold mbind, M_bind, bind. destruct (m s) as [a s'|e s']; simpl in *; [|done].
  eapply same_occupancy_trans; [exact Hm | apply Hk].
Qed.

Lemma frames_try_except {A} (m h : M (Intersection F) A) e :
  frames m → frames h → frames (try_except m e h).
Proof.
  intros Hm Hh s. specialize (Hm s). unfold try_except.
  destruct (m s) as [a s'|e' s']; simpl in *; [done|].
  destruct (decide (e' = e)); [|done].
  eapply same_occupancy_trans; [exact Hm | apply Hh].
Qed.

Lemma frames_on_queue {A} (m : M (list (entry F)) A) : frames (on_queue m).
Proof.
  intros s. unfold on_queue, zoom. by destruct (m (emergency_queue s)).
Qed.

Lemma frames_log_event event : frames (F:=F) (log_event event).
Proof. by apply frames_modify. Qed.

Lemma frames_has_emergency_vehicle : frames (F:=F) has_emergency_vehicle.
Proof.
  apply frames_try_except; [|apply frames_ret].
  apply frames_bind; [apply frames_on_queue|]. intros item.
  apply frames_bind; [apply frames_on_queue|]. intros _. apply frames_ret.
Qed.

Lemma frames_can_proceed direction check : frames (F:=F) (can_proceed direction check).
Proof.
  apply frames_bind.
  { destruct check; [|apply frames_ret].
    apply frames_bind; [apply frames_has_emergency_vehicle|]. intros; apply frames_ret. }
  intros [|]; [apply frames_ret|].
  apply frames_bind; [apply frames_get_state|]. intros self.
  cbv zeta. destruct (existsb _ _).
  - apply frames_bind; [by apply frames_modify|]. intros; apply frames_ret.
  - repeat case_match; apply frames_ret.
Qed.

Lemma frames_get_adaptive_green_time direction base :
  frames (get_adaptive_green_time direction (base : F)).
Proof.
  apply frames_bind; [apply frames_get_state|]. intros self.
  case_match; [apply frames_ret | apply frames_raise].
Qed.

Lemma frames_add_emergency_vehicle direction t1 t2 :
  frames (add_emergency_vehicle direction (t1 : F) t2).
Proof.
  apply frames_bind; [apply frames_get_state|]. intros self.
  apply frames_bind; [by apply frames_modify|]. intros _.
  apply frames_bind; [apply frames_on_queue|]. intros _. apply frames_log_event.
Qed.

Lemma frames_update_traffic_density direction density :
  frames (F:=F) (update_traffic_density direction density).
Proof. by apply frames_modify. Qed.

Lemma frames_returned {A} (m : M (Intersection F) A) s a s' :
  frames m → m s = Returned a s' → same_occupancy s s'.
Proof. intros Hm Hs. specialize (Hm s). by rewrite Hs in Hm. Qed.

Lemma frames_raised {A} (m : M (Intersection F) A) s e s' :
  frames m → m s = Raised e s' → same_occupancy s s'.
Proof. intros Hm Hs. specialize (Hm s). by rewrite Hs in Hm. Qed.

Lemma enter_locked_spec direction is_emergency (isec : Intersection F) :
  ∃ isec', enter_locked direction is_emergency isec = Returned () isec' ∧
    active_directions isec' = active_directions isec ++ [direction] ∧
    green_semaphore isec' = green_semaphore isec.
Proof.
  unfold enter_locked, mbind, M_bind, bind, modify, log_event, mret, M_ret, ret.
  destruct is_emergency; eexists; (split; [reflexivity|]); by split.
Qed.

Lemma remove_first_perm (x : string) (l : list string) :
  x ∈ l → remove_first x l ++ [x] ≡ₚ l.
Proof.
  induction l as [|y l IH]; intros Hin; [by apply elem_of_nil in Hin|].
  simpl. destruct (decide (y = x)) as [->|Hne].
  - by rewrite Permutation_app_comm.
  - simpl. f_equiv. apply IH. apply elem_of_cons in Hin as [?|?]; congruence.
Qed.

Lemma exit_locked_spec direction (isec : Intersection F) :
  ∃ isec', exit_locked direction isec = Returned () isec' ∧
    active_directions isec' =
      (if bool_decide (direction ∈ active_directions isec)
       then remove_first direction (active_directions isec)
       else active_directions isec) ∧
    green_semaphore isec' = green_semaphore isec.
Proof.
  unfold exit_locked, mbind, M_bind, bind, get_state, modify, log_event, mret, M_ret, ret.
  destruct (bool_decide (direction ∈ active_directions isec));
    eexists; (split; [reflexivity|]); by split.
Qed.

Lemma listed_holding (p : pc F) : listed p → holding p.
Proof. induction p; simpl; auto. Qed.

Lemma fail_spec e (signal : TrafficSignal F) (isec : Intersection F) :
  ∃ isec', fail e signal isec = (goto (Failed (at_pc signal)) signal, isec') ∧
    same_occupancy isec isec'.
Proof. eexists. split; [reflexivity|]. by split. Qed.

Lemma acquire_spec (isec isec' : Intersection F) :
  acquire isec = Some isec' →
  active_directions isec' = active_directions isec ∧
  green_semaphore isec = S (green_semaphore isec').
Proof.
  unfold acquire. destruct (green_semaphore isec) eqn:Hs; [done|].
  intros [= <-]. by split.
Qed.

Ltac step_facts :=
  repeat match goal with
  | H : has_emergency_vehicle _ = Returned _ _ |- _ =>
      apply (frames_returned _ _ _ _ frames_has_emergency_vehicle) in H as [? ?]
  | H : has_emergency_vehicle _ = Raised _ _ |- _ =>
      apply (frames_raised _ _ _ _ frames_has_emergency_vehicle) in H as [? ?]
  | H : can_proceed _ _ _ = Returned _ _ |- _ =>
      apply (frames_returned _ _ _ _ (frames_can_proceed _ _)) in H as [? ?]
  | H : can_proceed _ _ _ = Raised _ _ |- _ =>
      apply (frames_raised _ _ _ _ (frames_can_proceed _ _)) in H as [? ?]
  | H : get_adaptive_green_time _ _ _ = Returned _ _ |- _ =>
      apply (frames_returned _ _ _ _ (frames_get_adaptive_green_time _ _)) in H as [? ?]
  | H : get_adaptive_green_time _ _ _ = Raised _ _ |- _ =>
      apply (frames_raised _ _ _ _ (frames_get_adaptive_green_time _ _)) in H as [? ?]
  | H : log_event _ _ = Returned _ _ |- _ =>
      apply (frames_returned _ _ _ _ (frames_log_event _)) in H as [? ?]
  | H : log_event _ _ = Raised _ _ |- _ =>
      apply (frames_raised _ _ _ _ (frames_log_event _)) in H as [? ?]
  | H : acquire _ = Some _ |- _ => apply acquire_spec in H as [? ?]
  | H : enter_locked ?d ?b ?s = _ |- _ =>
      let E := fresh "E" in
      pose proof (enter_locked_spec d b s) as (? & E & ? & ?); rewrite E in H; clear E
  | H : exit_locked ?d ?s = _ |- _ =>
      let E := fresh "E" in
      pose proof (exit_locked_spec d s) as (? & E & ? & ?); rewrite E in H; clear E
  | H : fail ?e ?sg ?s = _ |- _ =>
      let E := fresh "E" in
      pose proof (fail_spec e sg s) as (? & E & ? & ?); rewrite E in H; clear E
  end.

Lemma signal_step_occupancy now u k (signal signal' : TrafficSignal F)
    (isec isec' : Intersection F) :
  signal_step now u k signal isec = Some (signal', isec') →
  (listed (at_pc signal) → direction signal ∈ active_directions isec) →
  intersection signal' = intersection signal ∧
  direction signal' = direction signal ∧
  (green_semaphore isec' + token (at_pc signal')
     = green_semaphore isec + token (at_pc signal))%nat ∧
  active_directions isec' ++ listing signal ≡ₚ active_directions isec ++ listing signal'.
Proof.
  unfold signal_step, listing, token, sleep, asleep.
  destruct signal as [d i st g y r c l p]; simpl.
  intros Hstep Hlisted.
  destruct p; simpl in *; try done.
  all: repeat (first [ case_match | progress simplify_option_eq ]); simplify_eq.
  all: step_facts; simplify_eq; simpl in *.
  all: try (split; [done|]; split; [done|]; split; [lia|]).
  all: try (repeat match goal with H : _ = _ |- _ => rewrite H end; done).
  all: try congruence.
  all: rewrite ?app_nil_r; try done.
  all: match goal with H : active_directions _ = _ |- _ => rewrite H end.
  all: specialize (Hlisted I).
  all: rewrite bool_decide_eq_true_2 by exact Hlisted.
  all: by apply remove_first_perm.
Qed.

(** Replacing the signal at position [i] changes the two counts by that
    signal's own share. *)
Lemma holders_insert k (sigs : list (TrafficSignal F)) i signal signal' :
  sigs !! i = Some signal →
  intersection signal' = intersection signal →
  (holders k (<[i:=signal']> sigs) + (if decide (intersection signal = k) then token (at_pc signal) else 0)
   = holders k sigs + (if decide (intersection signal = k) then token (at_pc signal') else 0))%nat.
Proof.
  intros Hi Hk. unfold holders, token.
  rewrite insert_take_drop by (by eapply lookup_lt_Some).
  rewrite <- (take_drop_middle sigs i signal Hi) at 3.
  rewrite !filter_app, !filter_cons, !length_app, Hk.
  destruct (decide (intersection signal = k)).
  - destruct (holding (at_pc signal)), (holding (at_pc signal')); simpl;
      repeat case_decide; simpl; try lia; naive_solver.
  - repeat case_decide; simpl; try lia; naive_solver.
Qed.

Lemma listed_directions_insert k (sigs : list (TrafficSignal F)) i signal signal' :
  sigs !! i = Some signal →
  intersection signal' = intersection signal →
  direction signal' = direction signal →
  listed_directions k (<[i:=signal']> sigs)
    ++ (if decide (intersection signal = k) then listing signal else [])
  ≡ₚ listed_directions k sigs
    ++ (if decide (intersection signal = k) then listing signal' else []).
Proof.
  intros Hi Hk Hd. unfold listed_directions, listing.
  rewrite insert_take_drop by (by eapply lookup_lt_Some).
  rewrite <- (take_drop_middle sigs i signal Hi) at 3.
  rewrite !filter_app, !filter_cons, !fmap_app, Hk, Hd.
  destruct (decide (intersection signal = k)).
  - destruct (listed (at_pc signal)), (listed (at_pc signal')); simpl;
      repeat case_decide; simpl; rewrite ?app_nil_r; try naive_solver.
    all: rewrite ?fmap_cons, <- ?app_assoc, ?Hd; simpl; try done.
    all: f_equiv.
    + symmetry. apply Permutation_cons_append.
    + apply Permutation_cons_append.
  - repeat case_decide; simpl; rewrite ?app_nil_r; naive_solver.
Qed.

Lemma length_filter_impl {A} (P Q : A → Prop) `{∀ x, Decision (P x)} `{∀ x, Decision (Q x)}
    (l : list A) :
  (∀ x, P x → Q x) → (length (filter P l) ≤ length (filter Q l))%nat.
Proof.
  intros HPQ. induction l as [|x l IH]; [done|].
  rewrite !filter_cons. repeat case_decide; simpl; try lia. naive_solver.
Qed.

Lemma occupancy_bound (w : World F) isec :
  occupancy_invariant w → isec ∈ intersections (controller w) →
  (length (active_directions isec) ≤ 2)%nat.
Proof.
  intros Hinv [k Hk]%list_elem_of_lookup.
  destruct (Hinv k isec Hk) as [Hsem Hact].
  rewrite Hact. unfold listed_directions. rewrite length_fmap.
  etrans; [|by apply Nat.eq_le_incl, Hsem].
  etrans; [apply (length_filter_impl _ (λ s, intersection s = k ∧ holding (at_pc s)))|unfold holders; lia].
  intros s [? ?]. split; [done|]. by apply listed_holding.
Qed.



Lemma occupancy_preserved_invariant t t' (ctl ctl' : TrafficController F) :
  occupancy_preserved ctl ctl' →
  occupancy_invariant (mkWorld t ctl) → occupancy_invariant (mkWorld t' ctl').
Proof.
  intros [Hisec Hsig] Hinv k isec' Hk. simpl in *.
  destruct (Hisec k isec' Hk) as (isec & Hk0 & Hact & Hsem).
  destruct (Hinv k isec Hk0) as [? ?]. destruct (Hsig k) as [-> ->].
  rewrite Hact, Hsem. by split.
Qed.

Lemma occupancy_preserved_refl (ctl : TrafficController F) : occupancy_preserved ctl ctl.
Proof. split; [|done]. intros k isec Hk. exists isec. split; [done|apply same_occupancy_refl]. Qed.

Lemma signals_fmap_occupancy (f : TrafficSignal F → TrafficSignal F) sigs k :
  Forall (λ s, intersection (f s) = intersection s ∧ direction (f s) = direction s ∧
               holding (at_pc (f s)) = holding (at_pc s) ∧
               listed (at_pc (f s)) = listed (at_pc s)) sigs →
  holders k (f <$> sigs) = holders k sigs ∧
  listed_directions k (f <$> sigs) = listed_directions k sigs.
Proof.
  unfold holders, listed_directions.
  induction 1 as [|s sigs (Hi & Hd & Hh & Hl) _ [IH1 IH2]]; [done|].
  rewrite fmap_cons, !filter_cons, Hi, Hh, Hl.
  repeat case_decide; simpl; rewrite ?IH1, ?Hd.
  all: split; [done|]; first [exact IH2 | f_equal; exact IH2].
Qed.

Lemma log_all_occupancy event (l : list (Intersection F)) k isec' :
  log_all event l !! k = Some isec' →
  ∃ isec, l !! k = Some isec ∧ same_occupancy isec isec'.
Proof.
  unfold log_all. rewrite list_lookup_fmap.
  destruct (l !! k) as [isec|]; [|done]. intros [= <-].
  exists isec. split; [done|]. apply frames_log_event.
Qed.

Lemma unstarted_idle (p : pc F) : unstarted p = true → holding p = false ∧ listed p = false.
Proof. by destruct p. Qed.

Lemma start_occupancy (ctl ctl' : TrafficController F) :
  start ctl = Some ctl' → occupancy_preserved ctl ctl'.
Proof.
  unfold start. destruct (controller_running ctl).
  { intros [= <-]. apply occupancy_preserved_refl. }
  destruct (forallb _ _) eqn:Hall; [|done]. intros [= <-]. split; simpl.
  - apply log_all_occupancy.
  - intros k. apply signals_fmap_occupancy.
    apply Forall_forall. intros s Hs.
    rewrite forallb_forall in Hall. specialize (Hall s).
    destruct (unstarted_idle (at_pc s)) as [-> ->]; [|done].
    apply Hall. by apply list_elem_of_In.
Qed.

Lemma stop_occupancy (ctl : TrafficController F) :
  occupancy_preserved ctl (TrafficController_stop ctl).
Proof.
  unfold TrafficController_stop. destruct (controller_running ctl); simpl.
  - split; simpl; [apply log_all_occupancy|].
    intros k. apply signals_fmap_occupancy. by apply Forall_forall.
  - apply occupancy_preserved_refl.
Qed.

Lemma on_intersection_occupancy {A} i (m : M (Intersection F) A) ctl :
  frames m → occupancy_preserved ctl (outcome (on_intersection i m ctl)).
Proof.
  intros Hm. unfold on_intersection.
  destruct (intersections ctl !! i) as [isec|] eqn:Hi; [|apply occupancy_preserved_refl].
  specialize (Hm isec).
  assert (∀ isec', same_occupancy isec isec' →
            occupancy_preserved ctl (set_intersections (<[i:=isec']> (intersections ctl)) ctl))
    as Hset.
  { intros isec' Hsame. split; [|done]. simpl. intros k isec'' Hk.
    destruct (decide (i = k)) as [<-|Hne].
    - rewrite list_lookup_insert_eq in Hk by (by eapply lookup_lt_Some).
      injection Hk as <-. by exists isec.
    - rewrite list_lookup_insert_ne in Hk by done.
      exists isec''. split; [done|apply same_occupancy_refl]. }
  destruct (m isec); simpl in *; by apply Hset.
Qed.

Lemma run_occupancy (w : World F) i u k signal isec signal' isec' :
  occupancy_invariant w →
  signals (controller w) !! i = Some signal →
  intersections (controller w) !! intersection signal = Some isec →
  signal_step (clock w) u k signal isec = Some (signal', isec') →
  occupancy_invariant
    (mkWorld (clock w)
       (mkTrafficController
          (<[intersection signal := isec']> (intersections (controller w)))
          (<[i := signal']> (signals (controller w)))
          (controller_running (controller w)))).
Proof.
  intros Hinv Hsig Hisec Hstep.
  destruct (Hinv _ _ Hisec) as [Hsem0 Hact0].
  destruct (signal_step_occupancy _ _ _ _ _ _ _ Hstep) as (Hi & Hd & Hsem & Hact).
  { intros Hl. rewrite Hact0. unfold listed_directions.
    apply list_elem_of_fmap. exists signal. split; [done|].
    apply list_elem_of_filter. split; [done|]. by eapply list_elem_of_lookup_2. }
  intros k0 isec0 Hk0. simpl in *.
  pose proof (holders_insert k0 _ _ _ _ Hsig Hi) as Hh.
  pose proof (listed_directions_insert k0 _ _ _ _ Hsig Hi Hd) as Hl.
  destruct (decide (intersection signal = k0)) as [<-|Hne].
  - rewrite list_lookup_insert_eq in Hk0 by (by eapply lookup_lt_Some).
    injection Hk0 as <-. split; [lia|].
    apply (Permutation_app_inv_r (listing signal)).
    rewrite Hact, Hact0. by symmetry.
  - rewrite list_lookup_insert_ne in Hk0 by done.
    destruct (Hinv _ _ Hk0) as [? Hact1]. split; [lia|].
    rewrite Hact1. rewrite !app_nil_r in Hl. by symmetry.
Qed.

Lemma exec_occupancy a (w w' : World F) :
  occupancy_invariant w → exec a w = Some w' → occupancy_invariant w'.
Proof.
  intros Hinv. destruct w as [t ctl]. destruct a; simpl.
  - case_match; [done|]. intros [= <-]. done.
  - intros Hrun. simplify_option_eq.
    match goal with H : signal_step _ _ _ _ _ = Some ?p |- _ => destruct p end.
    simplify_eq. by eapply (run_occupancy (mkWorld t ctl)).
  - destruct (start ctl) as [ctl'|] eqn:Hstart; [|done]. intros [= <-].
    eapply occupancy_preserved_invariant; [by apply start_occupancy|done].
  - intros [= <-].
    eapply occupancy_preserved_invariant; [apply stop_occupancy|done].
  - intros [= <-].
    eapply occupancy_preserved_invariant; [|done].
    unfold trigger_emergency. case_bool_decide; [|apply occupancy_preserved_refl].
    apply on_intersection_occupancy, frames_add_emergency_vehicle.
  - intros [= <-].
    eapply occupancy_preserved_invariant; [|done].
    unfold TrafficController_update_traffic_density.
    case_bool_decide; [|apply occupancy_preserved_refl].
    apply on_intersection_occupancy, frames_update_traffic_density.
Qed.

Lemma initial_occupancy (w : World F) : initial w → occupancy_invariant w.
Proof.
  intros [Hisec Hsig] k isec Hk.
  rewrite Forall_forall in Hisec.
  destruct (Hisec isec) as [id ->]; [by eapply list_elem_of_lookup_2|].
  assert (∀ (P : pc F → bool), P Unstarted = false →
            filter (λ s : TrafficSignal F, intersection s = k ∧ P (at_pc s))
                   (signals (controller w)) = []) as Hnone.
  { intros P HP. induction Hsig as [|s l (d & i & g & y & t & ->) _ IH]; [done|].
    rewrite filter_cons. simpl. rewrite HP. case_decide; [naive_solver|done]. }
  unfold holders, listed_directions. rewrite !Hnone by done. done.
Qed.

Lemma reachable_occupancy (w : World F) : reachable w → occupancy_invariant w.
Proof.
  induction 1 as [w Hinit|w a w' _ IH Hexec].
  - by apply initial_occupancy.
  - by eapply exec_occupancy.
Qed.

(** Release discipline, where it holds: once no thread of an intersection is
    between its [acquire] and its [release] (all of them wait, sleep in RED,
    or have left their loop on [self.running] being false), nothing is left
    in [active_directions] and both capacity tokens are back. *)
Lemma idle_threads_leave_nothing_held (w : World F) k (isec : Intersection F) :
  reachable w →
  intersections (controller w) !! k = Some isec →
  Forall (λ s, intersection s = k → holding (at_pc s) = false) (signals (controller w)) →
  active_directions isec = [] ∧ green_semaphore isec = 2%nat.
Proof.
  intros Hreach Hk Hidle.
  destruct (reachable_occupancy w Hreach k isec Hk) as [Hsem Hact].
  assert (∀ (P : pc F → bool) (l : list (TrafficSignal F)),
            (∀ p, P p → holding p) →
            Forall (λ s, intersection s = k → holding (at_pc s) = false) l →
            filter (λ s : TrafficSignal F, intersection s = k ∧ P (at_pc s)) l = []) as Hnone.
  { intros P l HP. induction 1 as [|s l Hs _ IH]; [done|].
    rewrite filter_cons. case_decide as Hc; [|exact IH].
    destruct Hc as [Hi HPs]. apply HP in HPs. rewrite (Hs Hi) in HPs. done. }
  unfold holders in Hsem. unfold listed_directions in Hact.
  rewrite (Hnone holding) in Hsem by done.
  rewrite (Hnone listed) in Hact by (done || apply listed_holding).
  split; [by apply Permutation_nil_r|simpl in Hsem; lia].
Qed.

End Occupancy.

(** ** Admission control *)

Section Admission.
Context {F : Type} `{PyFloat F}.
Implicit Types (direction : string).

Lemma set_emergency_queue_same (self : Intersection F) :
  set_emergency_queue (emergency_queue self) self = self.
Proof. by destruct self. Qed.

(** With no two requests queued at the same instant, the peek returns
    normally: [None] on an empty queue, otherwise the request at the head of
    the queue unless that one is handled. *)
Lemma has_emergency_vehicle_ok (self : Intersection F) :
  distinct_priorities (emergency_queue self) →
  ∃ self',
    has_emergency_vehicle self
      = Returned (match emergency_queue self !! 0%nat with
                  | Some head => if handled head.2 then None else Some head.2
                  | None => None
                  end) self' ∧
    same_occupancy self self' ∧ stats self' = stats self.
Proof.
  intros Hd. apply distinct_priorities_comparable in Hd as HU.
  unfold has_emergency_vehicle, try_except, on_queue, zoom.
  unfold mbind, M_bind, bind, mret, M_ret, ret. cbv beta.
  destruct (emergency_queue self) as [|first rest] eqn:Hq.
  { simpl. rewrite <- Hq, set_emergency_queue_same.
    exists self. split; [done|]. split; [apply same_occupancy_refl|done]. }
  destruct (get_nowait_ok (first :: rest)) as (item & heap1 & -> & Hitem & Hsub); [done..|].
  cbv beta iota. cbn [emergency_queue set_emergency_queue].
  destruct (heappush_ok item heap1) as (heap2 & Hpush & _).
  { intros a b Ha Hb. apply HU.
    - apply elem_of_cons in Ha as [->|Ha]; [by eapply list_elem_of_lookup_2|by apply Hsub].
    - apply elem_of_cons in Hb as [->|Hb]; [by eapply list_elem_of_lookup_2|by apply Hsub]. }
  injection Hitem as <-.
  change ((first :: rest) !! 0%nat) with (Some first).
  unfold put. destruct first as [priority emergency]. simpl in *. rewrite Hpush.
  cbv beta iota. eexists. split; [reflexivity|]. by split.
Qed.

Lemma pending_head (self : Intersection F) (head : entry F) :
  emergency_queue self !! 0%nat = Some head → handled head.2 = false → pending self head.2.
Proof.
  intros Hhead Hh. split; [|done].
  apply list_elem_of_fmap. exists head. split; [done|]. by eapply list_elem_of_lookup_2.
Qed.

(** C5, as the code has it.  With no two requests queued at the same instant and no pending
    emergency for a different direction, [can_proceed] on a direction one of
    whose conflicting directions is active returns [False] and adds exactly
    one to [deadlock_preventions]; [active_directions] stays as it is. *)
Theorem can_proceed_denies_on_conflict (self : Intersection F) direction
    (check_emergency : bool) (conflict : string) :
  distinct_priorities (emergency_queue self) →
  (∀ emergency, pending self emergency → ev_direction emergency = direction) →
  conflict ∈ get_conflicting_directions direction →
  conflict ∈ active_directions self →
  ∃ self',
    can_proceed direction check_emergency self = Returned false self' ∧
    deadlock_preventions (stats self') = deadlock_preventions (stats self) + 1 ∧
    active_directions self' = active_directions self.
Proof.
  intros Hd Hnone Hconf Hact.
  assert (∀ self1 : Intersection F,
            same_occupancy self self1 → stats self1 = stats self →
            existsb (λ c, bool_decide (c ∈ active_directions self1))
                    (get_conflicting_directions direction) = true) as Hhit.
  { intros self1 [Ha _] _. apply existsb_exists. exists conflict.
    split; [by apply list_elem_of_In|]. rewrite Ha. by apply bool_decide_eq_true_2. }
  unfold can_proceed. destruct check_emergency.
  - destruct (has_emergency_vehicle_ok self Hd) as (self1 & Hpeek & Hsame & Hstats).
    unfold mbind, M_bind, bind, mret, M_ret, ret, get_state, modify. rewrite Hpeek.
    assert (match
              match emergency_queue self !! 0%nat with
              | Some head => if handled head.2 then None else Some head.2
              | None => None
              end
            with
            | Some emergency => bool_decide (ev_direction emergency ≠ direction)
            | None => false
            end = false) as ->.
    { destruct (emergency_queue self !! 0%nat) as [head|] eqn:Hhead; [|done].
      destruct (handled head.2) eqn:Hh; [done|].
      apply bool_decide_eq_false_2. intros Hne. apply Hne, Hnone. by apply pending_head. }
    cbv beta iota zeta. rewrite (Hhit self1 Hsame Hstats).
    eexists. split; [reflexivity|]. simpl. rewrite Hstats. split; [done|]. apply Hsame.
  - unfold mbind, M_bind, bind, mret, M_ret, ret, get_state, modify.
    cbv beta iota zeta. rewrite (Hhit self (same_occupancy_refl _) eq_refl).
    eexists. split; [reflexivity|]. by split.
Qed.

(** C2, as the code has it.  While the request at the head of the
    emergency queue is unhandled and for a direction other than the one
    asking, and no two requests were queued at the same instant,
    [can_proceed] returns [False] and changes neither who occupies the
    intersection nor the statistics. *)
Theorem can_proceed_waits_for_emergency (self : Intersection F)
    (priority : F) (emergency : EmergencyVehicle F) (direction : string) :
  distinct_priorities (emergency_queue self) →
  emergency_queue self !! 0%nat = Some (priority, emergency) →
  handled emergency = false →
  ev_direction emergency ≠ direction →
  ∃ self',
    can_proceed direction true self = Returned false self' ∧
    active_directions self' = active_directions self ∧
    green_semaphore self' = green_semaphore self ∧
    stats self' = stats self.
Proof.
  intros Hd Hhead Hh Hne.
  destruct (has_emergency_vehicle_ok self Hd) as (self1 & Hpeek & [Hact Hsem] & Hstats).
  unfold can_proceed, mbind, M_bind, bind, mret, M_ret, ret.
  rewrite Hpeek, Hhead. simpl. rewrite Hh, bool_decide_eq_true_2 by done.
  by exists self1.
Qed.

Lemma conflicting_directions_sym (d1 d2 : string) :
  d2 ∈ get_conflicting_directions d1 → d1 ∈ get_conflicting_directions d2.
Proof.
  unfold get_conflicting_directions.
  repeat case_decide; subst; intros Hin;
    repeat (apply elem_of_cons in Hin as [->|Hin]); try (by apply elem_of_nil in Hin);
    vm_compute; set_solver.
Qed.

Lemma not_self_conflicting (d : string) : d ∉ get_conflicting_directions d.
Proof.
  unfold get_conflicting_directions. repeat case_decide; subst; set_solver.
Qed.

(** A direction [can_proceed] lets through has no conflicting direction in
    [active_directions], which the call leaves as it is. *)
Lemma can_proceed_grant (self self' : Intersection F) direction (check_emergency : bool) :
  can_proceed direction check_emergency self = Returned true self' →
  active_directions self' = active_directions self ∧
  ∀ conflict, conflict ∈ get_conflicting_directions direction →
              conflict ∉ active_directions self.
Proof.
  intros Hcan.
  pose proof (frames_returned _ _ _ _ (frames_can_proceed direction check_emergency) Hcan)
    as [Hact _].
  split; [done|]. intros conflict Hconf Hin.
  unfold can_proceed, mbind, M_bind, bind, mret, M_ret, ret, get_state, modify in Hcan.
  assert (∀ self1 : Intersection F,
            active_directions self1 = active_directions self →
            existsb (λ c, bool_decide (c ∈ active_directions self1))
                    (get_conflicting_directions direction) = false → False) as Hmiss.
  { intros self1 Hact1 Hex. apply not_true_iff_false in Hex. apply Hex, existsb_exists.
    exists conflict. split; [by apply list_elem_of_In|].
    apply bool_decide_eq_true_2. by rewrite Hact1. }
  destruct check_emergency.
  - destruct (has_emergency_vehicle self) as [found self1|e self1] eqn:Hpeek; [|done].
    apply (frames_returned _ _ _ _ frames_has_emergency_vehicle) in Hpeek as [Hact1 _].
    cbv beta iota zeta in Hcan.
    repeat case_match; simplify_eq; by eapply Hmiss.
  - cbv beta iota zeta in Hcan.
    repeat case_match; simplify_eq; by eapply Hmiss.
Qed.

Lemma can_proceed_keeps_conflict_free (self self' : Intersection F) direction
    (check_emergency : bool) :
  can_proceed direction check_emergency self = Returned true self' →
  conflict_free (active_directions self) →
  conflict_free (active_directions self' ++ [direction]).
Proof.
  intros [-> Hnone]%can_proceed_grant Hfree d1 d2 Hd1 Hd2 Hconf.
  apply elem_of_app in Hd1 as [Hd1|Hd1]; apply elem_of_app in Hd2 as [Hd2|Hd2];
    rewrite ?list_elem_of_singleton in *; subst.
  - by apply (Hfree d1 d2).
  - destruct Hconf as [Hc|Hc]; [apply conflicting_directions_sym in Hc|]; by apply (Hnone d1).
  - destruct Hconf as [Hc|Hc]; [|apply conflicting_directions_sym in Hc]; by apply (Hnone d2).
  - destruct Hconf as [Hc|Hc]; by apply not_self_conflicting in Hc.
Qed.

End Admission.

(** ** The claims on whole runs *)

Section Runs.
Context {F : Type} `{PyFloat F}.

Lemma run_trace_reachable trace (w w' : World F) :
  reachable w → run_trace trace w = Some w' → reachable w'.
Proof.
  revert w. induction trace as [|a trace IH]; intros w Hw; simpl.
  - by intros [= <-].
  - destruct (exec a w) as [w1|] eqn:Hexec; [|done]. simpl.
    apply IH. by eapply reachable_step.
Qed.

(** A thread that [can_proceed] refused is not in the intersection three
    steps later. *)
Lemma refused_thread_is_not_passing (signal signal' : TrafficSignal F) isec isec'
    (start_wait green_time t2 t3 t4 u : F) (k : Z) :
  at_pc signal = WaitTimeout start_wait →
  run_alone [t2; t3; t4] u k signal isec = Some (signal', isec') →
  at_pc signal' ≠ GreenPassing green_time.
Proof.
  intros Hpc Hrun Hpass. cbn [run_alone] in Hrun.
  destruct (signal_step t2 u k signal isec) as [[s2 i2]|] eqn:H2; [|done].
  cbn [mbind option_bind] in Hrun.
  destruct (signal_step t3 u k s2 i2) as [[s3 i3]|] eqn:H3; [|done].
  cbn [mbind option_bind] in Hrun.
  destruct (signal_step t4 u k s3 i3) as [[s4 i4]|] eqn:H4; [|done].
  cbn [mbind option_bind] in Hrun. injection Hrun as -> ->.
  unfold signal_step in H2. rewrite Hpc in H2. unfold log_event, modify in H2.
  destruct (fgt _ _).
  - injection H2 as <- <-.
    unfold signal_step in H3. cbn [at_pc goto] in H3.
    destruct (get_adaptive_green_time _ _ _) as [g j3|e j3].
    + injection H3 as <- <-. unfold signal_step in H4. cbn [at_pc goto set_state] in H4.
      destruct (acquire j3); [|done]. cbn [mbind option_bind] in H4.
      injection H4 as <- <-. done.
    + injection H3 as <- <-. unfold signal_step in H4. by cbn [at_pc goto] in H4.
  - injection H2 as <- <-.
    unfold signal_step, asleep in H3. cbn [at_pc goto] in H3.
    destruct (flt t3 _); [done|]. injection H3 as <- <-.
    unfold signal_step in H4. cbn [at_pc goto] in H4. injection H4 as <- <-.
    cbn [at_pc goto running] in Hpass. by destruct (running signal).
Qed.

(** A thread at the [can_proceed] of [wait_for_turn] that is at its
    [vehicles_passed] four steps later, no other thread having moved: it was
    let through, and [enter_intersection] has appended its direction to the
    list [can_proceed] checked. *)
Lemma granted_thread_appends (signal signal' : TrafficSignal F) isec isec'
    (start_wait green_time t1 t2 t3 t4 u : F) (k : Z) :
  at_pc signal = WaitPoll start_wait →
  run_alone [t1; t2; t3; t4] u k signal isec = Some (signal', isec') →
  at_pc signal' = GreenPassing green_time →
  (∃ granted, can_proceed (direction signal) true isec = Returned true granted) ∧
  active_directions isec' = active_directions isec ++ [direction signal].
Proof.
  intros Hpc Hrun Hpass. cbn [run_alone] in Hrun.
  destruct (signal_step t1 u k signal isec) as [[s1 i1]|] eqn:H1; [|done].
  cbn [mbind option_bind] in Hrun.
  assert (run_alone [t2; t3; t4] u k s1 i1 = Some (signal', isec')) as Hrest by exact Hrun.
  unfold signal_step in H1. rewrite Hpc in H1.
  destruct (can_proceed (direction signal) true isec) as [[|] granted|e granted] eqn:Hcan.
  - injection H1 as <- <-. clear Hrest.
    destruct (signal_step t2 u k _ _) as [[s2 i2]|] eqn:H2; [|done].
    cbn [mbind option_bind] in Hrun.
    destruct (signal_step t3 u k s2 i2) as [[s3 i3]|] eqn:H3; [|done].
    cbn [mbind option_bind] in Hrun.
    destruct (signal_step t4 u k s3 i3) as [[s4 i4]|] eqn:H4; [|done].
    cbn [mbind option_bind] in Hrun. injection Hrun as -> ->.
    apply can_proceed_grant in Hcan as Hgrant. destruct Hgrant as [Hact _].
    split; [by eexists|].
    unfold signal_step in H2. cbn [at_pc goto direction base_green_time] in H2.
    pose proof (frames_get_adaptive_green_time (direction signal) (base_green_time signal))
      as Hfr.
    destruct (get_adaptive_green_time _ _ _) as [g j2|e j2] eqn:Hgreen.
    + apply (frames_returned _ _ _ _ Hfr) in Hgreen as [Hact2 _]. injection H2 as <- <-.
      unfold signal_step in H3. cbn [at_pc goto set_state] in H3.
      destruct (acquire j2) as [j3|] eqn:Hacq; [|done].
      cbn [mbind option_bind] in H3. injection H3 as <- <-.
      unfold signal_step in H4. cbn [at_pc goto set_state direction] in H4.
      destruct (enter_locked_spec (direction signal) false j3) as (j4 & Henter & Hact4 & _).
      rewrite Henter in H4. injection H4 as <- <-.
      rewrite Hact4. f_equal.
      unfold acquire in Hacq. destruct (green_semaphore j2); [done|].
      injection Hacq as <-. cbn [active_directions set_green_semaphore].
      rewrite Hact2. cbn [active_directions set_stats]. exact Hact.
    + injection H2 as <- <-. unfold signal_step in H3. by cbn [at_pc goto] in H3.
  - exfalso. injection H1 as <- <-.
    by eapply (refused_thread_is_not_passing (goto (WaitTimeout start_wait) signal)).
  - exfalso. injection H1 as <- <-. clear Hrest.
    unfold signal_step in Hrun. by cbn [at_pc goto] in Hrun.
Qed.

(** C1, as the code has it.  In every reachable state every intersection has
    at most two directions in [active_directions], whichever way they were
    admitted.  A direction that [can_proceed] lets through conflicts with no
    direction that is active at that call, so appending it to a list free of
    conflicting pairs leaves it free of them; and when the thread that was
    let through goes on to [enter_intersection] with no other thread moving
    in between, [active_directions] is that list with the direction
    appended. *)
Theorem active_directions_bounded (w : World F) (isec : Intersection F) :
  reachable w →
  isec ∈ intersections (controller w) →
  (length (active_directions isec) ≤ 2)%nat ∧
  (∀ direction check_emergency isec',
     can_proceed direction check_emergency isec = Returned true isec' →
     conflict_free (active_directions isec) →
     conflict_free (active_directions isec' ++ [direction])) ∧
  (∀ (signal signal' : TrafficSignal F) isec'
     (start_wait green_time t1 t2 t3 t4 u : F) (k : Z),
     at_pc signal = WaitPoll start_wait →
     run_alone [t1; t2; t3; t4] u k signal isec = Some (signal', isec') →
     at_pc signal' = GreenPassing green_time →
     conflict_free (active_directions isec) →
     active_directions isec' = active_directions isec ++ [direction signal] ∧
     conflict_free (active_directions isec')).
Proof.
  intros Hreach Hin. split; [|split].
  - eapply occupancy_bound; [by apply reachable_occupancy|done].
  - intros direction check_emergency isec'. apply can_proceed_keeps_conflict_free.
  - intros signal signal' isec' start_wait green_time t1 t2 t3 t4 u k Hpc Hrun Hpass Hfree.
    destruct (granted_thread_appends _ _ _ _ _ _ _ _ _ _ _ _ Hpc Hrun Hpass)
      as [[granted Hcan] Hact].
    split; [done|]. rewrite Hact.
    apply can_proceed_grant in Hcan as Hgrant. destruct Hgrant as [Hsame _].
    rewrite <- Hsame. by eapply can_proceed_keeps_conflict_free.
Qed.

End Runs.

Lemma initial_one_intersection : initial one_intersection.
Proof.
  split; simpl.
  - repeat constructor. by eexists.
  - repeat constructor; by eexists _, _, _, _, _.
Qed.

Lemma initial_negative_yellow : initial negative_yellow.
Proof.
  split; simpl.
  - repeat constructor. by eexists.
  - repeat constructor; by eexists _, _, _, _, _.
Qed.

Lemma conflicting_EAST_NORTH : @conflicting "EAST" "NORTH".
Proof. left. vm_compute. set_solver. Qed.

Ltac run_to_world trace start Hinit :=
  let w := fresh "w" in
  let Hrun := fresh "Hrun" in
  let Hreach := fresh "Hreach" in
  destruct (run_trace trace start) as [w|] eqn:Hrun; [|by vm_compute in Hrun];
  exists w;
  assert (reachable w) as Hreach
    by (eapply run_trace_reachable; [apply reachable_initial, Hinit|exact Hrun]);
  vm_compute in Hrun; injection Hrun as <-.

(** C1 as stated fails: a conflicting pair is active after a forced
    admission (EAST holds, NORTH times out and enters), after an emergency
    admission (NORTH holds, EAST enters for its emergency), through a forced
    admission again at clock [30.5] of the run in which every thread moves as
    soon as it can, and, with no timeout, no emergency and no refusal, when
    EAST is let through and enters between NORTH's [can_proceed] and its
    [enter_intersection]. *)
Lemma conflicting_pair_active :
  (∃ w isec, run_trace starved_trace one_intersection = Some w ∧ reachable w ∧
     intersections (controller w) = [isec] ∧
     active_directions isec = ["EAST"; "NORTH"] ∧ conflicting "EAST" "NORTH") ∧
  (∃ w isec, run_trace emergency_trace one_intersection = Some w ∧ reachable w ∧
     intersections (controller w) = [isec] ∧
     active_directions isec = ["NORTH"; "EAST"] ∧ conflicting "EAST" "NORTH") ∧
  (∃ w isec, run_trace on_time_trace one_intersection = Some w ∧ reachable w ∧
     clock w = 30.5%float ∧
     intersections (controller w) = [isec] ∧
     active_directions isec = ["WEST"; "NORTH"] ∧
     "⚠ NORTH timeout - forcing access" ∈ event_log isec ∧
     conflicting "WEST" "NORTH") ∧
  (∃ w isec, run_trace race_trace one_intersection = Some w ∧ reachable w ∧
     clock w = 0%float ∧
     intersections (controller w) = [isec] ∧
     active_directions isec = ["EAST"; "NORTH"] ∧
     emergency_queue isec = [] ∧
     deadlock_preventions (stats isec) = 0 ∧
     event_log isec = ["🚦 Traffic Control System STARTED"; "✓ EAST is now GREEN";
                       "✓ NORTH is now GREEN"] ∧
     conflicting "EAST" "NORTH").
Proof.
  split; [|split; [|split]].
  - run_to_world starved_trace one_intersection initial_one_intersection.
    eexists. split; [done|]. split; [exact Hreach|].
    split; [reflexivity|]. split; [reflexivity|apply conflicting_EAST_NORTH].
  - run_to_world emergency_trace one_intersection initial_one_intersection.
    eexists. split; [done|]. split; [exact Hreach|].
    split; [reflexivity|]. split; [reflexivity|apply conflicting_EAST_NORTH].
  - run_to_world on_time_trace one_intersection initial_one_intersection.
    eexists. split; [done|]. split; [exact Hreach|].
    split; [reflexivity|]. split; [reflexivity|]. split; [reflexivity|].
    split; [apply (bool_decide_unpack _); vm_compute; exact I|].
    apply (bool_decide_unpack _). vm_compute. exact I.
  - run_to_world race_trace one_intersection initial_one_intersection.
    eexists. split; [done|]. split; [exact Hreach|].
    do 6 (split; [reflexivity|]). apply conflicting_EAST_NORTH.
Qed.

Lemma active_directions_bounded_witness :
  ∃ w isec,
    run_trace east_green_trace one_intersection = Some w ∧
    intersections (controller w) = [isec] ∧
    active_directions isec = ["EAST"] ∧
    (length (active_directions isec) ≤ 2)%nat ∧
    conflict_free (["EAST"] ++ ["WEST"]) ∧
    ∃ signal' isec',
      run_alone [0%float; 0%float; 0%float; 0%float] 0%float 5 west_waiting isec
        = Some (signal', isec') ∧
      active_directions isec' = ["EAST"; "WEST"] ∧
      conflict_free (active_directions isec').
Proof.
  destruct (run_trace east_green_trace one_intersection) as [w|] eqn:Hrun;
    [|by vm_compute in Hrun].
  exists w.
  assert (reachable w) as Hreach
    by (eapply run_trace_reachable;
        [apply reachable_initial, initial_one_intersection|exact Hrun]).
  vm_compute in Hrun. injection Hrun as <-.
  eexists. split; [done|]. split; [reflexivity|]. split; [reflexivity|].
  match goal with
  | |- (length (active_directions ?isec) ≤ _)%nat ∧ _ =>
      destruct (active_directions_bounded _ isec Hreach) as (Hlen & Hgrant & Henter);
        [vm_compute; apply list_elem_of_here|];
      split; [exact Hlen|];
      assert (conflict_free (active_directions isec)) as Hfree
        by (apply (bool_decide_unpack _); vm_compute; exact I);
      split; [refine (Hgrant "WEST" true isec _ Hfree); vm_compute; reflexivity|];
      destruct (run_alone [0%float; 0%float; 0%float; 0%float] 0%float 5 west_waiting isec)
        as [[signal' isec']|] eqn:Hrun; [|by vm_compute in Hrun];
      exists signal', isec'; split; [reflexivity|];
      destruct (Henter west_waiting signal' isec' 0%float 2.5%float
                  0%float 0%float 0%float 0%float 0%float 5 eq_refl Hrun) as [Hact Hfree'];
        [by vm_compute in Hrun; injection Hrun as <- <-|exact Hfree|];
      split; [exact Hact|exact Hfree']
  end.
Defined.

(** C5 as stated fails on its example: WEST is EAST's opposing direction,
    not a conflicting one.  With EAST active and no emergency, [can_proceed]
    lets WEST through and counts nothing. *)
Lemma opposing_direction_is_admitted :
  active_directions east_active = ["EAST"] ∧
  emergency_queue east_active = [] ∧
  can_proceed "WEST" true east_active = Returned true east_active.
Proof. repeat split; vm_compute; reflexivity. Qed.

Lemma can_proceed_denies_on_conflict_witness :
  ∃ self',
    can_proceed "NORTH" true east_active = Returned false self' ∧
    deadlock_preventions (stats self') = deadlock_preventions (stats east_active) + 1 ∧
    active_directions self' = active_directions east_active.
Proof.
  apply (can_proceed_denies_on_conflict east_active "NORTH" true "EAST").
  - intros a b Ha. vm_compute in Ha. by apply elem_of_nil in Ha.
  - intros emergency [Hin _]. vm_compute in Hin. by apply elem_of_nil in Hin.
  - vm_compute. apply list_elem_of_here.
  - vm_compute. apply list_elem_of_here.
Defined.

(** C3 on the code.  With a request for EAST queued at clock [100] and one
    for WEST at clock [200], both unhandled, [has_emergency_vehicle] returns
    the WEST request, the later one; and once that one is marked handled it
    returns [None], although the EAST request is still unhandled in the
    queue. *)
Theorem has_emergency_vehicle_returns_latest :
  let west := mkEmergencyVehicle 1 "WEST" 1 200%float false in
  let east := mkEmergencyVehicle 0 "EAST" 1 100%float false in
  emergency_queue two_requests = [((-200)%float, west); ((-100)%float, east)] ∧
  has_emergency_vehicle two_requests = Returned (Some west) two_requests ∧
  emergency_queue (mark_handled 1 two_requests)
    = [((-200)%float, mkEmergencyVehicle 1 "WEST" 1 200%float true); ((-100)%float, east)] ∧
  has_emergency_vehicle (mark_handled 1 two_requests)
    = Returned None (mark_handled 1 two_requests).
Proof. repeat split; vm_compute; reflexivity. Qed.

Lemma can_proceed_waits_for_emergency_witness :
  ∃ self',
    can_proceed "NORTH" true two_requests = Returned false self' ∧
    active_directions self' = active_directions two_requests ∧
    green_semaphore self' = green_semaphore two_requests ∧
    stats self' = stats two_requests.
Proof.
  apply (can_proceed_waits_for_emergency two_requests (-200)%float
           (mkEmergencyVehicle 1 "WEST" 1 200%float false) "NORTH").
  - intros a b Ha Hb. vm_compute in Ha, Hb.
    apply elem_of_cons in Ha as [->|Ha]; apply elem_of_cons in Hb as [->|Hb];
      rewrite ?list_elem_of_singleton in *; subst; first [done | by vm_compute].
  - reflexivity.
  - reflexivity.
  - discriminate.
Defined.

(** C2 as stated fails.  An emergency is dispatched for EAST at clock [1]
    and one for WEST at clock [1.5]; every thread moves as soon as it can.
    The WEST thread services its request; from then on the EAST request,
    still unhandled in the queue, holds nobody back: WEST and then NORTH are
    admitted by the ordinary path, and [can_proceed] would let SOUTH
    through.  And with a single unhandled request for EAST, NORTH, refused
    by [can_proceed], enters all the same once its starvation timeout has
    expired. *)
Lemma admission_with_pending_emergency :
  (∃ w isec north,
     run_trace shadowed_emergency_trace one_intersection = Some w ∧
     reachable w ∧
     intersections (controller w) = [isec] ∧
     signals (controller w) !! NORTH = Some north ∧
     emergency_queue isec
       = [((-1.5)%float, mkEmergencyVehicle 1 "WEST" 1 1.5%float true);
          ((-1)%float, mkEmergencyVehicle 0 "EAST" 1 1%float false)] ∧
     "✓ WEST is now GREEN" ∈ event_log isec ∧
     active_directions isec = ["NORTH"] ∧
     state north = GREEN ∧
     can_proceed "SOUTH" true isec = Returned true isec) ∧
  (∃ w isec north,
     run_trace forced_past_emergency_trace one_intersection = Some w ∧
     reachable w ∧
     intersections (controller w) = [isec] ∧
     signals (controller w) !! NORTH = Some north ∧
     emergency_queue isec
       = [((-0)%float, mkEmergencyVehicle 0 "EAST" 1 0%float false)] ∧
     "⚠ NORTH timeout - forcing access" ∈ event_log isec ∧
     active_directions isec = ["NORTH"] ∧
     state north = GREEN).
Proof.
  split.
  - run_to_world shadowed_emergency_trace one_intersection initial_one_intersection.
    eexists _, _. split; [done|]. split; [exact Hreach|].
    repeat split; first [reflexivity | apply (bool_decide_unpack _); vm_compute; exact I].
  - run_to_world forced_past_emergency_trace one_intersection initial_one_intersection.
    eexists _, _. split; [done|]. split; [exact Hreach|].
    repeat split; first [reflexivity | apply (bool_decide_unpack _); vm_compute; exact I].
Qed.

(** C4 on the code.  A signal built with [yellow_time = -1.0] is admitted,
    holds GREEN, and fails in [time.sleep(self.yellow_time)]; the [except]
    clause ends its loop.  Its direction is still in [active_directions] and
    its capacity token is still out, and the thread, being over, takes no
    further step: no release follows the admit. *)
Theorem failed_signal_never_releases :
  ∃ w isec signal,
    run_trace failing_trace negative_yellow = Some w ∧
    reachable w ∧
    intersections (controller w) = [isec] ∧
    signals (controller w) = [signal] ∧
    at_pc signal = Failed Yellow ∧
    active_directions isec = ["NORTH"] ∧
    green_semaphore isec = 1%nat ∧
    total_cycles (stats isec) = 1 ∧
    ∀ now u k isec', signal_step now u k signal isec' = None.
Proof.
  run_to_world failing_trace negative_yellow initial_negative_yellow.
  eexists _, _. split; [done|]. split; [exact Hreach|].
  repeat split; reflexivity.
Qed.

(** * Further properties: the methods of [Intersection] *)

Section Methods.
Context {F : Type} `{PyFloat F}.
Implicit Types (self isec : Intersection F) (direction : string).

(** X1.  [log_event] always returns.  The line of the event is the newest
    line of the log afterwards; the lines before it are those the log held,
    without the oldest when the log was full (100 lines); nothing else in
    the intersection changes.  (A line is kept as its text; the source puts
    the time of day in front of it.) *)
Theorem log_event_keeps_newest_lines self (event : string) :
  ∃ self',
    log_event event self = Returned () self' ∧
    last (event_log self') = Some event ∧
    event_log self' `suffix_of` event_log self ++ [event] ∧
    length (event_log self')
      = Nat.min (S (length (event_log self))) (Nat.max 100 (length (event_log self))) ∧
    set_event_log (event_log self) self' = self.
Proof.
  eexists. split; [reflexivity|]. cbn [event_log set_event_log].
  case_decide as Hlen.
  - rewrite last_snoc, length_app. cbn [length].
    split; [done|]. split; [done|]. split; [lia|by destruct self].
  - rewrite last_snoc, length_app, length_drop. cbn [length].
    split; [done|]. split; [|split; [lia|by destruct self]].
    exists (take 1 (event_log self)). by rewrite app_assoc, take_drop.
Qed.

Lemma conflicting_directions_table direction (other : string) :
  other ∈ get_conflicting_directions direction ↔
    (direction = "NORTH" ∨ direction = "SOUTH") ∧ (other = "EAST" ∨ other = "WEST") ∨
    (direction = "EAST" ∨ direction = "WEST") ∧ (other = "NORTH" ∨ other = "SOUTH").
Proof.
  unfold get_conflicting_directions.
  repeat case_decide; subst; rewrite ?elem_of_cons, ?elem_of_nil; naive_solver.
Qed.

(** X2.  The two direction tables agree.  For each of the four directions,
    the opposing direction is one of the four and its own opposing direction
    is the one started from, and the conflicting directions are exactly the
    two that are neither the direction itself nor its opposing one.  For any
    other string the opposing direction is the empty string and nothing
    conflicts.  Conflict is symmetric. *)
Theorem directions_tables_agree direction (other : string) :
  (direction ∈ four_directions →
     get_opposing_direction direction ∈ four_directions ∧
     get_opposing_direction (get_opposing_direction direction) = direction ∧
     (other ∈ get_conflicting_directions direction ↔
        other ∈ four_directions ∧ other ≠ direction ∧
        other ≠ get_opposing_direction direction)) ∧
  (direction ∉ four_directions →
     get_opposing_direction direction = "" ∧ get_conflicting_directions direction = []) ∧
  (other ∈ get_conflicting_directions direction ↔
     direction ∈ get_conflicting_directions other).
Proof.
  split; [|split].
  - intros Hd. rewrite conflicting_directions_table. unfold four_directions in *.
    rewrite !elem_of_cons, !elem_of_nil in *.
    destruct Hd as [->|[->|[->|[->|[]]]]]; vm_compute get_opposing_direction;
      (split; [naive_solver|]); (split; [done|]); naive_solver.
  - intros Hd. unfold get_opposing_direction, get_conflicting_directions, four_directions in *.
    repeat case_decide; subst; try done; exfalso; apply Hd; set_solver.
  - rewrite !conflicting_directions_table. naive_solver.
Qed.

(** X3.  [get_adaptive_green_time] raises [KeyError], leaving the
    intersection as it was, exactly when the direction has no stored
    density.  On a freshly constructed intersection the four directions have
    density [0], so the call returns [base_time * (0.5 + 0 / 100.0)] for
    them and raises for every other string. *)
Theorem get_adaptive_green_time_missing_key self direction (base_time : F) :
  (traffic_density self !! direction = None ↔
     get_adaptive_green_time direction base_time self = Raised KeyError self) ∧
  ∀ id, let fresh : Intersection F := Intersection_init id in
    get_adaptive_green_time direction base_time fresh =
      if bool_decide (direction ∈ four_directions)
      then Returned
             (fmul base_time (fadd (fdec 1 2) (fdiv (float_of_int 0) (float_of_int 100))))
             fresh
      else Raised KeyError fresh.
Proof.
  split.
  - unfold get_adaptive_green_time, mbind, M_bind, bind, get_state.
    destruct (traffic_density self !! direction); split; done.
  - intros id fresh.
    unfold get_adaptive_green_time, mbind, M_bind, bind, get_state.
    case_bool_decide as Hd.
    + unfold four_directions in Hd. rewrite !elem_of_cons, elem_of_nil in Hd.
      destruct Hd as [->|[->|[->|[->|[]]]]]; reflexivity.
    + assert (traffic_density fresh !! direction = None) as ->; [|done].
      apply not_elem_of_list_to_map_1. rewrite <- list_fmap_compose.
      intros Hin. apply Hd. by rewrite list_fmap_id in Hin.
Qed.

Lemma remove_first_snoc_perm (x : string) (l : list string) : remove_first x (l ++ [x]) ≡ₚ l.
Proof.
  apply (Permutation_app_inv_r [x]). apply remove_first_perm. set_solver.
Qed.

Lemma remove_first_snoc_new (x : string) (l : list string) :
  x ∉ l → remove_first x (l ++ [x]) = l.
Proof.
  induction l as [|y l IH]; intros Hx; simpl.
  - by rewrite decide_True.
  - rewrite decide_False by set_solver. f_equal. apply IH. set_solver.
Qed.

(** X4.  Round trip.  With the semaphore above zero, [enter_intersection]
    followed by [exit_intersection] for the same direction gives the
    semaphore its value back and leaves [active_directions] with the same
    directions: the same list when the direction was not active before, a
    reordering otherwise ([list.remove] takes out the first occurrence).
    [total_cycles] has grown by one, [emergency_responses] by one for an
    emergency entry, and queue and densities are untouched. *)
Theorem enter_then_exit_restores self direction (is_emergency : bool) :
  (0 < green_semaphore self)%nat →
  ∃ self1 self2,
    enter_intersection direction is_emergency self = Some (Returned () self1) ∧
    exit_intersection direction self1 = Returned () self2 ∧
    green_semaphore self2 = green_semaphore self ∧
    active_directions self2 ≡ₚ active_directions self ∧
    (direction ∉ active_directions self → active_directions self2 = active_directions self) ∧
    total_cycles (stats self2) = total_cycles (stats self) + 1 ∧
    emergency_responses (stats self2)
      = emergency_responses (stats self) + (if is_emergency then 1 else 0) ∧
    emergency_queue self2 = emergency_queue self ∧
    traffic_density self2 = traffic_density self.
Proof.
  intros Hsem. unfold enter_intersection, acquire.
  destruct (green_semaphore self) as [|n] eqn:Hn; [lia|]. simpl.
  destruct (enter_locked_spec direction is_emergency (set_green_semaphore n self))
    as (self1 & Henter & Hact1 & Hsem1).
  rewrite Henter. exists self1.
  destruct (exit_locked_spec direction self1) as (self1' & Hexit & Hact2 & Hsem2).
  exists (release self1').
  unfold exit_intersection, mbind, M_bind, bind, modify. rewrite Hexit.
  split; [done|]. split; [done|].
  rewrite Hact1 in Hact2. rewrite bool_decide_eq_true_2 in Hact2 by set_solver.
  simpl in Hact1, Hact2, Hsem1. simpl.
  split; [by rewrite Hsem2, Hsem1|].
  split; [rewrite Hact2; apply remove_first_snoc_perm|].
  split; [intros Hnew; rewrite Hact2; by apply remove_first_snoc_new|].
  revert Henter Hexit. clear.
  unfold enter_locked, exit_locked, mbind, M_bind, bind, modify, get_state, log_event, mret,
    M_ret, ret.
  destruct is_emergency; intros [= <-]; simpl;
    (rewrite bool_decide_eq_true_2 by set_solver); intros [= <-]; simpl; repeat split; lia.
Qed.

Lemma enter_intersection_spec self direction (is_emergency : bool) (n : nat) :
  green_semaphore self = S n →
  ∃ self', enter_intersection direction is_emergency self = Some (Returned () self') ∧
    active_directions self' = active_directions self ++ [direction] ∧
    green_semaphore self' = n.
Proof.
  intros Hn. unfold enter_intersection, acquire. rewrite Hn. simpl.
  destruct (enter_locked_spec direction is_emergency (set_green_semaphore n self))
    as (self' & -> & Hact & Hsem).
  by exists self'.
Qed.

(** X5.  [enter_intersection] checks capacity and nothing else.  On a fresh
    intersection any two directions enter one after the other, whether they
    conflict or not, and a third call blocks on the semaphore. *)
Theorem capacity_is_all_enter_checks (id d1 d2 d3 : string) (e1 e2 e3 : bool) :
  let fresh : Intersection F := Intersection_init id in
  ∃ s1 s2,
    enter_intersection d1 e1 fresh = Some (Returned () s1) ∧
    enter_intersection d2 e2 s1 = Some (Returned () s2) ∧
    active_directions s2 = [d1; d2] ∧
    enter_intersection d3 e3 s2 = None.
Proof.
  intros fresh.
  destruct (enter_intersection_spec fresh d1 e1 1) as (s1 & Hs1 & Hact1 & Hsem1); [done|].
  destruct (enter_intersection_spec s1 d2 e2 0) as (s2 & Hs2 & Hact2 & Hsem2); [done|].
  exists s1, s2. split; [done|]. split; [done|]. split.
  - by rewrite Hact2, Hact1.
  - unfold enter_intersection, acquire. by rewrite Hsem2.
Qed.

(** X6.  [exit_intersection] always returns and always releases the
    semaphore, also for a direction that is not active, in which case
    nothing else changes.  The semaphore has no upper bound: after one such
    call on a fresh intersection three directions can enter. *)
Theorem exit_always_releases self direction :
  (∃ self',
     exit_intersection direction self = Returned () self' ∧
     green_semaphore self' = S (green_semaphore self) ∧
     (direction ∉ active_directions self →
        set_green_semaphore (green_semaphore self) self' = self)) ∧
  ∀ id d1 d2 d3,
    ∃ s0 s1 s2 s3,
      exit_intersection direction (Intersection_init id : Intersection F) = Returned () s0 ∧
      enter_intersection d1 false s0 = Some (Returned () s1) ∧
      enter_intersection d2 false s1 = Some (Returned () s2) ∧
      enter_intersection d3 false s2 = Some (Returned () s3) ∧
      active_directions s3 = [d1; d2; d3].
Proof.
  assert (∀ s : Intersection F, ∃ s1,
            exit_intersection direction s = Returned () (release s1) ∧
            green_semaphore s1 = green_semaphore s ∧
            (direction ∉ active_directions s → s1 = s)) as Hexit.
  { intros s. destruct (exit_locked_spec direction s) as (s1 & Hexit & Hact & Hsem).
    exists s1. unfold exit_intersection, mbind, M_bind, bind, modify. rewrite Hexit.
    split; [done|]. split; [done|]. intros Hnot. revert Hexit.
    unfold exit_locked, mbind, M_bind, bind, get_state, mret, M_ret, ret.
    rewrite bool_decide_eq_false_2 by done. by intros [= <-]. }
  split.
  - destruct (Hexit self) as (s1 & Hs1 & Hsem & Hsame). exists (release s1).
    split; [done|]. split; [simpl; by rewrite Hsem|].
    intros Hnot. rewrite (Hsame Hnot). by destruct self.
  - intros id d1 d2 d3.
    destruct (Hexit (Intersection_init id)) as (s0 & Hs0 & _ & Hsame).
    rewrite Hsame in Hs0 by (simpl; apply not_elem_of_nil).
    destruct (enter_intersection_spec (release (Intersection_init id)) d1 false 2)
      as (s1 & Hs1 & Hact1 & Hsem1); [done|].
    destruct (enter_intersection_spec s1 d2 false 1) as (s2 & Hs2 & Hact2 & Hsem2); [done|].
    destruct (enter_intersection_spec s2 d3 false 0) as (s3 & Hs3 & Hact3 & Hsem3); [done|].
    exists (release (Intersection_init id)), s1, s2, s3.
    repeat (split; [done|]). by rewrite Hact3, Hact2, Hact1.
Qed.

Lemma enter_locked_returns direction e isec :
  ∃ isec', enter_locked direction e isec = Returned () isec'.
Proof. destruct (enter_locked_spec direction e isec) as (isec' & -> & _). by eexists. Qed.

Lemma exit_locked_returns direction isec :
  ∃ isec', exit_locked direction isec = Returned () isec'.
Proof. destruct (exit_locked_spec direction isec) as (isec' & -> & _). by eexists. Qed.

Lemma ignores_ret {A} (a : A) : ignores_pedestrians (F:=F) (mret a).
Proof. done. Qed.

Lemma ignores_bind {A B} (m : M (Intersection F) A) (k : A → M (Intersection F) B) :
  ignores_pedestrians m → (∀ a, ignores_pedestrians (k a)) → ignores_pedestrians (m ≫= k).
Proof.
  intros Hm Hk flags self. unfold mbind, M_bind, bind. rewrite Hm.
  destruct (m self) as [a s|e s]; simpl; [apply Hk|done].
Qed.

Lemma ignores_try_except {A} (m h : M (Intersection F) A) e :
  ignores_pedestrians m → ignores_pedestrians h → ignores_pedestrians (try_except m e h).
Proof.
  intros Hm Hh flags self. unfold try_except. rewrite Hm.
  destruct (m self) as [a s|e' s]; simpl; [done|]. case_decide; [apply Hh|done].
Qed.

Lemma ignores_on_queue {A} (m : M (list (entry F)) A) : ignores_pedestrians (on_queue m).
Proof.
  intros flags self. unfold on_queue, zoom. simpl.
  by destruct (m (emergency_queue self)).
Qed.

Lemma ignores_has_emergency_vehicle : ignores_pedestrians (F:=F) has_emergency_vehicle.
Proof.
  apply ignores_try_except; [|apply ignores_ret].
  apply ignores_bind; [apply ignores_on_queue|]. intros item.
  apply ignores_bind; [apply ignores_on_queue|]. intros _. apply ignores_ret.
Qed.

Lemma ignores_can_proceed direction check :
  ignores_pedestrians (F:=F) (can_proceed direction check).
Proof.
  apply ignores_bind.
  { destruct check; [|apply ignores_ret].
    apply ignores_bind; [apply ignores_has_emergency_vehicle|]. intros; apply ignores_ret. }
  intros [|]; [apply ignores_ret|].
  intros flags self. unfold mbind, M_bind, bind, get_state. cbv zeta. simpl.
  destruct (existsb _ _); [done|]. repeat case_match; done.
Qed.

Lemma ignores_get_adaptive_green_time direction (base : F) :
  ignores_pedestrians (get_adaptive_green_time direction base).
Proof.
  intros flags self. unfold get_adaptive_green_time, mbind, M_bind, bind, get_state. simpl.
  by destruct (traffic_density self !! direction).
Qed.

Lemma ignores_enter_locked direction e : ignores_pedestrians (F:=F) (enter_locked direction e).
Proof. intros flags self. by destruct e. Qed.

Lemma ignores_exit_locked direction : ignores_pedestrians (F:=F) (exit_locked direction).
Proof.
  intros flags self. unfold exit_locked, mbind, M_bind, bind, get_state. simpl.
  by destruct (bool_decide _).
Qed.

Ltac split_calls s :=
  repeat match goal with
  | |- context [has_emergency_vehicle s] => destruct (has_emergency_vehicle s) as [[?|] ?|? ?]
  | |- context [enter_locked ?d ?e s] => destruct (enter_locked d e s)
  | |- context [exit_locked ?d s] => destruct (exit_locked d s)
  | |- context [can_proceed ?d ?c s] => destruct (can_proceed d c s) as [[|] ?|? ?]
  | |- context [get_adaptive_green_time ?d ?b s] => destruct (get_adaptive_green_time d b s)
  | |- context [green_semaphore s] => destruct (green_semaphore s)
  | |- context [sleep ?a ?b ?c] => destruct (sleep a b c)
  end.

(** X7.  [set_pedestrian_waiting] stores the flag for the direction, writes
    a log line when the flag is raised, and changes nothing else; and the
    flags are never read: whatever they hold, a signal thread takes the same
    step and leaves the intersection in the same state but for the flags. *)
Theorem pedestrian_flags_are_never_read self direction (waiting : bool)
    (now u : F) (k : Z) (signal : TrafficSignal F) :
  (∃ self',
     set_pedestrian_waiting direction waiting self = Returned () self' ∧
     pedestrian_waiting self' = <[direction := waiting]> (pedestrian_waiting self) ∧
     event_log self'
       = event_log (if waiting
                    then outcome (log_event ("🚶 Pedestrian waiting at " +:+ direction) self)
                    else self) ∧
     set_pedestrian_waiting_map (pedestrian_waiting self) (set_event_log (event_log self) self')
       = self) ∧
  ∀ flags,
    signal_step now u k signal (set_pedestrian_waiting_map flags self)
    = prod_map id (set_pedestrian_waiting_map flags) <$> signal_step now u k signal self.
Proof.
  split.
  { destruct waiting; eexists; (split; [reflexivity|]); simpl; repeat split; by destruct self. }
  intros flags. unfold signal_step, fail.
  destruct (at_pc signal); try done.
  all: rewrite ?ignores_has_emergency_vehicle, ?ignores_enter_locked, ?ignores_exit_locked,
         ?ignores_can_proceed, ?ignores_get_adaptive_green_time.
  all: unfold acquire; cbn [green_semaphore set_pedestrian_waiting_map].
  all: split_calls self.
  all: unfold log_event, modify; cbn [result_map]; try done.
  all: repeat case_match; done.
Qed.

End Methods.

Lemma enter_then_exit_restores_witness :
  let fresh : Intersection float := Intersection_init "Intersection-1" in
  ∃ self1 self2,
    enter_intersection "NORTH" false fresh = Some (Returned () self1) ∧
    exit_intersection "NORTH" self1 = Returned () self2 ∧
    green_semaphore self2 = 2%nat ∧
    active_directions self2 = [] ∧
    total_cycles (stats self2) = 1.
Proof.
  intros fresh.
  destruct (enter_then_exit_restores fresh "NORTH" false)
    as (self1 & self2 & Henter & Hexit & Hsem & _ & Hact & Hcycles & _); [simpl; lia|].
  exists self1, self2. split; [exact Henter|]. split; [exact Hexit|].
  split; [exact Hsem|]. split; [apply Hact, not_elem_of_nil|exact Hcycles].
Defined.

(** * Further properties: the emergency queue *)

Section Queue.
Context {F : Type} `{PyFloat F}.
Implicit Types (self isec : Intersection F) (direction : string)
  (heap : list (entry F)).

Lemma insert_cons_perm {A} (l : list A) (j : nat) (a b : A) :
  l !! j = Some b → b :: <[j:=a]> l ≡ₚ a :: l.
Proof.
  revert j. induction l as [|x l IH]; intros [|j] Hj; simplify_eq/=.
  - apply perm_swap.
  - rewrite (perm_swap x b), (IH j Hj). apply perm_swap.
Qed.

Lemma swap_perm i j heap : swap i j heap ≡ₚ heap.
Proof.
  unfold swap.
  destruct (heap !! i) as [a|] eqn:Hi; [|done].
  destruct (heap !! j) as [b|] eqn:Hj; [|done].
  destruct (decide (i = j)) as [->|Hne].
  { simplify_eq. rewrite list_insert_insert_eq. by rewrite list_insert_id. }
  apply (Permutation_cons_inv (a:=a)).
  rewrite (insert_cons_perm _ i b a).
  - by apply insert_cons_perm.
  - rewrite list_lookup_insert_ne by done. done.
Qed.

Lemma siftdown_loop_perm fuel startpos pos heap :
  outcome (siftdown_loop fuel startpos pos heap) ≡ₚ heap.
Proof.
  revert pos heap. induction fuel as [|fuel IH]; intros pos heap; cbn [siftdown_loop]; [done|].
  case_decide; [|done]. cbv zeta.
  destruct (heap !! pos) as [newitem|]; [|done].
  destruct (heap !! _) as [parent|]; [|done].
  destruct (entry_lt newitem parent) as [[|]|]; try done.
  rewrite IH. apply swap_perm.
Qed.

Lemma siftup_loop_perm fuel endpos pos heap :
  outcome (siftup_loop fuel endpos pos heap) ≡ₚ heap.
Proof.
  revert pos heap. induction fuel as [|fuel IH]; intros pos heap; cbn [siftup_loop]; [done|].
  cbv zeta. case_decide; [|done].
  case_decide; [|by rewrite IH, swap_perm].
  destruct (heap !! _) as [l|]; [|done].
  destruct (heap !! _) as [r|]; [|done].
  destruct (entry_lt l r) as [[|]|]; try done; by rewrite IH, swap_perm.
Qed.

Lemma siftdown_perm startpos pos heap : outcome (_siftdown startpos pos heap) ≡ₚ heap.
Proof. unfold _siftdown. case_decide; [apply siftdown_loop_perm|done]. Qed.

Lemma siftup_perm pos heap : outcome (_siftup pos heap) ≡ₚ heap.
Proof.
  unfold _siftup, mbind, M_bind, bind, get_state.
  pose proof (siftup_loop_perm (length heap) (length heap) pos heap) as Hup.
  destruct (siftup_loop _ _ _ _) as [leaf heap1|e heap1]; simpl in *; [|done].
  by rewrite siftdown_perm.
Qed.

(** The pushed item is in the list afterwards, also when a comparison
    raised. *)
Lemma heappush_perm item heap : outcome (heappush item heap) ≡ₚ item :: heap.
Proof.
  unfold heappush. rewrite siftdown_perm. by rewrite Permutation_app_comm.
Qed.

Lemma heappop_perm heap item heap' :
  heappop heap = Returned item heap' → item :: heap' ≡ₚ heap.
Proof.
  unfold heappop.
  destruct (decide (heap = [])) as [->|Hne]; [done|].
  destruct (exists_last Hne) as (front & lastelt & ->).
  rewrite last_snoc, removelast_last.
  destruct front as [|returnitem front].
  { intros [= <- <-]. done. }
  unfold mbind, M_bind, bind, mret, M_ret, ret.
  pose proof (siftup_perm 0 (<[0%nat:=lastelt]> (returnitem :: front))) as Hup.
  destruct (_siftup _ _) as [[] heap1|e heap1]; simpl in *; [|done].
  intros [= <- <-]. rewrite Hup. simpl. f_equiv. apply Permutation_cons_append.
Qed.

Lemma get_nowait_perm heap item heap' :
  get_nowait heap = Returned item heap' → item :: heap' ≡ₚ heap.
Proof. unfold get_nowait. destruct heap; [done|]. apply heappop_perm. Qed.

(** ** An item that compares below all others rises to the root *)

Lemma swap_lookup i j heap a b :
  heap !! i = Some a → heap !! j = Some b →
  swap i j heap !! i = Some b ∧ swap i j heap !! j = Some a ∧
  ∀ k, k ≠ i → k ≠ j → swap i j heap !! k = heap !! k.
Proof.
  intros Hi Hj. unfold swap. rewrite Hi, Hj.
  apply lookup_lt_Some in Hi as Hil. apply lookup_lt_Some in Hj as Hjl.
  split; [|split].
  - rewrite list_lookup_insert_eq; [done|]. by rewrite length_insert.
  - destruct (decide (i = j)) as [->|Hne].
    + rewrite list_lookup_insert_eq by (by rewrite length_insert). congruence.
    + rewrite list_lookup_insert_ne by done. by rewrite list_lookup_insert_eq.
  - intros k Hki Hkj. by rewrite !list_lookup_insert_ne.
Qed.

Lemma siftdown_loop_to_root fuel pos heap item :
  (pos ≤ fuel)%nat →
  heap !! pos = Some item →
  (∀ j other, j ≠ pos → heap !! j = Some other → entry_lt item other = Some true) →
  ∃ heap', siftdown_loop fuel 0 pos heap = Returned () heap' ∧
    heap' !! 0%nat = Some item ∧ heap' ≡ₚ heap.
Proof.
  revert pos heap. induction fuel as [|fuel IH]; intros pos heap Hfuel Hitem Hbelow.
  { assert (pos = 0%nat) as -> by lia. by exists heap. }
  cbn [siftdown_loop]. case_decide as Hpos; [|assert (pos = 0%nat) as -> by lia; by exists heap].
  cbv zeta. set (parentpos := ((pos - 1) / 2)%nat).
  assert (parentpos ≤ pos - 1)%nat as Hle by (apply Nat.Div0.div_le_upper_bound; lia).
  rewrite Hitem.
  destruct (lookup_lt_is_Some_2 heap parentpos) as [parent Hparent].
  { apply lookup_lt_Some in Hitem. lia. }
  rewrite Hparent, (Hbelow parentpos parent) by (done || lia).
  destruct (swap_lookup pos parentpos heap item parent Hitem Hparent) as (Hs1 & Hs2 & Hs3).
  destruct (IH parentpos (swap pos parentpos heap)) as (heap' & Hrun & Hroot & Hperm).
  - lia.
  - done.
  - intros j other Hj Hother. destruct (decide (j = pos)) as [->|Hjp].
    + rewrite Hs1 in Hother. injection Hother as <-. apply (Hbelow parentpos); [lia|done].
    + rewrite Hs3 in Hother by done. by apply (Hbelow j).
  - exists heap'. split; [done|]. split; [done|]. by rewrite Hperm, swap_perm.
Qed.

Lemma heappush_to_root item heap :
  (∀ other, other ∈ heap → entry_lt item other = Some true) →
  ∃ rest, heappush item heap = Returned () (item :: rest) ∧ rest ≡ₚ heap.
Proof.
  intros Hbelow. unfold heappush, _siftdown.
  rewrite decide_True by (rewrite length_app; simpl; lia).
  destruct (siftdown_loop_to_root (length heap) (length heap) (heap ++ [item]) item)
    as (heap' & -> & Hroot & Hperm).
  - done.
  - by rewrite lookup_app_r, Nat.sub_diag.
  - intros j other Hj Hother. apply Hbelow.
    destruct (decide (j < length heap)%nat).
    + rewrite lookup_app_l in Hother by done. by eapply list_elem_of_lookup_2.
    + apply lookup_lt_Some in Hother. rewrite length_app in Hother. simpl in Hother. lia.
  - destruct heap' as [|first rest]; [done|]. injection Hroot as ->.
    exists rest. split; [done|].
    apply (Permutation_cons_inv (a:=item)). rewrite Hperm. by rewrite Permutation_app_comm.
Qed.

Lemma add_emergency_vehicle_effect self direction (t_created t_queued : F) :
  let new := new_request self direction t_created t_queued in
  ∃ queue,
    queue ≡ₚ new :: emergency_queue self ∧
    let queued := set_emergency_queue queue (set_next_obj (S (next_obj self)) self) in
    (add_emergency_vehicle direction t_created t_queued self
       = Returned () (outcome (log_event
           ("🚨 EMERGENCY vehicle " +:+ pretty (emergency_responses (stats self) + 1)
            +:+ " approaching from " +:+ direction) queued)) ∨
     ∃ e, add_emergency_vehicle direction t_created t_queued self = Raised e queued).
Proof.
  intros new.
  unfold add_emergency_vehicle, mbind, M_bind, bind, get_state, modify, on_queue, zoom, put.
  cbn [emergency_queue set_next_obj].
  pose proof (heappush_perm new (emergency_queue self)) as Hperm.
  unfold new, new_request in *.
  destruct (heappush _ (emergency_queue self)) as [[] queue|e queue]; simpl in Hperm.
  - exists queue. split; [done|]. left. reflexivity.
  - exists queue. split; [done|]. right. by exists e.
Qed.

(** X8.  [add_emergency_vehicle] reads the vehicle's identifier off
    [emergency_responses], which only an emergency admission changes: two
    requests made one after the other are different objects with the same
    identifier.  Whether a call returns or raises, its request is in the
    queue afterwards and the statistics are as they were. *)
Theorem vehicle_id_is_shared self (d1 d2 : string) (t1 t1' t2 t2' : F) :
  let s1 := outcome (add_emergency_vehicle d1 t1 t1' self) in
  let s2 := outcome (add_emergency_vehicle d2 t2 t2' s1) in
  ∃ e1 e2,
    emergency_queue s2 ≡ₚ (fneg t2', e2) :: (fneg t1', e1) :: emergency_queue self ∧
    ev_direction e1 = d1 ∧ ev_direction e2 = d2 ∧
    ev_obj e1 ≠ ev_obj e2 ∧
    vehicle_id e1 = emergency_responses (stats self) + 1 ∧
    vehicle_id e2 = vehicle_id e1 ∧
    stats s2 = stats self.
Proof.
  intros s1 s2.
  destruct (add_emergency_vehicle_effect self d1 t1 t1') as (q1 & Hq1 & Hs1).
  assert (emergency_queue s1 = q1 ∧ stats s1 = stats self ∧ next_obj s1 = S (next_obj self))
    as (Hq & Hst & Hn).
  { unfold s1. destruct Hs1 as [->|[e ->]]; done. }
  destruct (add_emergency_vehicle_effect s1 d2 t2 t2') as (q2 & Hq2 & Hs2).
  assert (emergency_queue s2 = q2 ∧ stats s2 = stats s1) as (Hq' & Hst').
  { unfold s2. destruct Hs2 as [->|[e ->]]; done. }
  exists (new_request self d1 t1 t1').2, (new_request s1 d2 t2 t2').2. split.
  { rewrite Hq', Hq2, Hq, Hq1. reflexivity. }
  simpl. rewrite Hn, Hst. repeat split; try done; try lia. congruence.
Qed.

(** The peek: nothing is lost, only the queue changes, and a head that
    compares below all other entries is the head afterwards. *)
Lemma has_emergency_vehicle_peek self :
  distinct_priorities (emergency_queue self) →
  ∃ queue,
    has_emergency_vehicle self
      = Returned (match emergency_queue self !! 0%nat with
                  | Some head => if handled head.2 then None else Some head.2
                  | None => None
                  end) (set_emergency_queue queue self) ∧
    queue ≡ₚ emergency_queue self ∧
    (leads (emergency_queue self) →
       queue !! 0%nat = emergency_queue self !! 0%nat ∧ leads queue).
Proof.
  intros Hd. apply distinct_priorities_comparable in Hd as HU.
  unfold has_emergency_vehicle, try_except, on_queue, zoom.
  unfold mbind, M_bind, bind, mret, M_ret, ret. cbv beta.
  destruct (emergency_queue self) as [|first rest] eqn:Hq.
  { simpl. exists []. split; [done|]. split; [done|]. by intros _. }
  destruct (get_nowait_ok (first :: rest)) as (item & heap1 & Hget & Hitem & Hsub); [done..|].
  rewrite Hget. apply get_nowait_perm in Hget as Hperm1.
  cbv beta iota. cbn [emergency_queue set_emergency_queue].
  destruct (heappush_ok item heap1) as (heap2 & Hpush & _).
  { intros a b Ha Hb. apply HU.
    - apply elem_of_cons in Ha as [->|Ha]; [by eapply list_elem_of_lookup_2|by apply Hsub].
    - apply elem_of_cons in Hb as [->|Hb]; [by eapply list_elem_of_lookup_2|by apply Hsub]. }
  injection Hitem as <-.
  change ((first :: rest) !! 0%nat) with (Some first).
  pose proof (heappush_perm first heap1) as Hperm2.
  unfold put. destruct first as [priority emergency]. simpl in *. rewrite Hpush in *.
  cbv beta iota. exists heap2. simpl in *.
  split; [by destruct self|]. split; [by rewrite Hperm2|].
  intros Hleads.
  destruct (heappush_to_root (priority, emergency) heap1) as (rest' & Hpush' & Hrest').
  { intros other Hother. apply Hleads.
    apply Permutation_cons_inv in Hperm1. by rewrite <- Hperm1. }
  rewrite Hpush in Hpush'. injection Hpush' as ->.
  split; [done|]. intros other Hother. apply Hleads.
  apply Permutation_cons_inv in Hperm1. by rewrite <- Hperm1, <- Hrest'.
Qed.

(** X9.  With no two requests queued at the same clock reading,
    [has_emergency_vehicle] returns the vehicle at the head of the queue
    when it is not handled, and [None] when it is handled or the queue is
    empty.  The queue holds the same entries afterwards, nothing else in the
    intersection has changed, and a head that compares below all other
    entries is the head afterwards too. *)
Theorem has_emergency_vehicle_keeps_queue self :
  distinct_priorities (emergency_queue self) →
  ∃ self',
    has_emergency_vehicle self
      = Returned (match emergency_queue self !! 0%nat with
                  | Some head => if handled head.2 then None else Some head.2
                  | None => None
                  end) self' ∧
    emergency_queue self' ≡ₚ emergency_queue self ∧
    set_emergency_queue (emergency_queue self) self' = self ∧
    (leads (emergency_queue self) →
       emergency_queue self' !! 0%nat = emergency_queue self !! 0%nat ∧
       leads (emergency_queue self')).
Proof.
  intros Hd. destruct (has_emergency_vehicle_peek self Hd) as (queue & Hpeek & Hperm & Hleads).
  exists (set_emergency_queue queue self).
  split; [done|]. split; [done|]. split; [by destruct self|done].
Qed.

(** X10.  The queue is last in, first out.  A request whose entry compares
    below every queued entry, as one queued at a later clock reading does,
    goes to the head of the queue, and the next [has_emergency_vehicle]
    returns it, whatever was waiting before. *)
Theorem latest_request_is_seen_first self direction (t_created t_queued : F) :
  let new := new_request self direction t_created t_queued in
  distinct_priorities (emergency_queue self) →
  (∀ item, item ∈ emergency_queue self → entry_lt new item = Some true) →
  (∀ item, item ∈ emergency_queue self → is_Some (entry_lt item new)) →
  ∃ self1 self2 rest,
    add_emergency_vehicle direction t_created t_queued self = Returned () self1 ∧
    emergency_queue self1 = new :: rest ∧ rest ≡ₚ emergency_queue self ∧
    leads (emergency_queue self1) ∧
    distinct_priorities (emergency_queue self1) ∧
    has_emergency_vehicle self1 = Returned (Some new.2) self2 ∧
    emergency_queue self2 !! 0%nat = Some new ∧
    emergency_queue self2 ≡ₚ new :: emergency_queue self.
Proof.
  intros new Hd Hbelow Habove.
  destruct (heappush_to_root new (emergency_queue self) Hbelow) as (rest & Hpush & Hrest).
  set (self1 := outcome (log_event
         ("🚨 EMERGENCY vehicle " +:+ pretty (emergency_responses (stats self) + 1)
          +:+ " approaching from " +:+ direction)
         (set_emergency_queue (new :: rest) (set_next_obj (S (next_obj self)) self)))).
  assert (add_emergency_vehicle direction t_created t_queued self = Returned () self1) as Hadd.
  { unfold add_emergency_vehicle, mbind, M_bind, bind, get_state, modify, on_queue, zoom, put.
    cbn [emergency_queue set_next_obj]. unfold new, new_request in Hpush. by rewrite Hpush. }
  assert (leads (new :: rest)) as Hleads.
  { intros item Hitem. apply Hbelow. by rewrite <- Hrest. }
  assert (distinct_priorities (new :: rest)) as Hd1.
  { assert (∀ item, item ∈ rest → feq new.1 item.1 = false) as Hne.
    { intros item Hitem. rewrite Hrest in Hitem. specialize (Hbelow item Hitem).
      unfold entry_lt in Hbelow. destruct (feq new.1 item.1); [|done]. by case_decide. }
    intros a b Ha Hb Hab.
    apply elem_of_cons in Ha as [->|Ha]; apply elem_of_cons in Hb as [->|Hb].
    - done.
    - by rewrite (Hne b Hb) in Hab.
    - rewrite Hrest in Ha. destruct (Habove a Ha) as [r Hr].
      unfold entry_lt in Hr. rewrite Hab in Hr. by case_decide.
    - rewrite Hrest in Ha, Hb. by apply Hd. }
  destruct (has_emergency_vehicle_peek self1) as (queue2 & Hpeek & Hperm & Hhead); [done|].
  destruct (Hhead Hleads) as [Hhead' _].
  exists self1, (set_emergency_queue queue2 self1), rest.
  split; [exact Hadd|]. split; [done|]. split; [done|]. split; [done|]. split; [done|].
  split; [exact Hpeek|]. split; [done|].
  cbn [emergency_queue set_emergency_queue]. rewrite Hperm. simpl. by rewrite Hrest.
Qed.

Lemma put_equal_priority (a b : entry F) :
  feq a.1 b.1 = true → ev_obj a.2 ≠ ev_obj b.2 → put a [b] = Raised TypeError [b; a].
Proof.
  intros Hab Hobj. unfold put, heappush, _siftdown. cbn -[entry_lt].
  unfold entry_lt. rewrite Hab.
  by destruct (decide (ev_obj a.2 = ev_obj b.2)).
Qed.

(** Two entries of equal priority that are different objects: the peek pops
    the first, pushes it back behind the second, and the comparison of the
    two raises. *)
Lemma has_emergency_vehicle_equal_priorities self (a b : entry F) :
  emergency_queue self = [a; b] →
  feq a.1 b.1 = true → ev_obj a.2 ≠ ev_obj b.2 →
  has_emergency_vehicle self = Raised TypeError (set_emergency_queue [b; a] self).
Proof.
  intros Hq Hab Hobj.
  assert (get_nowait [a; b] = Returned a [b]) as Hget by reflexivity.
  assert (put (a.1, a.2) [b] = Raised TypeError [b; a]) as Hput.
  { destruct a. by apply put_equal_priority. }
  unfold has_emergency_vehicle, try_except, on_queue, zoom.
  unfold mbind, M_bind, bind, mret, M_ret, ret. rewrite Hq, Hget.
  cbn [emergency_queue set_emergency_queue]. rewrite Hput.
  rewrite decide_False by done. by destruct self.
Qed.

(** X11.  A request queued at the same clock reading as the one in the
    queue.  Ordering the two tuples falls through to the [EmergencyVehicle]
    objects, which have no order: [add_emergency_vehicle] raises
    [TypeError], with the request in the queue and no log line written.
    From then on every [has_emergency_vehicle] and every [can_proceed] that
    checks emergencies raises [TypeError], and a signal thread that makes
    either call is stopped by its [except] clause. *)
Theorem equal_priorities_raise_TypeError self direction (t_created t_queued : F)
    (queued : entry F) :
  let new := new_request self direction t_created t_queued in
  emergency_queue self = [queued] →
  feq new.1 queued.1 = true → feq queued.1 new.1 = true →
  ev_obj queued.2 ≠ next_obj self →
  ∃ self1,
    add_emergency_vehicle direction t_created t_queued self = Raised TypeError self1 ∧
    emergency_queue self1 = [queued; new] ∧
    event_log self1 = event_log self ∧
    ∀ isec,
      emergency_queue isec = [queued; new] ∨ emergency_queue isec = [new; queued] →
      ∃ isec',
        has_emergency_vehicle isec = Raised TypeError isec' ∧
        (emergency_queue isec' = [queued; new] ∨ emergency_queue isec' = [new; queued]) ∧
        (∀ d, can_proceed d true isec = Raised TypeError isec') ∧
        ∀ now u k (signal : TrafficSignal F),
          at_pc signal = HandleEmergency ∨ (∃ start_wait, at_pc signal = WaitPoll start_wait) →
          signal_step now u k signal isec = Some (fail TypeError signal isec').
Proof.
  intros new Hq Hnq Hqn Hobj.
  eexists. split; [|split; [|split]].
  - unfold add_emergency_vehicle, mbind, M_bind, bind, get_state, modify, on_queue, zoom.
    cbn [emergency_queue set_next_obj]. rewrite Hq.
    fold (new_request self direction t_created t_queued). fold new.
    rewrite (put_equal_priority new queued); [reflexivity|done|]. simpl. congruence.
  - done.
  - done.
  - intros isec Hisec.
    assert (ev_obj new.2 ≠ ev_obj queued.2) as Hobj' by (simpl; congruence).
    assert (∃ a b, emergency_queue isec = [a; b] ∧ feq a.1 b.1 = true ∧
              ev_obj a.2 ≠ ev_obj b.2 ∧
              (emergency_queue (set_emergency_queue [b; a] isec) = [queued; new] ∨
               emergency_queue (set_emergency_queue [b; a] isec) = [new; queued]))
      as (a & b & Hab & Hfeq & Hne & Hnext).
    { destruct Hisec as [Hi|Hi]; [exists queued, new|exists new, queued]; simpl; auto. }
    pose proof (has_emergency_vehicle_equal_priorities isec a b Hab Hfeq Hne) as Hpeek.
    exists (set_emergency_queue [b; a] isec).
    assert (∀ d, can_proceed d true isec = Raised TypeError (set_emergency_queue [b; a] isec))
      as Hcan.
    { intros d. unfold can_proceed, mbind, M_bind, bind. by rewrite Hpeek. }
    split; [done|]. split; [done|]. split; [exact Hcan|].
    intros now u k signal [Hpc|[start_wait Hpc]]; unfold signal_step; rewrite Hpc.
    + by rewrite Hpeek.
    + by rewrite Hcan.
Qed.

(** X12.  With no two requests queued at the same clock reading, no
    unhandled request for another direction and no conflicting direction
    active, [can_proceed] returns [True] exactly when the opposing direction
    is active or fewer than two directions are.  Either way the active
    directions, the semaphore and the statistics are as they were: a refusal
    for lack of room is not counted as a deadlock prevention. *)
Theorem can_proceed_grants_without_conflict self direction (check_emergency : bool) :
  distinct_priorities (emergency_queue self) →
  (∀ emergency, pending self emergency → ev_direction emergency = direction) →
  (∀ conflict, conflict ∈ get_conflicting_directions direction →
               conflict ∉ active_directions self) →
  ∃ self',
    can_proceed direction check_emergency self
      = Returned (bool_decide (get_opposing_direction direction ∈ active_directions self ∨
                               (length (active_directions self) < 2)%nat)) self' ∧
    same_occupancy self self' ∧ stats self' = stats self.
Proof.
  intros Hd Hnone Hfree.
  assert (∀ self1 : Intersection F,
            same_occupancy self self1 →
            existsb (λ c, bool_decide (c ∈ active_directions self1))
                    (get_conflicting_directions direction) = false) as Hmiss.
  { intros self1 [Ha _]. apply not_true_iff_false. intros Hex.
    apply existsb_exists in Hex as (c & Hc & Hin).
    apply bool_decide_eq_true_1 in Hin. rewrite Ha in Hin.
    by apply (Hfree c); [apply list_elem_of_In|]. }
  assert (∀ self1 : Intersection F,
            same_occupancy self self1 →
            (if bool_decide (get_opposing_direction direction ∈ active_directions self1)
             then true
             else if bool_decide (length (active_directions self1) = 0%nat) then true
             else if bool_decide (length (active_directions self1) < 2)%nat then true
             else false)
            = bool_decide (get_opposing_direction direction ∈ active_directions self ∨
                           (length (active_directions self) < 2)%nat)) as Hres.
  { intros self1 [-> _]. repeat case_bool_decide; try done; try lia; naive_solver lia. }
  unfold can_proceed. destruct check_emergency.
  - destruct (has_emergency_vehicle_ok self Hd) as (self1 & Hpeek & Hsame & Hstats).
    unfold mbind, M_bind, bind, mret, M_ret, ret, get_state, modify. rewrite Hpeek.
    assert (match
              match emergency_queue self !! 0%nat with
              | Some head => if handled head.2 then None else Some head.2
              | None => None
              end
            with
            | Some emergency => bool_decide (ev_direction emergency ≠ direction)
            | None => false
            end = false) as ->.
    { destruct (emergency_queue self !! 0%nat) as [head|] eqn:Hhead; [|done].
      destruct (handled head.2) eqn:Hh; [done|].
      apply bool_decide_eq_false_2. intros Hne. apply Hne, Hnone. by apply pending_head. }
    cbv beta iota zeta. rewrite (Hmiss self1 Hsame).
    exists self1. rewrite <- (Hres self1 Hsame). split; [by repeat case_match|done].
  - unfold mbind, M_bind, bind, mret, M_ret, ret, get_state, modify.
    cbv beta iota zeta. rewrite (Hmiss self (same_occupancy_refl _)).
    exists self. rewrite <- (Hres self (same_occupancy_refl _)).
    split; [by repeat case_match|]. split; [apply same_occupancy_refl|done].
Qed.

Lemma entry_lt_mark obj (a b : entry F) : entry_lt (mark_item obj a) (mark_item obj b) = entry_lt a b.
Proof. unfold entry_lt, mark_item. by repeat case_decide. Qed.

Lemma distinct_priorities_mark obj (queue : list (entry F)) :
  distinct_priorities queue → distinct_priorities (mark_item obj <$> queue).
Proof.
  intros Hd a b Ha Hb Hab.
  apply list_elem_of_fmap in Ha as (a0 & -> & Ha).
  apply list_elem_of_fmap in Hb as (b0 & -> & Hb).
  specialize (Hd a0 b0 Ha Hb). unfold mark_item in *. repeat case_decide; simpl in *; by apply Hd.
Qed.

Lemma distinct_priorities_perm (q q' : list (entry F)) :
  q ≡ₚ q' → distinct_priorities q → distinct_priorities q'.
Proof. intros Hp Hd a b Ha Hb. apply Hd; by rewrite Hp. Qed.

Lemma run_alone_cons now clocks (u : F) k (signal signal' : TrafficSignal F) isec isec' :
  signal_step now u k signal isec = Some (signal', isec') →
  run_alone (now :: clocks) u k signal isec = run_alone clocks u k signal' isec'.
Proof. intros Hstep. cbn [run_alone]. by rewrite Hstep. Qed.

(** X13.  A signal thread at [handle_emergency] that finds an unhandled
    request for its own direction at the head of the queue, with the
    semaphore above zero.  Left to run with no other thread moving in
    between, and woken when its 3 seconds have passed, it is back at the
    top of its loop after seven steps: the semaphore has its value back,
    the same directions are active, [total_cycles] and
    [emergency_responses] have grown by one each, and the request is marked
    handled in the queue, where it stays.  The signal's state still reads
    EMERGENCY.  If the request compared below all other entries, the next
    [has_emergency_vehicle] returns [None]. *)
Theorem emergency_is_serviced (signal : TrafficSignal F) isec
    (priority : F) (emergency : EmergencyVehicle F) (t1 t2 t3 t4 t5 t6 t7 u : F) (k : Z) :
  at_pc signal = HandleEmergency →
  distinct_priorities (emergency_queue isec) →
  emergency_queue isec !! 0%nat = Some (priority, emergency) →
  handled emergency = false →
  ev_direction emergency = direction signal →
  green_semaphore isec ≠ 0%nat →
  flt t4 (fadd t3 (float_of_int 3)) = false →
  ∃ signal' isec',
    run_alone [t1; t2; t3; t4; t5; t6; t7] u k signal isec = Some (signal', isec') ∧
    at_pc signal' = LoopTest ∧
    state signal' = EMERGENCY ∧
    green_semaphore isec' = green_semaphore isec ∧
    active_directions isec' ≡ₚ active_directions isec ∧
    total_cycles (stats isec') = total_cycles (stats isec) + 1 ∧
    emergency_responses (stats isec') = emergency_responses (stats isec) + 1 ∧
    emergency_queue isec' ≡ₚ emergency_queue (mark_handled (ev_obj emergency) isec) ∧
    (leads (emergency_queue isec) →
       ∃ isec'', has_emergency_vehicle isec' = Returned None isec'').
Proof.
  intros Hpc Hd Hhead Hh Hdir Hsem Hwake.
  destruct (has_emergency_vehicle_peek isec Hd) as (q1 & Hpeek & Hperm & Hleads).
  rewrite Hhead in Hpeek. simpl in Hpeek. rewrite Hh in Hpeek.
  destruct (green_semaphore isec) as [|n] eqn:Hn; [done|].
  destruct signal as [d i st g y r c l p]. simpl in Hpc, Hdir. subst p d.
  eexists _, _. split.
  { erewrite run_alone_cons; cycle 1.
    { unfold signal_step. cbn [at_pc direction]. rewrite Hpeek.
      rewrite bool_decide_eq_true_2 by done. rewrite Hh. reflexivity. }
    erewrite run_alone_cons; cycle 1.
    { unfold signal_step, acquire. cbn [at_pc goto set_state green_semaphore set_emergency_queue].
      rewrite Hn. reflexivity. }
    erewrite run_alone_cons; cycle 1.
    { unfold signal_step. cbn [at_pc goto set_state direction]. reflexivity. }
    erewrite run_alone_cons; cycle 1.
    { unfold signal_step, asleep. cbn [at_pc goto]. rewrite Hwake. reflexivity. }
    erewrite run_alone_cons; cycle 1.
    { unfold signal_step. cbn [at_pc goto]. reflexivity. }
    erewrite run_alone_cons; cycle 1.
    { unfold signal_step. cbn [at_pc goto direction].
      unfold exit_locked, mbind, M_bind, bind, modify, log_event, get_state, mret, M_ret, ret.
      cbn [active_directions mark_handled set_emergency_queue set_event_log set_stats
           set_active_directions set_green_semaphore].
      rewrite bool_decide_eq_true_2 by set_solver. reflexivity. }
    erewrite run_alone_cons; cycle 1.
    { unfold signal_step. cbn [at_pc goto]. reflexivity. }
    reflexivity. }
  cbn. repeat split.
  - apply remove_first_snoc_perm.
  - by rewrite Hperm.
  - intros Hl. destruct (Hleads Hl) as [Hhead1 Hl1].
    match goal with |- ∃ _, has_emergency_vehicle ?s = _ => set (isec' := s) end.
    destruct (has_emergency_vehicle_peek isec') as (q2 & Hpeek2 & _).
    { apply (distinct_priorities_mark (ev_obj emergency)).
      by apply (distinct_priorities_perm (emergency_queue isec)). }
    eexists. rewrite Hpeek2. f_equal.
    change (emergency_queue isec') with (mark_item (ev_obj emergency) <$> q1).
    rewrite list_lookup_fmap, Hhead1. unfold entry in *. rewrite Hhead. simpl. unfold mark_item.
    by rewrite decide_True.
Qed.

End Queue.

Lemma two_requests_distinct : distinct_priorities (emergency_queue two_requests).
Proof.
  intros a b Ha Hb. vm_compute in Ha, Hb.
  apply elem_of_cons in Ha as [->|Ha]; apply elem_of_cons in Hb as [->|Hb];
    rewrite ?list_elem_of_singleton in *; subst; first [done | by vm_compute].
Qed.

Lemma has_emergency_vehicle_keeps_queue_witness :
  ∃ self',
    has_emergency_vehicle two_requests
      = Returned (Some (mkEmergencyVehicle 1 "WEST" 1 200%float false)) self' ∧
    emergency_queue self' ≡ₚ emergency_queue two_requests.
Proof.
  destruct (has_emergency_vehicle_keeps_queue two_requests two_requests_distinct)
    as (self' & Hpeek & Hperm & _).
  exists self'. split; [exact Hpeek|exact Hperm].
Defined.

Lemma latest_request_is_seen_first_witness :
  ∃ self1 self2,
    add_emergency_vehicle "WEST" 200%float 200%float one_request = Returned () self1 ∧
    has_emergency_vehicle self1
      = Returned (Some (mkEmergencyVehicle 1 "WEST" 1 200%float false)) self2.
Proof.
  destruct (latest_request_is_seen_first one_request "WEST" 200%float 200%float)
    as (self1 & self2 & rest & Hadd & _ & _ & _ & _ & Hpeek & _).
  - intros a b Ha Hb. vm_compute in Ha, Hb.
    apply list_elem_of_singleton in Ha as ->. by apply list_elem_of_singleton in Hb as ->.
  - intros item Hitem. vm_compute in Hitem. by apply list_elem_of_singleton in Hitem as ->.
  - intros item Hitem. vm_compute in Hitem. apply list_elem_of_singleton in Hitem as ->.
    by eexists.
  - exists self1, self2. split; [exact Hadd|exact Hpeek].
Defined.

Lemma equal_priorities_raise_TypeError_witness :
  ∃ self1 self2,
    add_emergency_vehicle "WEST" 100%float 100%float one_request = Raised TypeError self1 ∧
    length (emergency_queue self1) = 2%nat ∧
    has_emergency_vehicle self1 = Raised TypeError self2 ∧
    can_proceed "NORTH" true self1 = Raised TypeError self2.
Proof.
  destruct (equal_priorities_raise_TypeError one_request "WEST" 100%float 100%float
              ((-100)%float, mkEmergencyVehicle 0 "EAST" 1 100%float false))
    as (self1 & Hadd & Hq & _ & Hnext); [reflexivity..|discriminate|].
  destruct (Hnext self1 (or_introl Hq)) as (self2 & Hpeek & _ & Hcan & _).
  exists self1, self2. split; [exact Hadd|]. split; [by rewrite Hq|].
  split; [exact Hpeek|apply Hcan].
Defined.

Lemma can_proceed_grants_without_conflict_witness :
  ∃ self',
    can_proceed "WEST" true east_active = Returned true self' ∧
    stats self' = stats east_active.
Proof.
  destruct (can_proceed_grants_without_conflict east_active "WEST" true)
    as (self' & Hcan & _ & Hstats).
  - by intros a b Ha%elem_of_nil.
  - intros emergency [Hin _]. by apply elem_of_nil in Hin.
  - intros conflict Hc Hin. vm_compute in Hc, Hin.
    apply list_elem_of_singleton in Hin as ->.
    apply elem_of_cons in Hc as [Hc|Hc]; [done|]. by apply list_elem_of_singleton in Hc.
  - exists self'. split; [|exact Hstats]. rewrite Hcan. f_equal.
Defined.

Lemma emergency_is_serviced_witness :
  ∃ signal' isec' isec'',
    run_alone [0%float; 0%float; 0%float; 3%float; 3%float; 3%float; 3%float] 1%float 5
      north_signal north_request = Some (signal', isec') ∧
    at_pc signal' = LoopTest ∧
    emergency_responses (stats isec') = 1 ∧
    has_emergency_vehicle isec' = Returned None isec''.
Proof.
  destruct (emergency_is_serviced north_signal north_request (-100)%float
              (mkEmergencyVehicle 0 "NORTH" 1 100%float false)
              0%float 0%float 0%float 3%float 3%float 3%float 3%float 1%float 5)
    as (signal' & isec' & Hrun & Hpc & _ & _ & _ & _ & Hresp & _ & Hnone).
  - reflexivity.
  - intros a b Ha Hb. vm_compute in Ha, Hb.
    apply list_elem_of_singleton in Ha as ->. by apply list_elem_of_singleton in Hb as ->.
  - reflexivity.
  - reflexivity.
  - reflexivity.
  - discriminate.
  - reflexivity.
  - destruct Hnone as [isec'' Hnone].
    { intros item Hitem. by apply elem_of_nil in Hitem. }
    exists signal', isec', isec''. split; [exact Hrun|]. split; [exact Hpc|].
    split; [exact Hresp|exact Hnone].
Defined.

(** * Further properties: what a running system keeps *)

Section Evolution.
Context {F : Type} `{PyFloat F}.
Implicit Types (self isec : Intersection F) (direction : string).

Lemma has_emergency_vehicle_effect self :
  ∃ queue, outcome (has_emergency_vehicle self) = set_emergency_queue queue self.
Proof.
  unfold has_emergency_vehicle, try_except, on_queue, zoom.
  unfold mbind, M_bind, bind, mret, M_ret, ret.
  destruct (get_nowait (emergency_queue self)) as [item q|e q]; cbn [emergency_queue set_emergency_queue].
  - destruct (put _ q) as [[] q'|e q']; exists q'; simpl; try case_decide; by destruct self.
  - exists q. by case_decide.
Qed.

Lemma can_proceed_effect self direction (check : bool) :
  ∃ queue,
    (outcome (can_proceed direction check self) = set_emergency_queue queue self) ∨
    (can_proceed direction check self
       = Returned false (set_stats (add_deadlock_preventions 1 (stats self))
                           (set_emergency_queue queue self))).
Proof.
  assert (∀ s : Intersection F, set_emergency_queue (emergency_queue s) s = s) as Hsame
    by (by intros []).
  assert (∀ q q' (s : Intersection F),
            set_emergency_queue q' (set_emergency_queue q s) = set_emergency_queue q' s) as Hqq
    by (by intros ? ? []).
  unfold can_proceed, mbind, M_bind, bind, get_state, modify, mret, M_ret, ret.
  destruct check.
  - destruct (has_emergency_vehicle_effect self) as [q Hq].
    destruct (has_emergency_vehicle self) as [found s1|e s1]; simpl in Hq; subst s1;
      [|by exists q; left].
    cbv beta iota zeta. cbn [active_directions stats set_emergency_queue].
    destruct (match found with Some _ => _ | None => false end); [by exists q; left|].
    exists q. destruct (existsb _ _); [by right|]. left. by repeat case_match.
  - exists (emergency_queue self). rewrite Hsame. cbv beta iota zeta.
    destruct (existsb _ _); [by right|]. left. by repeat case_match.
Qed.

Lemma evolves_has_emergency_vehicle self : rtc updates self (outcome (has_emergency_vehicle self)).
Proof.
  destruct (has_emergency_vehicle_effect self) as [q ->]. apply rtc_once. constructor.
Qed.

Lemma evolves_can_proceed self direction check :
  rtc updates self (outcome (can_proceed direction check self)).
Proof.
  destruct (can_proceed_effect self direction check) as [q [->| ->]]; simpl.
  - apply rtc_once. constructor.
  - eapply rtc_l; [apply (updates_queue _ q)|]. apply rtc_once.
    apply (updates_denied (set_emergency_queue q self)).
Qed.

Lemma evolves_get_adaptive_green_time self direction (base : F) :
  outcome (get_adaptive_green_time direction base self) = self.
Proof.
  unfold get_adaptive_green_time, mbind, M_bind, bind, get_state.
  by destruct (traffic_density self !! direction).
Qed.

Lemma evolves_enter_locked self direction (is_emergency : bool) :
  rtc updates self (outcome (enter_locked direction is_emergency self)).
Proof.
  eapply rtc_l; [apply (updates_active _ (active_directions self ++ [direction]))|].
  eapply rtc_l; [apply (updates_log _ ("✓ " +:+ direction +:+ " is now " +:+
                    (if is_emergency then "EMERGENCY" else "GREEN")))|].
  destruct is_emergency.
  - apply rtc_once.
    match goal with |- updates ?s _ => pose proof (updates_emergency s) as Hu end.
    exact Hu.
  - apply rtc_once.
    match goal with |- updates ?s _ => pose proof (updates_cycle s) as Hu end.
    exact Hu.
Qed.

Lemma evolves_exit_locked self direction :
  rtc updates self (outcome (exit_locked direction self)).
Proof.
  unfold exit_locked, mbind, M_bind, bind, get_state, modify, mret, M_ret, ret.
  case_bool_decide; [|done]. simpl.
  eapply rtc_l; [apply (updates_active _ (remove_first direction (active_directions self)))|].
  apply rtc_once.
  match goal with |- updates ?s _ => pose proof (updates_log s ("✗ " +:+ direction +:+ " is now RED")) as Hu end.
  exact Hu.
Qed.

Lemma evolves_fail e (signal signal' : TrafficSignal F) isec isec' :
  Some (fail e signal isec) = Some (signal', isec') → rtc updates isec isec'.
Proof. intros [= <- <-]. apply rtc_once. apply (updates_log isec). Qed.

Lemma evolves_acquire isec isec' : acquire isec = Some isec' → rtc updates isec isec'.
Proof.
  unfold acquire. destruct (green_semaphore isec); [done|]. intros [= <-].
  apply rtc_once. constructor.
Qed.

Lemma evolves_sleep_or_fail now secs next (signal signal' : TrafficSignal F) isec isec' :
  match sleep now secs next with
  | inr p => Some (goto p signal, isec)
  | inl e => Some (fail e signal isec)
  end = Some (signal', isec') →
  rtc updates isec isec'.
Proof.
  destruct (sleep _ _ _); intros Hs; [|by simplify_eq].
  eapply evolves_fail, Hs.
Qed.

Lemma signal_step_evolves now u k (signal signal' : TrafficSignal F) isec isec' :
  signal_step now u k signal isec = Some (signal', isec') → rtc updates isec isec'.
Proof.
  unfold signal_step.
  destruct (at_pc signal) eqn:Hpc; try done.
  - case_match; [done|]. by intros [= <- <-].
  - case_match; [done|]. by intros [= <- <-].
  - by intros [= <- <-].
  - pose proof (evolves_has_emergency_vehicle isec) as Hev.
    destruct (has_emergency_vehicle isec) as [[emergency|] s|e s]; simpl in Hev.
    + case_match; by intros [= <- <-].
    + by intros [= <- <-].
    + intros Hf. etrans; [exact Hev|]. eapply evolves_fail, Hf.
  - destruct (acquire isec) as [s|] eqn:Hacq; [|done]. simpl. intros [= <- <-].
    by apply evolves_acquire.
  - pose proof (evolves_enter_locked isec (direction signal) true) as Hev.
    destruct (enter_locked _ _ isec) as [[] s|e s]; simpl in Hev; intros Hf;
      [by simplify_eq|].
    etrans; [exact Hev|]. eapply evolves_fail, Hf.
  - intros [= <- <-]. apply rtc_once. apply updates_queue.
  - pose proof (evolves_exit_locked isec (direction signal)) as Hev.
    destruct (exit_locked _ isec) as [[] s|e s]; simpl in Hev; intros Hf;
      [by simplify_eq|].
    etrans; [exact Hev|]. eapply evolves_fail, Hf.
  - intros [= <- <-]. apply rtc_once. constructor.
  - by intros [= <- <-].
  - by intros [= <- <-].
  - pose proof (evolves_can_proceed isec (direction signal) true) as Hev.
    destruct (can_proceed _ _ isec) as [[|] s|e s]; simpl in Hev; intros Hf.
    + simplify_eq. etrans; [exact Hev|]. apply rtc_once. constructor.
    + by simplify_eq.
    + etrans; [exact Hev|]. eapply evolves_fail, Hf.
  - case_match; intros [= <- <-]; [|done]. apply rtc_once. apply (updates_log isec).
  - pose proof (evolves_get_adaptive_green_time isec (direction signal) (base_green_time signal))
      as Hev.
    destruct (get_adaptive_green_time _ _ isec) as [g s|e s]; simpl in Hev; subst s;
      intros Hf; [by simplify_eq|]. eapply evolves_fail, Hf.
  - destruct (acquire isec) as [s|] eqn:Hacq; [|done]. simpl. intros [= <- <-].
    by apply evolves_acquire.
  - pose proof (evolves_enter_locked isec (direction signal) false) as Hev.
    destruct (enter_locked _ _ isec) as [[] s|e s]; simpl in Hev; intros Hf;
      [by simplify_eq|].
    etrans; [exact Hev|]. eapply evolves_fail, Hf.
  - case_bool_decide as Hk; [|done]. intros Hs.
    eapply rtc_l; [by apply (updates_passed isec k)|]. by eapply evolves_sleep_or_fail.
  - cbv zeta. unfold log_event at 1. unfold modify. intros Hs.
    eapply rtc_l; [apply (updates_log isec ("⚠ " +:+ direction signal +:+ " is now YELLOW"))|].
    by eapply evolves_sleep_or_fail.
  - pose proof (evolves_exit_locked isec (direction signal)) as Hev. cbv zeta.
    destruct (exit_locked _ isec) as [[] s|e s]; simpl in Hev; intros Hf;
      [by simplify_eq|].
    etrans; [exact Hev|]. eapply evolves_fail, Hf.
  - intros [= <- <-]. apply rtc_once. constructor.
Qed.

Ltac unchanged := simpl; intros; eexists; split; [eassumption|apply rtc_refl].

Lemma evolves_add_emergency_vehicle self direction (t_created t_queued : F) :
  rtc updates self (outcome (add_emergency_vehicle direction t_created t_queued self)).
Proof.
  unfold add_emergency_vehicle, mbind, M_bind, bind, get_state, modify, on_queue, zoom.
  cbn [emergency_queue set_next_obj].
  eapply rtc_l; [apply (updates_next_obj self (S (next_obj self)))|].
  destruct (put _ _) as [[] q|e q]; simpl.
  - eapply rtc_l; [apply (updates_queue _ q)|]. apply rtc_once.
    match goal with |- updates ?s _ => apply (updates_log s) end.
  - apply rtc_once. apply updates_queue.
Qed.

Lemma log_all_evolves event (l : list (Intersection F)) k isec' :
  log_all event l !! k = Some isec' →
  ∃ isec, l !! k = Some isec ∧ rtc updates isec isec'.
Proof.
  unfold log_all. rewrite list_lookup_fmap.
  destruct (l !! k) as [isec|]; [|done]. intros [= <-].
  exists isec. split; [done|]. apply rtc_once. apply (updates_log isec).
Qed.

Lemma on_intersection_evolves {A} i (m : M (Intersection F) A) ctl k isec' :
  (∀ s, rtc updates s (outcome (m s))) →
  intersections (outcome (on_intersection i m ctl)) !! k = Some isec' →
  ∃ isec, intersections ctl !! k = Some isec ∧ rtc updates isec isec'.
Proof.
  intros Hm. unfold on_intersection.
  destruct (intersections ctl !! i) as [isec|] eqn:Hi; [|by unchanged].
  specialize (Hm isec).
  assert (∀ s, rtc updates isec s →
            <[i:=s]> (intersections ctl) !! k = Some isec' →
            ∃ isec0, intersections ctl !! k = Some isec0 ∧ rtc updates isec0 isec') as Hset.
  { intros s Hs Hk. destruct (decide (i = k)) as [<-|Hne].
    - rewrite list_lookup_insert_eq in Hk by (by eapply lookup_lt_Some).
      injection Hk as <-. by exists isec.
    - rewrite list_lookup_insert_ne in Hk by done. exists isec'. split; [done|apply rtc_refl]. }
  destruct (m isec); simpl in *; by apply Hset.
Qed.

Lemma exec_evolves a (w w' : World F) k isec' :
  exec a w = Some w' →
  intersections (controller w') !! k = Some isec' →
  ∃ isec, intersections (controller w) !! k = Some isec ∧ rtc updates isec isec'.
Proof.
  destruct w as [t ctl]. destruct a; simpl.
  - case_match; [done|]. intros [= <-]. by unchanged.
  - intros Hrun Hk. simplify_option_eq.
    match goal with H : signal_step _ _ _ _ _ = Some ?p |- _ => destruct p as [s' i'] end.
    simplify_eq. simpl in Hk.
    match goal with H : signal_step _ _ _ ?sg ?ic = Some _ |- _ =>
      apply signal_step_evolves in H as Hev;
      destruct (decide (intersection sg = k)) as [<-|Hne] end.
    + rewrite list_lookup_insert_eq in Hk by (by eapply lookup_lt_Some).
      injection Hk as <-. eexists. split; [eassumption|done].
    + rewrite list_lookup_insert_ne in Hk by done. by unchanged.
  - unfold start. destruct (controller_running ctl); [intros [= <-]; by unchanged|].
    destruct (forallb _ _); [|done]. intros [= <-]. simpl. apply log_all_evolves.
  - intros [= <-]. simpl. unfold TrafficController_stop.
    destruct (controller_running ctl); simpl; [apply log_all_evolves|by unchanged].
  - intros [= <-]. simpl. unfold trigger_emergency.
    case_bool_decide; [|by unchanged].
    apply on_intersection_evolves. intros s. apply evolves_add_emergency_vehicle.
  - intros [= <-]. simpl. unfold TrafficController_update_traffic_density.
    case_bool_decide; [|by unchanged].
    apply on_intersection_evolves. intros s. apply rtc_once. constructor.
Qed.

(** Every intersection of a running system is a freshly constructed one
    that went through updates of the kinds listed in [updates]. *)
Lemma reachable_evolved (w : World F) isec :
  reachable w → isec ∈ intersections (controller w) →
  ∃ id, rtc updates (Intersection_init id) isec.
Proof.
  intros Hreach. revert isec.
  induction Hreach as [w [Hinit _]|w a w' _ IH Hexec]; intros isec Hin.
  - rewrite Forall_forall in Hinit. destruct (Hinit isec Hin) as [id ->]. by exists id.
  - apply list_elem_of_lookup in Hin as [k Hk].
    destruct (exec_evolves _ _ _ _ _ Hexec Hk) as (isec0 & Hk0 & Hev).
    destruct (IH isec0) as [id Hid]; [by eapply list_elem_of_lookup_2|].
    exists id. by etrans.
Qed.

Lemma evolved_invariant (P : Intersection F → Prop) id isec :
  P (Intersection_init id) →
  (∀ s s', updates s s' → P s → P s') →
  rtc updates (Intersection_init id) isec → P isec.
Proof. intros Hinit Hstep Hev. induction Hev; eauto. Qed.

(** X14.  In every state the system can reach, the event log of every
    intersection holds at most 100 lines. *)
Theorem event_log_is_bounded (w : World F) isec :
  reachable w → isec ∈ intersections (controller w) →
  (length (event_log isec) ≤ 100)%nat.
Proof.
  intros Hreach Hin. destruct (reachable_evolved w isec Hreach Hin) as [id Hev].
  apply (evolved_invariant (λ s, (length (event_log s) ≤ 100)%nat) id isec); [simpl; lia| |done].
  intros s s' Hupd Hs. destruct Hupd; simpl; try done.
  case_decide; rewrite length_app, ?length_drop; simpl; lia.
Qed.

Lemma reachable_density_range (w : World F) isec :
  reachable w → isec ∈ intersections (controller w) →
  (∀ d v, traffic_density isec !! d = Some v → 0 ≤ v ≤ 100) ∧
  (∀ d, d ∈ four_directions → is_Some (traffic_density isec !! d)).
Proof.
  intros Hreach Hin. destruct (reachable_evolved w isec Hreach Hin) as [id Hev].
  apply (evolved_invariant
           (λ s, (∀ d v, traffic_density s !! d = Some v → 0 ≤ v ≤ 100) ∧
                 (∀ d, d ∈ four_directions → is_Some (traffic_density s !! d))) id isec);
    [| |done].
  - split.
    + intros d v Hd. simpl in Hd.
      rewrite !lookup_insert_Some, lookup_empty in Hd. naive_solver lia.
    + intros d Hd. unfold four_directions in Hd. rewrite !elem_of_cons, elem_of_nil in Hd.
      destruct Hd as [->|[->|[->|[->|[]]]]]; by eexists.
  - intros s s' Hupd [Hr Hk].
    destruct Hupd as [| | | | | | | | | |s changed density]; simpl; try done. split.
    + intros d v. destruct (decide (changed = d)) as [->|Hne].
      * rewrite lookup_insert_eq. intros [= <-]. lia.
      * rewrite lookup_insert_ne by done. apply Hr.
    + intros d Hd. destruct (decide (changed = d)) as [->|Hne].
      * rewrite lookup_insert_eq. by eexists.
      * rewrite lookup_insert_ne by done. by apply Hk.
Qed.

(** X15.  In every state the system can reach, every stored density lies
    in [0, 100] and the four directions have one: for them
    [get_adaptive_green_time] returns
    [base_time * (0.5 + density / 100.0)] with that density and leaves the
    intersection as it was. *)
Theorem stored_densities_stay_in_range (w : World F) isec direction (base_time : F) :
  reachable w → isec ∈ intersections (controller w) →
  (∀ density, traffic_density isec !! direction = Some density → 0 ≤ density ≤ 100) ∧
  (direction ∈ four_directions →
   ∃ density,
     traffic_density isec !! direction = Some density ∧
     0 ≤ density ≤ 100 ∧
     get_adaptive_green_time direction base_time isec =
       Returned
         (fmul base_time (fadd (fdec 1 2) (fdiv (float_of_int density) (float_of_int 100))))
         isec).
Proof.
  intros Hreach Hin.
  destruct (reachable_density_range w isec Hreach Hin) as [Hrange Hkeys].
  split; [apply Hrange|].
  intros Hd. destruct (Hkeys direction Hd) as [density Hdensity].
  exists density. split; [done|]. split; [by eapply Hrange|].
  by apply get_adaptive_green_time_returns.
Qed.

End Evolution.

Lemma event_log_is_bounded_witness :
  ∃ w isec,
    run_trace east_green_trace one_intersection = Some w ∧
    intersections (controller w) = [isec] ∧
    (length (event_log isec) ≤ 100)%nat.
Proof.
  run_to_world east_green_trace one_intersection initial_one_intersection.
  eexists. split; [done|]. split; [reflexivity|].
  match goal with
  | Hreach : reachable ?w |- (length (event_log ?isec) ≤ _)%nat =>
      apply (event_log_is_bounded w isec Hreach)
  end.
  vm_compute. apply list_elem_of_here.
Defined.

Lemma stored_densities_stay_in_range_witness :
  ∃ w isec,
    run_trace east_green_trace one_intersection = Some w ∧
    intersections (controller w) = [isec] ∧
    ∃ density,
      traffic_density isec !! "EAST" = Some density ∧
      0 ≤ density ≤ 100 ∧
      get_adaptive_green_time "EAST" 5%float isec = Returned (green64 density) isec.
Proof.
  run_to_world east_green_trace one_intersection initial_one_intersection.
  eexists. split; [done|]. split; [reflexivity|].
  match goal with
  | Hreach : reachable ?w |- ∃ density, _ ∧ _ ∧ get_adaptive_green_time _ _ ?isec = _ =>
      destruct (stored_densities_stay_in_range w isec "EAST" 5%float Hreach)
        as [_ Hreturns]; [vm_compute; apply list_elem_of_here|]
  end.
  apply Hreturns. apply (bool_decide_unpack _). vm_compute. exact I.
Defined.

#[global] Instance grows_preorder {F : Type} `{PyFloat F} : PreOrder (grows (F:=F)).
Proof.
  split.
  - intros s. unfold grows, counters_le. lia.
  - intros s1 s2 s3. unfold grows, counters_le. lia.
Qed.

#[global] Instance same_stats_refl {F : Type} `{PyFloat F} : Reflexive (same_stats (F:=F)).
Proof. by intros s. Qed.

Section Statistics.
Context {F : Type} `{PyFloat F}.
Implicit Types (self isec : Intersection F) (direction : string).

Lemma signals_total_insert (weight : TrafficSignal F → Z) k (sigs : list (TrafficSignal F)) i s s' :
  sigs !! i = Some s → intersection s' = intersection s →
  signals_total weight k (<[i:=s']> sigs)
  = signals_total weight k sigs + (if decide (intersection s = k) then weight s' - weight s else 0).
Proof.
  intros Hi Hk. unfold signals_total.
  rewrite insert_take_drop by (by eapply lookup_lt_Some).
  rewrite <- (take_drop_middle sigs i s Hi) at 3.
  rewrite !filter_app, !filter_cons, !fmap_app, Hk.
  assert (∀ l1 l2 : list Z, foldr Z.add 0 (l1 ++ l2) = foldr Z.add 0 l1 + foldr Z.add 0 l2)
    as Happ.
  { intros l1 l2. induction l1 as [|x l1 IH]; simpl; lia. }
  rewrite !Happ. repeat case_decide; simpl in *; try done; lia.
Qed.

Lemma signals_total_fmap (weight : TrafficSignal F → Z) k (f : TrafficSignal F → TrafficSignal F) sigs :
  Forall (λ s, intersection (f s) = intersection s ∧ weight (f s) = weight s) sigs →
  signals_total weight k (f <$> sigs) = signals_total weight k sigs.
Proof.
  unfold signals_total. induction 1 as [|s sigs [Hi Hw] _ IH]; [done|].
  rewrite fmap_cons, !filter_cons, Hi. simpl in *.
  repeat case_decide; simpl in *; rewrite ?Hw; try done; first [exact IH | f_equal; exact IH].
Qed.

Lemma in_cycle_bound (p : pc F) : (if counted p then 1 else 0) ≤ (if in_cycle p then 1 else 0).
Proof.
  induction p; simpl; try lia; try done.
  destruct p; simpl in *; try lia; try done.
Qed.

Lemma signals_total_le (w1 w2 : TrafficSignal F → Z) k sigs :
  (∀ s, w1 s ≤ w2 s) → signals_total w1 k sigs ≤ signals_total w2 k sigs.
Proof.
  intros Hw. unfold signals_total. induction sigs as [|s sigs IH]; [done|].
  rewrite !filter_cons. specialize (Hw s). case_decide; simpl in *; unfold fmap in *; lia.
Qed.

Lemma signals_total_nonneg (weight : TrafficSignal F → Z) k sigs :
  Forall (λ s, 0 ≤ weight s) sigs → 0 ≤ signals_total weight k sigs.
Proof.
  unfold signals_total. induction 1 as [|s sigs Hs _ IH]; [done|].
  rewrite !filter_cons. case_decide; simpl in *; unfold fmap in *; lia.
Qed.

Ltac resolve_calls H :=
  repeat match type of H with
  | context [has_emergency_vehicle ?s] =>
      let q := fresh "q" in let Hq := fresh "Hq" in
      destruct (has_emergency_vehicle_effect s) as [q Hq];
      destruct (has_emergency_vehicle s) as [[?|] ?|? ?]; simpl in Hq; subst
  | context [can_proceed ?d ?c ?s] =>
      let q := fresh "q" in let Hq := fresh "Hq" in
      destruct (can_proceed_effect s d c) as [q [Hq|Hq]];
      [destruct (can_proceed d c s) as [[|] ?|? ?]; simpl in Hq; subst
      |rewrite Hq in H]
  | context [get_adaptive_green_time ?d ?g ?s] =>
      let Hq := fresh "Hq" in
      pose proof (evolves_get_adaptive_green_time s d g) as Hq;
      destruct (get_adaptive_green_time d g s); simpl in Hq; subst
  end.

(** What one step of a signal does to the counters. *)
Lemma signal_step_counts now u k (signal signal' : TrafficSignal F) isec isec' :
  signal_step now u k signal isec = Some (signal', isec') →
  let weight (f : pc F → bool) (s : TrafficSignal F) :=
    cycle_count s + (if f (at_pc s) then 1 else 0) in
  intersection signal' = intersection signal ∧
  total_cycles (stats isec') - emergency_responses (stats isec') - weight in_cycle signal'
    = total_cycles (stats isec) - emergency_responses (stats isec) - weight in_cycle signal ∧
  vehicles_passed (stats isec') - 8 * weight counted signal'
    ≤ vehicles_passed (stats isec) - 8 * weight counted signal ∧
  emergency_responses (stats isec) ≤ emergency_responses (stats isec') ∧
  deadlock_preventions (stats isec) ≤ deadlock_preventions (stats isec') ∧
  vehicles_passed (stats isec) ≤ vehicles_passed (stats isec') ∧
  cycle_count signal ≤ cycle_count signal'.
Proof.
  unfold signal_step, fail. destruct signal as [d i st g y r c l p]. cbn [at_pc].
  intros Hstep.
  destruct p; try done.
  all: cbn [direction intersection running cycle_count at_pc base_green_time yellow_time
            last_state_change goto set_state incr_cycle_count] in Hstep.
  all: resolve_calls Hstep.
  all: unfold acquire, enter_locked, exit_locked, sleep, asleep, log_event, mbind, M_bind,
         bind, modify, get_state, mret, M_ret, ret in Hstep.
  all: repeat (case_match; simplify_eq/=); try done.
  all: repeat match goal with H : bool_decide _ = true |- _ => apply bool_decide_eq_true_1 in H end.
  all: repeat split; lia.
Qed.

Lemma on_intersection_related {A} (R : relation (Intersection F)) `{!Reflexive R}
    i (m : M (Intersection F) A) ctl k isec' :
  (∀ s, R s (outcome (m s))) →
  intersections (outcome (on_intersection i m ctl)) !! k = Some isec' →
  ∃ isec, intersections ctl !! k = Some isec ∧ R isec isec'.
Proof.
  intros Hm. unfold on_intersection.
  destruct (intersections ctl !! i) as [isec|] eqn:Hi; [|by simpl; eauto].
  specialize (Hm isec).
  assert (∀ s, R isec s →
            <[i:=s]> (intersections ctl) !! k = Some isec' →
            ∃ isec0, intersections ctl !! k = Some isec0 ∧ R isec0 isec') as Hset.
  { intros s Hs Hk. destruct (decide (i = k)) as [<-|Hne].
    - rewrite list_lookup_insert_eq in Hk by (by eapply lookup_lt_Some).
      injection Hk as <-. by exists isec.
    - rewrite list_lookup_insert_ne in Hk by done. by exists isec'. }
  destruct (m isec); simpl in *; by apply Hset.
Qed.

Lemma log_all_related (R : relation (Intersection F)) event (l : list (Intersection F)) k isec' :
  (∀ s, R s (outcome (log_event event s))) →
  log_all event l !! k = Some isec' →
  ∃ isec, l !! k = Some isec ∧ R isec isec'.
Proof.
  intros HR. unfold log_all. rewrite list_lookup_fmap.
  destruct (l !! k) as [isec|]; [|done]. intros [= <-].
  exists isec. split; [done|]. apply HR.
Qed.

Lemma add_emergency_vehicle_same_stats direction (t1 t2 : F) s :
  same_stats s (outcome (add_emergency_vehicle direction t1 t2 s)).
Proof.
  unfold add_emergency_vehicle, mbind, M_bind, bind, get_state, modify, on_queue, zoom.
  cbn [emergency_queue set_next_obj].
  by destruct (put _ _) as [[] q|e q].
Qed.

(** Calls from outside the signal threads leave the counters alone. *)
Lemma statistics_environment (ctl ctl' : TrafficController F) t t' :
  (∀ k isec', intersections ctl' !! k = Some isec' →
     ∃ isec, intersections ctl !! k = Some isec ∧ same_stats isec isec') →
  (∀ k, completed_cycles k (signals ctl') = completed_cycles k (signals ctl) ∧
        cycles_in_progress k (signals ctl') = cycles_in_progress k (signals ctl) ∧
        cycles_counted k (signals ctl') = cycles_counted k (signals ctl)) →
  (Forall (λ s, 0 ≤ cycle_count s) (signals ctl) → Forall (λ s, 0 ≤ cycle_count s) (signals ctl')) →
  statistics_invariant (mkWorld t ctl) → statistics_invariant (mkWorld t' ctl').
Proof.
  intros Hisec Hsig Hcc Hinv k isec' Hk. simpl in *.
  destruct (Hisec k isec' Hk) as (isec & Hk0 & Hst). unfold same_stats in Hst.
  destruct (Hinv k isec Hk0) as (H1 & H2 & H3 & H4 & H5 & H6). simpl in *.
  destruct (Hsig k) as (-> & -> & ->). rewrite Hst. auto 10.
Qed.

Lemma signals_fmap_totals (f : TrafficSignal F → TrafficSignal F) sigs k :
  Forall (λ s, intersection (f s) = intersection s ∧ cycle_count (f s) = cycle_count s ∧
               in_cycle (at_pc (f s)) = in_cycle (at_pc s) ∧
               counted (at_pc (f s)) = counted (at_pc s)) sigs →
  completed_cycles k (f <$> sigs) = completed_cycles k sigs ∧
  cycles_in_progress k (f <$> sigs) = cycles_in_progress k sigs ∧
  cycles_counted k (f <$> sigs) = cycles_counted k sigs.
Proof.
  intros Hall. unfold completed_cycles, cycles_in_progress, cycles_counted.
  repeat split; apply signals_total_fmap; eapply Forall_impl; try exact Hall; simpl.
  - naive_solver.
  - intros s (? & ? & -> & ?). done.
  - intros s (? & ? & ? & ->). done.
Qed.

Lemma on_intersection_signals {A} i (m : M (Intersection F) A) ctl :
  signals (outcome (on_intersection i m ctl)) = signals ctl.
Proof. unfold on_intersection. by repeat case_match. Qed.

Lemma exec_statistics a (w w' : World F) :
  statistics_invariant w → exec a w = Some w' → statistics_invariant w'.
Proof.
  intros Hinv. destruct w as [t ctl]. destruct a; simpl.
  - case_match; [done|]. by intros [= <-].
  - intros Hrun. simplify_option_eq.
    match goal with H : signal_step _ _ _ _ _ = Some ?p |- _ => destruct p as [s' i'] end.
    simplify_eq.
    match goal with
    | Hs : signals ctl !! ?i = Some ?sg, Hi : intersections ctl !! _ = Some ?ic,
      H : signal_step _ _ _ _ _ = Some _ |- _ =>
        rename Hs into Hsig; rename Hi into Hisec;
        destruct (signal_step_counts _ _ _ _ _ _ _ H) as (Hk & Htc & Hvp & Her & Hdp & Hvp' & Hcc);
        destruct (Hinv _ _ Hisec) as (I1 & I2 & I3 & I4 & I5 & I6); simpl in *
    end.
    intros k0 isec0 Hk0. simpl in *.
    unfold completed_cycles, cycles_in_progress, cycles_counted in *.
    rewrite !(signals_total_insert _ k0 _ _ _ _ Hsig Hk).
    assert (Forall (λ s, 0 ≤ cycle_count s) (<[i:=s']> (signals ctl))) as Hall.
    { apply Forall_insert; [done|].
      rewrite Forall_forall in I6. specialize (I6 _ (list_elem_of_lookup_2 _ _ _ Hsig)).
      simpl in I6. lia. }
    match goal with |- context [decide (?a = k0)] => destruct (decide (a = k0)) as [<-|Hne] end.
    + rewrite list_lookup_insert_eq in Hk0 by (by eapply lookup_lt_Some).
      injection Hk0 as <-. repeat split; try done; lia.
    + rewrite list_lookup_insert_ne in Hk0 by done.
      destruct (Hinv _ _ Hk0) as (J1 & J2 & J3 & J4 & J5 & J6); simpl in *.
      unfold completed_cycles, cycles_in_progress, cycles_counted in *.
      repeat split; try done; lia.
  - unfold start. destruct (controller_running ctl); [by intros [= <-]|].
    destruct (forallb _ _) eqn:Hall; [|done]. intros [= <-].
    eapply statistics_environment; [| | |exact Hinv]; simpl.
    + intros k isec'. by apply log_all_related.
    + intros k. apply signals_fmap_totals, Forall_forall. intros s Hs.
      rewrite forallb_forall in Hall.
      specialize (Hall s (proj1 (list_elem_of_In _ _) Hs)).
      destruct s as [? ? ? ? ? ? ? ? p]; simpl in *. by destruct p.
    + intros Hcc. apply Forall_fmap. eapply Forall_impl; [exact Hcc|]. by intros [].
  - intros [= <-]. unfold TrafficController_stop.
    destruct (controller_running ctl); simpl; [|done].
    eapply statistics_environment; [| | |exact Hinv]; simpl.
    + intros k isec'. by apply log_all_related.
    + intros k. apply signals_fmap_totals, Forall_forall. by intros s Hs.
    + intros Hcc. apply Forall_fmap. eapply Forall_impl; [exact Hcc|]. by intros [].
  - intros [= <-]. unfold trigger_emergency. case_bool_decide; [|done].
    eapply statistics_environment; [| | |exact Hinv]; simpl.
    + intros k isec'. apply (on_intersection_related same_stats).
      intros s. apply add_emergency_vehicle_same_stats.
    + intros k. by rewrite on_intersection_signals.
    + by rewrite on_intersection_signals.
  - intros [= <-]. unfold TrafficController_update_traffic_density. case_bool_decide; [|done].
    eapply statistics_environment; [| | |exact Hinv]; simpl.
    + intros k isec'. by apply (on_intersection_related same_stats).
    + intros k. by rewrite on_intersection_signals.
    + by rewrite on_intersection_signals.
Qed.

Lemma initial_statistics (w : World F) : initial w → statistics_invariant w.
Proof.
  intros [Hisec Hsig] k isec Hk.
  rewrite Forall_forall in Hisec.
  destruct (Hisec isec) as [id ->]; [by eapply list_elem_of_lookup_2|].
  assert (∀ weight : TrafficSignal F → Z,
            (∀ d i g y t, weight (TrafficSignal_init d i g y t) = 0) →
            signals_total weight k (signals (controller w)) = 0) as Hzero.
  { intros weight Hw. unfold signals_total.
    induction Hsig as [|s l (d & i & g & y & t & ->) _ IH]; [done|].
    rewrite filter_cons. case_decide; simpl in *; rewrite ?Hw; unfold fmap in *; lia. }
  cbv zeta. unfold completed_cycles, cycles_in_progress, cycles_counted.
  rewrite !Hzero by done. simpl. repeat split; try done.
  eapply Forall_impl; [exact Hsig|]. by intros s (d & i & g & y & t & ->).
Qed.

Lemma reachable_statistics (w : World F) : reachable w → statistics_invariant w.
Proof.
  induction 1 as [w Hinit|w a w' _ IH Hexec].
  - by apply initial_statistics.
  - by eapply exec_statistics.
Qed.

(** X16.  In every state the system can reach, [total_cycles] of an
    intersection is its [emergency_responses], plus the sum of the
    [cycle_count] of its signals, plus the number of its signals that have
    been admitted for a cycle they have not yet counted.  The counters are
    not negative, [emergency_responses] is at most [total_cycles], and
    [vehicles_passed] is at most 8 for each ordinary admission. *)
Theorem statistics_account_for_every_cycle (w : World F) (k : nat) isec :
  reachable w → intersections (controller w) !! k = Some isec →
  let sigs := signals (controller w) in
  total_cycles (stats isec)
    = emergency_responses (stats isec) + completed_cycles k sigs + cycles_in_progress k sigs ∧
  0 ≤ cycles_in_progress k sigs ∧
  0 ≤ completed_cycles k sigs ∧
  0 ≤ emergency_responses (stats isec) ≤ total_cycles (stats isec) ∧
  0 ≤ deadlock_preventions (stats isec) ∧
  0 ≤ vehicles_passed (stats isec)
    ≤ 8 * (total_cycles (stats isec) - emergency_responses (stats isec)).
Proof.
  intros Hreach Hk sigs.
  destruct (reachable_statistics w Hreach k isec Hk) as (H1 & H2 & H3 & H4 & H5 & H6).
  fold sigs in H1, H2, H6.
  assert (0 ≤ cycles_in_progress k sigs) as Hp.
  { apply signals_total_nonneg, Forall_forall. intros s _. by case_match. }
  assert (0 ≤ completed_cycles k sigs) as Hc by (by apply signals_total_nonneg).
  assert (cycles_counted k sigs ≤ cycles_in_progress k sigs) as Hle.
  { apply signals_total_le. intros s. apply in_cycle_bound. }
  lia.
Qed.

Lemma exec_signals_length a (w w' : World F) :
  exec a w = Some w' →
  length (signals (controller w')) = length (signals (controller w)) ∧
  length (intersections (controller w')) = length (intersections (controller w)).
Proof.
  destruct w as [t ctl]. destruct a; simpl.
  - case_match; [done|]. by intros [= <-].
  - intros Hrun. simplify_option_eq.
    match goal with H : signal_step _ _ _ _ _ = Some ?p |- _ => destruct p as [s' i'] end.
    simplify_eq. simpl. by rewrite !length_insert.
  - unfold start. destruct (controller_running ctl) eqn:Hr; [by intros [= <-]|].
    destruct (forallb _ _) eqn:Hall; [|done]. intros [= <-]. simpl.
    unfold log_all. by rewrite !length_fmap.
  - intros [= <-]. unfold TrafficController_stop, log_all.
    destruct (controller_running ctl) eqn:Hr; simpl; [|done]. by rewrite !length_fmap.
  - intros [= <-]. simpl. unfold trigger_emergency. case_bool_decide; [|done].
    unfold on_intersection. repeat case_match; simpl; by rewrite ?length_insert.
  - intros [= <-]. simpl. unfold TrafficController_update_traffic_density.
    case_bool_decide; [|done]. unfold on_intersection.
    repeat case_match; simpl; by rewrite ?length_insert.
Qed.

Lemma updates_grows (s s' : Intersection F) : updates s s' → grows s s'.
Proof.
  intros Hupd. unfold grows, counters_le. destruct Hupd; simpl; lia.
Qed.

Lemma evolved_grows (s s' : Intersection F) : rtc updates s s' → grows s s'.
Proof.
  induction 1 as [|s1 s2 s3 Hupd _ IH]; [reflexivity|].
  etrans; [by apply updates_grows|done].
Qed.

Lemma exec_grows a (w w' : World F) :
  exec a w = Some w' →
  Forall2 grows (intersections (controller w)) (intersections (controller w')).
Proof.
  intros Hexec. apply Forall2_same_length_lookup_2.
  - symmetry. by apply exec_signals_length in Hexec as [_ ?].
  - intros k isec isec' Hk Hk'.
    destruct (exec_evolves _ _ _ _ _ Hexec Hk') as (isec0 & Hk0 & Hev).
    rewrite Hk in Hk0. injection Hk0 as <-. by apply evolved_grows.
Qed.

Lemma run_trace_grows trace (w w' : World F) :
  run_trace trace w = Some w' →
  Forall2 grows (intersections (controller w)) (intersections (controller w')).
Proof.
  revert w. induction trace as [|a trace IH]; intros w; simpl.
  - intros [= <-]. apply Forall_Forall2_diag, Forall_forall. by intros s _.
  - destruct (exec a w) as [w1|] eqn:Hexec; [|done]. simpl. intros Hrun.
    etrans; [by eapply exec_grows|by apply IH].
Qed.

Lemma foldr_Zadd_le (f : Intersection F → Z) (l l' : list (Intersection F)) :
  Forall2 (λ s s', f s ≤ f s') l l' →
  foldr Z.add 0 (f <$> l) ≤ foldr Z.add 0 (f <$> l').
Proof. induction 1; simpl in *; unfold fmap in *; lia. Qed.

Lemma get_system_stats_counters (format_2f : F → string) (self : TrafficController F) :
  let sts := stats <$> intersections self in
  let report := get_system_stats format_2f self in
  report_total_cycles report = foldr Z.add 0 (total_cycles <$> sts) ∧
  report_emergency_responses report = foldr Z.add 0 (emergency_responses <$> sts) ∧
  report_deadlock_preventions report = foldr Z.add 0 (deadlock_preventions <$> sts) ∧
  report_vehicles_passed report = foldr Z.add 0 (vehicles_passed <$> sts).
Proof.
  intros sts report. unfold report, get_system_stats.
  rewrite foldl_accumulate. simpl. rewrite !foldl_Zadd, !Z.add_0_l.
  by destruct (bool_decide _).
Qed.

(** X17.  The three counters that are only changed under the lock of
    their intersection, [total_cycles], [emergency_responses] and
    [deadlock_preventions], never go down in the report of
    [get_system_stats] from one call to a later one, whatever the threads
    and the callers of the controller did in between. *)
Theorem reported_totals_never_decrease (format_2f : F → string)
    (trace : list (action F)) (w w' : World F) :
  run_trace trace w = Some w' →
  let before := get_system_stats format_2f (controller w) in
  let after := get_system_stats format_2f (controller w') in
  report_total_cycles before ≤ report_total_cycles after ∧
  report_emergency_responses before ≤ report_emergency_responses after ∧
  report_deadlock_preventions before ≤ report_deadlock_preventions after.
Proof.
  intros Hrun before after. pose proof (run_trace_grows _ _ _ Hrun) as Hgrow.
  unfold before, after.
  destruct (get_system_stats_counters format_2f (controller w)) as (-> & -> & -> & _).
  destruct (get_system_stats_counters format_2f (controller w')) as (-> & -> & -> & _).
  rewrite <- !list_fmap_compose.
  repeat split; apply foldr_Zadd_le; (eapply Forall2_impl; [exact Hgrow|]);
    intros s s' (? & ? & ? & ?); simpl; lia.
Qed.

End Statistics.

Lemma statistics_account_for_every_cycle_witness :
  ∃ w isec,
    run_trace east_green_trace one_intersection = Some w ∧
    intersections (controller w) !! 0%nat = Some isec ∧
    total_cycles (stats isec) = 1 ∧
    total_cycles (stats isec)
      = emergency_responses (stats isec) + completed_cycles 0 (signals (controller w))
        + cycles_in_progress 0 (signals (controller w)).
Proof.
  run_to_world east_green_trace one_intersection initial_one_intersection.
  eexists. split; [done|]. split; [reflexivity|]. split; [reflexivity|].
  match goal with
  | Hreach : reachable ?w |- total_cycles (stats ?isec) = _ =>
      pose proof (statistics_account_for_every_cycle w 0 isec Hreach eq_refl) as Hstats
  end.
  cbv zeta in Hstats. destruct Hstats as [Hcycles _]. exact Hcycles.
Defined.

Lemma reported_totals_never_decrease_witness :
  ∃ w,
    run_trace east_green_trace one_intersection = Some w ∧
    report_total_cycles (get_system_stats (λ _, "0.00") (controller one_intersection))
      ≤ report_total_cycles (get_system_stats (λ _, "0.00") (controller w)).
Proof.
  destruct (run_trace east_green_trace one_intersection) as [w|] eqn:Hrun;
    [|by vm_compute in Hrun].
  exists w. split; [done|].
  apply (reported_totals_never_decrease (λ _, "0.00") east_green_trace one_intersection w Hrun).
Defined.

(** Case analysis on the method call a step makes, the called method left
    as it is. *)
Ltac split_step H :=
  repeat match type of H with
  | context [has_emergency_vehicle ?s] => destruct (has_emergency_vehicle s) as [[?|] ?|? ?]
  | context [can_proceed ?d ?c ?s] => destruct (can_proceed d c s) as [[|] ?|? ?]
  | context [enter_locked ?d ?e ?s] =>
      let Hq := fresh in destruct (enter_locked_returns d e s) as [? Hq]; rewrite Hq in H
  | context [exit_locked ?d ?s] =>
      let Hq := fresh in destruct (exit_locked_returns d s) as [? Hq]; rewrite Hq in H
  | context [acquire ?s] => destruct (acquire s)
  end.

Section Timing.
Context {F : Type} `{PyFloat F}.
Implicit Types (self isec : Intersection F) (direction : string).

Lemma get_adaptive_green_time_cases direction (base : F) isec :
  (∃ density, traffic_density isec !! direction = Some density ∧
     get_adaptive_green_time direction base isec =
       Returned (fmul base (fadd (fdec 1 2) (fdiv (float_of_int density) (float_of_int 100))))
         isec) ∨
  get_adaptive_green_time direction base isec = Raised KeyError isec.
Proof.
  unfold get_adaptive_green_time, mbind, M_bind, bind, get_state.
  destruct (traffic_density isec !! direction) as [density|]; [left; by exists density|by right].
Qed.

Lemma signal_step_sound now u k (signal signal' : TrafficSignal F) isec isec' :
  signal_step now u k signal isec = Some (signal', isec') →
  well_timed signal → sound_pc (at_pc signal) →
  (∀ d v, traffic_density isec !! d = Some v → 0 ≤ v ≤ 100) →
  well_timed signal' ∧ sound_pc (at_pc signal').
Proof.
  unfold signal_step, fail.
  destruct signal as [d i st g y r c l p]. cbn [at_pc].
  intros Hstep Hwt Hpc Hrange.
  assert (well_timed (mkTrafficSignal d i st g y r c l p)) as [Hy Hg] by done.
  cbn [yellow_time base_green_time] in Hy, Hg.
  destruct p; try done.
  all: cbn [direction intersection running cycle_count at_pc base_green_time yellow_time
            last_state_change goto set_state incr_cycle_count] in Hstep.
  all: split_step Hstep.
  all: unfold sleep, asleep in Hstep.
  all: try match type of Hstep with
       | context [get_adaptive_green_time ?d ?g ?s] =>
           destruct (get_adaptive_green_time_cases d g s) as [(density & Hd & Hq)|Hq];
           rewrite Hq in Hstep; [pose proof (Hg density (Hrange _ _ Hd)) as Hgd|]
       end.
  all: simpl in Hpc.
  all: repeat (first [case_match | progress simplify_option_eq]); try done.
  all: try (split; [exact Hwt|]; simpl; try done).
  all: try by apply bool_decide_pack.
  all: try (apply bool_decide_unpack in Hpc; congruence).
Qed.

Lemma exec_sound a (w w' : World F) :
  reachable w → exec a w = Some w' →
  Forall sound_signal (signals (controller w)) → Forall sound_signal (signals (controller w')).
Proof.
  intros Hreach. destruct w as [t ctl]. destruct a; simpl.
  - case_match; [done|]. by intros [= <-].
  - intros Hrun Hall. simplify_option_eq.
    match goal with H : signal_step _ _ _ _ _ = Some ?p |- _ => destruct p as [s' i'] end.
    simplify_eq. simpl.
    match goal with
    | Hs : signals ctl !! ?i = Some ?sg, Hi : intersections ctl !! _ = Some ?ic,
      H : signal_step _ _ _ _ _ = Some _ |- _ =>
        rename Hs into Hsig; rename Hi into Hisec; rename H into Hstep
    end.
    apply Forall_insert; [done|].
    rewrite Forall_forall in Hall.
    destruct (Hall _ (list_elem_of_lookup_2 _ _ _ Hsig)) as [Hwt Hpc].
    eapply signal_step_sound; [exact Hstep|done..|].
    eapply (reachable_density_range (mkWorld t ctl)); [done|].
    by eapply list_elem_of_lookup_2.
  - unfold start. destruct (controller_running ctl); [by intros [= <-]|].
    destruct (forallb _ _) eqn:Hall; [|done]. intros [= <-]. simpl.
    intros Hs. apply Forall_fmap. eapply Forall_impl; [exact Hs|].
    intros s [Hwt _]. by split.
  - intros [= <-]. unfold TrafficController_stop.
    destruct (controller_running ctl); simpl; [|done].
    intros Hs. apply Forall_fmap. eapply Forall_impl; [exact Hs|]. by intros s [Hwt ?].
  - intros [= <-]. simpl. unfold trigger_emergency. case_bool_decide; [|done].
    unfold on_intersection. by repeat case_match.
  - intros [= <-]. simpl. unfold TrafficController_update_traffic_density.
    case_bool_decide; [|done]. unfold on_intersection. by repeat case_match.
Qed.

Lemma run_trace_sound trace (w w' : World F) :
  reachable w → run_trace trace w = Some w' →
  Forall sound_signal (signals (controller w)) → Forall sound_signal (signals (controller w')).
Proof.
  revert w. induction trace as [|a trace IH]; intros w Hreach; simpl.
  - by intros [= <-].
  - destruct (exec a w) as [w1|] eqn:Hexec; [|done]. simpl. intros Hrun Hs.
    eapply (IH w1); [by eapply reachable_step|done|]. by eapply exec_sound.
Qed.

Lemma initial_sound (w : World F) :
  initial w → Forall well_timed (signals (controller w)) → Forall sound_signal (signals (controller w)).
Proof.
  intros [_ Hinit] Hwt. rewrite Forall_forall in *. intros s Hs.
  split; [by apply Hwt|]. by destruct (Hinit s Hs) as (d & i & g & y & t & ->).
Qed.

(** A thread that holds a token and has not ended is never stuck: it is
    asleep, or its next step can be taken right away. *)
Lemma holder_can_move now u k (signal : TrafficSignal F) isec :
  holding (at_pc signal) → terminated (at_pc signal) = false → 3 ≤ k ≤ 8 →
  sleeping (at_pc signal) ∨ is_Some (signal_step now u k signal isec).
Proof.
  intros Hhold Hlive Hk. unfold signal_step.
  destruct (at_pc signal); try done; try (by left); right.
  all: try by eexists.
  all: try (destruct (enter_locked _ _ isec); by eexists).
  all: try (destruct (exit_locked _ isec); by eexists).
  - rewrite bool_decide_eq_true_2 by done. destruct (sleep _ _ _); by eexists.
  - simpl. destruct (sleep _ _ _); by eexists.
Qed.



End Timing.

(** The signals [TrafficController] builds, in binary64: [time.sleep]
    accepts their yellow time [2.0] and their green time at every density
    in [0, 100]. *)
Lemma green64_accepted :
  forallb (λ d, bool_decide (sleep_error (green64 d) = None)) (seqZ 0 101) = true.
Proof. vm_compute. reflexivity. Qed.

Lemma controller_signals_well_timed (n : nat) (now : float) :
  Forall well_timed (signals (TrafficController_init n now)).
Proof.
  apply Forall_forall. intros s Hs. simpl in Hs.
  apply list_elem_of_bind in Hs as (i & Hs & _).
  assert (base_green_time s = 5%float ∧ yellow_time s = 2%float) as [Hg Hy].
  { simpl in Hs. rewrite !elem_of_cons, elem_of_nil in Hs. naive_solver. }
  split; [by rewrite Hy|]. intros density Hd. rewrite Hg.
  pose proof green64_accepted as Ht. rewrite forallb_forall in Ht.
  assert (bool_decide (sleep_error (green64 density) = None) = true) as Hok.
  { apply Ht. apply list_elem_of_In, elem_of_seqZ. lia. }
  by apply bool_decide_eq_true in Hok.
Qed.



Section Display.
Context {F : Type} `{PyFloat F}.
Implicit Types (self isec : Intersection F) (direction : string).

Lemma signal_step_yellow now u k (signal signal' : TrafficSignal F) isec isec' :
  signal_step now u k signal isec = Some (signal', isec') →
  yellow_ok signal → yellow_ok signal'.
Proof.
  unfold signal_step, fail, yellow_ok.
  destruct signal as [d i st g y r c l p]. cbn [at_pc state].
  intros Hstep Hok.
  destruct p; try done.
  all: cbn [direction intersection running cycle_count at_pc base_green_time yellow_time
            last_state_change goto set_state incr_cycle_count] in Hstep.
  all: split_step Hstep.
  all: unfold sleep, asleep in Hstep.
  all: try match type of Hstep with
       | context [get_adaptive_green_time ?d ?g ?s] => destruct (get_adaptive_green_time d g s)
       end.
  all: repeat (first [case_match | progress simplify_option_eq]); try done.
  all: destruct st; try done.
  all: by destruct p.
Qed.

Lemma exec_yellow a (w w' : World F) :
  exec a w = Some w' →
  Forall (λ s, yellow_ok s) (signals (controller w)) →
  Forall (λ s, yellow_ok s) (signals (controller w')).
Proof.
  destruct w as [t ctl]. destruct a; simpl.
  - case_match; [done|]. by intros [= <-].
  - intros Hrun Hall. simplify_option_eq.
    match goal with H : signal_step _ _ _ _ _ = Some ?p |- _ => destruct p as [s' i'] end.
    simplify_eq. simpl.
    match goal with
    | Hs : signals ctl !! ?i = Some ?sg, H : signal_step _ _ _ _ _ = Some _ |- _ =>
        rename Hs into Hsig; rename H into Hstep
    end.
    apply Forall_insert; [done|].
    rewrite Forall_forall in Hall.
    eapply signal_step_yellow; [exact Hstep|]. apply Hall. by eapply list_elem_of_lookup_2.
  - unfold start. destruct (controller_running ctl); [by intros [= <-]|].
    destruct (forallb _ _) eqn:Hall; [|done]. intros [= <-]. simpl.
    intros Hs. apply Forall_fmap. rewrite Forall_forall in *. intros s Hin.
    rewrite forallb_forall in Hall. specialize (Hall s (proj1 (list_elem_of_In _ _) Hin)).
    specialize (Hs s Hin). unfold yellow_ok in *. destruct s as [? ? st ? ? ? ? ? p]; simpl in *.
    destruct p; done.
  - intros [= <-]. unfold TrafficController_stop.
    destruct (controller_running ctl); simpl; [|done].
    intros Hs. apply Forall_fmap. eapply Forall_impl; [exact Hs|]. by intros [].
  - intros [= <-]. simpl. unfold trigger_emergency. case_bool_decide; [|done].
    unfold on_intersection. by repeat case_match.
  - intros [= <-]. simpl. unfold TrafficController_update_traffic_density.
    case_bool_decide; [|done]. unfold on_intersection. by repeat case_match.
Qed.

Lemma reachable_yellow (w : World F) :
  reachable w → Forall (λ s, yellow_ok s) (signals (controller w)).
Proof.
  induction 1 as [w [_ Hinit]|w a w' _ IH Hexec].
  - eapply Forall_impl; [exact Hinit|]. by intros s (d & i & g & y & t & ->).
  - by eapply exec_yellow.
Qed.

(** X20.  In every state the system can reach, a signal that
    [get_state_info] reports as YELLOW has its direction in
    [active_directions] of its intersection. *)
Theorem yellow_signal_is_inside (w : World F) (i : nat) (signal : TrafficSignal F) isec
    (now : F) :
  reachable w →
  signals (controller w) !! i = Some signal →
  intersections (controller w) !! intersection signal = Some isec →
  info_state (get_state_info now signal) = "🟡 YELLOW" →
  info_direction (get_state_info now signal) ∈ active_directions isec.
Proof.
  intros Hreach Hsig Hisec Hstate. simpl in *.
  pose proof (reachable_yellow w Hreach) as Hy. rewrite Forall_forall in Hy.
  specialize (Hy signal (list_elem_of_lookup_2 _ _ _ Hsig)). unfold yellow_ok in Hy.
  destruct (state signal); try discriminate Hstate.
  destruct (reachable_occupancy w Hreach _ _ Hisec) as [_ Hact].
  rewrite Hact. unfold listed_directions.
  apply list_elem_of_fmap. exists signal. split; [done|].
  apply list_elem_of_filter. split; [|by eapply list_elem_of_lookup_2].
  split; [done|]. destruct (at_pc signal) as [| | ? [] | | | | | | | | | | | | | | | | | | | | []];
    done.
Qed.

End Display.

Lemma yellow_signal_is_inside_witness :
  ∃ w signal isec,
    run_trace yellow_trace one_intersection = Some w ∧
    signals (controller w) !! EAST = Some signal ∧
    intersections (controller w) !! 0%nat = Some isec ∧
    info_state (get_state_info 3%float signal) = "🟡 YELLOW" ∧
    info_direction (get_state_info 3%float signal) ∈ active_directions isec.
Proof.
  run_to_world yellow_trace one_intersection initial_one_intersection.
  eexists _, _. split; [done|]. split; [reflexivity|]. split; [reflexivity|].
  split; [reflexivity|].
  match goal with
  | Hreach : reachable ?w
    |- info_direction (get_state_info _ ?signal) ∈ active_directions ?isec =>
      apply (yellow_signal_is_inside w EAST signal isec 3%float Hreach)
  end; reflexivity.
Defined.

(** * Further properties: the controller *)

Section Lifecycle.
Context {F : Type} `{PyFloat F}.
Implicit Types (self isec : Intersection F) (direction : string).

Lemma bind_chunks_lookup {A} (f : nat → list A) (start n i j : nat) :
  (∀ i, length (f i) = 4%nat) → (i < n)%nat → (j < 4)%nat →
  (seq start n ≫= f) !! (4 * i + j)%nat = f (start + i)%nat !! j.
Proof.
  intros Hlen. revert start i. induction n as [|n IH]; intros start i Hi Hj; [lia|].
  cbn [seq]. rewrite bind_cons. destruct i as [|i].
  - rewrite lookup_app_l by (rewrite Hlen; lia).
    by rewrite Nat.mul_0_r, Nat.add_0_l, Nat.add_0_r.
  - rewrite lookup_app_r by (rewrite Hlen; lia). rewrite Hlen.
    replace (4 * S i + j - 4)%nat with (4 * i + j)%nat by lia.
    rewrite IH by lia. f_equal. f_equal. lia.
Qed.

Lemma bind_chunks_length {A} (f : nat → list A) (start n : nat) :
  (∀ i, length (f i) = 4%nat) → length (seq start n ≫= f) = (4 * n)%nat.
Proof.
  intros Hlen. revert start. induction n as [|n IH]; intros start; [done|].
  cbn [seq]. rewrite bind_cons, length_app, Hlen, IH. lia.
Qed.

(** X21.  [TrafficController(n)] builds [n] fresh intersections named
    Intersection-1 to Intersection-n and, for each of them, four signals:
    NORTH, SOUTH, EAST and WEST in this order, not started, with a base
    green time of [5.0] and a yellow time of [2.0].  It is not running, and
    it is an [initial] state, so that what is proved of reachable states
    holds of every controller that was built this way. *)
Theorem TrafficController_init_layout (num_intersections : nat) (now t : F) :
  let self := TrafficController_init num_intersections now in
  length (intersections self) = num_intersections ∧
  length (signals self) = (4 * num_intersections)%nat ∧
  controller_running self = false ∧
  (∀ i, (i < num_intersections)%nat →
     intersections self !! i
       = Some (Intersection_init ("Intersection-" +:+ pretty (i + 1)%nat))) ∧
  (∀ i j direction, (i < num_intersections)%nat → four_directions !! j = Some direction →
     signals self !! (4 * i + j)%nat
       = Some (TrafficSignal_init direction i (float_of_int 5) (float_of_int 2) now)) ∧
  initial (mkWorld t self).
Proof.
  intros self. unfold self, TrafficController_init. cbn [intersections signals controller_running].
  split; [by rewrite length_fmap, length_seq|].
  split; [by apply bind_chunks_length|].
  split; [done|]. split; [|split].
  - intros i Hi. rewrite list_lookup_fmap, lookup_seq_lt by done. done.
  - intros i j direction Hi Hj.
    rewrite bind_chunks_lookup; [|done|done|by apply lookup_lt_Some in Hj].
    by rewrite list_lookup_fmap, Hj.
  - split; cbn [controller intersections signals].
    + apply Forall_fmap, Forall_forall. intros i _. by eexists.
    + apply Forall_forall. intros s Hs.
      apply list_elem_of_bind in Hs as (i & Hs & _).
      apply list_elem_of_fmap in Hs as (d & -> & _). by eexists _, _, _, _, _.
Qed.

Lemma start_each_fresh (sigs : list (TrafficSignal F)) :
  forallb (λ signal, unstarted (at_pc signal)) sigs = true →
  start_each sigs = (goto Begin <$> sigs, true).
Proof.
  induction sigs as [|s sigs IH]; [done|]. simpl. unfold Thread_start.
  destruct (unstarted (at_pc s)); [|done]. simpl. intros Hall. by rewrite IH.
Qed.

Lemma start_each_raises (sigs : list (TrafficSignal F)) :
  forallb (λ signal, unstarted (at_pc signal)) sigs = false →
  ∃ sigs', start_each sigs = (sigs', false).
Proof.
  induction sigs as [|s sigs IH]; [done|]. simpl. unfold Thread_start.
  destruct (unstarted (at_pc s)); [|by eexists]. simpl. intros Hall.
  destruct (IH Hall) as [sigs' ->]. by eexists.
Qed.

Lemma start_each_started (sigs : list (TrafficSignal F)) :
  Forall (λ signal, started (at_pc signal)) sigs → sigs ≠ [] →
  start_each sigs = (sigs, false).
Proof.
  intros Hall Hne. destruct Hall as [|s sigs Hs _]; [done|]. simpl. unfold Thread_start.
  by destruct (at_pc s).
Qed.

(** [start_or_raise] is [start] where [start] is defined, and raises where
    it is not. *)
Lemma start_or_raise_agrees (self : TrafficController F) :
  match start self with
  | Some self' => start_or_raise self = inr self'
  | None => ∃ marked, start_or_raise self = inl marked
  end.
Proof.
  unfold start, start_or_raise. destruct (controller_running self); [done|].
  destruct (forallb _ _) eqn:Hall.
  - by rewrite start_each_fresh.
  - destruct (start_each_raises _ Hall) as [sigs' ->]. by eexists.
Qed.

Lemma signal_step_started now u k (signal signal' : TrafficSignal F) isec isec' :
  signal_step now u k signal isec = Some (signal', isec') →
  started (at_pc signal) → started (at_pc signal') ∧ running signal' = running signal.
Proof.
  unfold signal_step, fail.
  destruct signal as [d i st g y r c l p]. cbn [at_pc].
  intros Hstep Hok.
  destruct p; try done.
  all: cbn [direction intersection running cycle_count at_pc base_green_time yellow_time
            last_state_change goto set_state incr_cycle_count] in Hstep.
  all: repeat match type of Hstep with
  | context [has_emergency_vehicle ?s] => destruct (has_emergency_vehicle s) as [[?|] ?|? ?]
  | context [can_proceed ?d ?c ?s] => destruct (can_proceed d c s) as [[|] ?|? ?]
  | context [enter_locked ?d ?e ?s] => destruct (enter_locked d e s)
  | context [exit_locked ?d ?s] => destruct (exit_locked d s)
  | context [get_adaptive_green_time ?d ?g ?s] => destruct (get_adaptive_green_time d g s)
  | context [acquire ?s] => destruct (acquire s)
  end.
  all: unfold sleep, asleep in Hstep.
  all: repeat (first [case_match | progress simplify_option_eq]); done.
Qed.

Lemma exec_lifecycle a (w w' : World F) :
  exec a w = Some w' → lifecycle w → lifecycle w'.
Proof.
  destruct w as [t ctl]. unfold lifecycle. destruct a; simpl.
  - case_match; [done|]. by intros [= <-].
  - intros Hrun [Hst Hrn]. simplify_option_eq.
    match goal with H : signal_step _ _ _ _ _ = Some ?p |- _ => destruct p as [s' i'] end.
    simplify_eq. simpl.
    match goal with
    | Hs : signals ctl !! ?i = Some ?sg, H : signal_step _ _ _ _ _ = Some _ |- _ =>
        rename Hs into Hsig; rename H into Hstep
    end.
    destruct (signal_step_started _ _ _ _ _ _ _ Hstep) as [Hs' Hr'].
    { rewrite Forall_forall in Hst. apply Hst. by eapply list_elem_of_lookup_2. }
    split; [by apply Forall_insert|].
    intros Hoff. apply Forall_insert; [by apply Hrn|]. rewrite Hr'.
    specialize (Hrn Hoff). rewrite Forall_forall in Hrn. apply Hrn.
    by eapply list_elem_of_lookup_2.
  - intros Hstart [Hst Hrn]. unfold start in Hstart.
    destruct (controller_running ctl) eqn:Hr; [simplify_eq/=; split; [done|by rewrite Hr]|].
    destruct (forallb _ _) eqn:Hall; [|done]. simplify_eq/=.
    split; [|done]. apply Forall_fmap, Forall_forall. by intros s _.
  - intros [= <-] [Hst Hrn]. unfold TrafficController_stop.
    destruct (controller_running ctl) eqn:Hr; simpl; [|by rewrite Hr].
    split.
    + apply Forall_fmap. eapply Forall_impl; [exact Hst|]. by intros [].
    + intros _. apply Forall_fmap, Forall_forall. by intros s _.
  - intros [= <-]. simpl. unfold trigger_emergency. case_bool_decide; [|done].
    unfold on_intersection. by repeat case_match.
  - intros [= <-]. simpl. unfold TrafficController_update_traffic_density.
    case_bool_decide; [|done]. unfold on_intersection. by repeat case_match.
Qed.

Lemma run_trace_lifecycle trace (w w' : World F) :
  run_trace trace w = Some w' → lifecycle w → lifecycle w'.
Proof.
  revert w. induction trace as [|a trace IH]; intros w; simpl.
  - by intros [= <-].
  - destruct (exec a w) as [w1|] eqn:Hexec; [|done]. simpl. intros Hrun Hl.
    eapply (IH w1); [done|]. by eapply exec_lifecycle.
Qed.

Lemma run_trace_signals_length trace (w w' : World F) :
  run_trace trace w = Some w' →
  length (signals (controller w')) = length (signals (controller w)).
Proof.
  revert w. induction trace as [|a trace IH]; intros w; simpl.
  - by intros [= <-].
  - destruct (exec a w) as [w1|] eqn:Hexec; [|done]. simpl. intros Hrun.
    rewrite (IH w1 Hrun). by apply exec_signals_length in Hexec as [-> _].
Qed.

(** X22.  A controller runs once.  After its first [start()], a [stop()]
    followed by [start()] raises [RuntimeError] at the first signal
    ([Thread.start] on a thread that was started before).  The controller is
    then marked running, no log line is written, its signals are as [stop()]
    left them, with [running] false, and a further [start()] returns at
    once. *)
Theorem restart_raises_RuntimeError (num_intersections : nat) (now t : F)
    (trace : list (action F)) (w : World F) :
  (0 < num_intersections)%nat →
  run_trace (Start :: trace) (mkWorld t (TrafficController_init num_intersections now)) = Some w →
  let stopped := TrafficController_stop (controller w) in
  let marked := mkTrafficController (intersections stopped) (signals stopped) true in
  start_or_raise stopped = inl marked ∧
  start stopped = None ∧
  Forall (λ signal, running signal = false) (signals marked) ∧
  start_or_raise marked = inr marked.
Proof.
  intros Hn Hrun stopped marked.
  set (ctl0 := TrafficController_init num_intersections now) in *.
  set (ctl1 := mkTrafficController
            (log_all "🚦 Traffic Control System STARTED" (intersections ctl0))
            (goto Begin <$> signals ctl0) true).
  assert (start ctl0 = Some ctl1) as Hstart.
  { unfold start. cbn [ctl0 controller_running TrafficController_init].
    assert (forallb (λ signal : TrafficSignal F, unstarted (at_pc signal)) (signals ctl0) = true)
      as Hall; [|by rewrite Hall].
    apply forallb_forall. intros s Hs. apply list_elem_of_In in Hs.
    apply list_elem_of_bind in Hs as (i & Hs & _).
    by apply list_elem_of_fmap in Hs as (d & -> & _). }
  cbn [run_trace exec controller clock] in Hrun. rewrite Hstart in Hrun.
  cbn [fmap option_fmap option_map mbind option_bind] in Hrun.
  assert (lifecycle (mkWorld t ctl1)) as Hl1.
  { split; cbn [controller signals controller_running ctl1]; [|done].
    apply Forall_fmap, Forall_forall. by intros s _. }
  assert (length (signals ctl1) = (4 * num_intersections)%nat) as Hlen1.
  { cbn [ctl1 signals]. rewrite length_fmap. by apply bind_chunks_length. }
  pose proof (run_trace_lifecycle _ _ _ Hrun Hl1) as Hl.
  pose proof (run_trace_signals_length _ _ _ Hrun) as Hlen. cbn [controller] in Hlen.
  assert (lifecycle (mkWorld (clock w) stopped)) as [Hst Hrn].
  { apply (exec_lifecycle Stop w); [done|]. by destruct w. }
  assert (controller_running stopped = false) as Hoff.
  { unfold stopped, TrafficController_stop.
    destruct (controller_running (controller w)) eqn:Hr; simpl; done. }
  assert (length (signals stopped) = length (signals (controller w))) as Hlen'.
  { unfold stopped, TrafficController_stop.
    destruct (controller_running (controller w)); simpl; [|done]. by rewrite length_fmap. }
  simpl in Hst, Hrn.
  assert (signals stopped ≠ []) as Hne.
  { intros Hnil. rewrite Hnil, Hlen, Hlen1 in Hlen'. simpl in Hlen'. lia. }
  assert (forallb (λ signal, unstarted (at_pc signal)) (signals stopped) = false) as Hun.
  { destruct (signals stopped) as [|s rest]; [done|]. simpl.
    apply Forall_cons in Hst as [Hs _]. by destruct (at_pc s). }
  split; [|split; [|split]].
  - unfold start_or_raise. rewrite Hoff. by rewrite start_each_started.
  - unfold start. by rewrite Hoff, Hun.
  - by apply Hrn.
  - done.
Qed.

End Lifecycle.

Lemma restart_raises_RuntimeError_witness :
  ∃ w,
    run_trace east_green_trace one_intersection = Some w ∧
    start (TrafficController_stop (controller w)) = None ∧
    ∃ marked, start_or_raise (TrafficController_stop (controller w)) = inl marked.
Proof.
  destruct (run_trace east_green_trace one_intersection) as [w|] eqn:Hrun;
    [|by vm_compute in Hrun].
  exists w. split; [done|].
  pose proof (restart_raises_RuntimeError 1 0%float 0%float (runs EAST 11) w) as Hrestart.
  cbv zeta in Hrestart.
  destruct Hrestart as (Hraise & Hnone & _); [lia|exact Hrun|].
  split; [exact Hnone|]. eexists. exact Hraise.
Defined.
